(** * Low-rank factorization core (composer/algorithms/factorize/factorize_core.py)

    A shallow embedding of [factorize_matrix], [factorize_conv2d] and their
    helpers, with the torch tensors they manipulate modelled as views on a
    shared store of storages, so that aliasing ([detach], [.T], slicing,
    [reshape]) and in-place updates ([*=], [+=]) are visible.

    The entries of tensors are exact rationals ([Q]): the rounding of
    tensor arithmetic is not modelled.  A [rank] passed as a Python [float]
    is an IEEE 754 binary64 value, with the product and the conversions the
    source applies to it.  The numeric kernels of the libraries the source
    calls ([torch.linalg.lstsq], [torch.linalg.svd], [torch.sqrt],
    [F.unfold], [F.pad]) are parameters, collected in the interface
    [torch_lib]. *)

From Stdlib Require Import List ZArith QArith Qround Qpower Lia Bool Arith.
From Stdlib Require Import Permutation FinFun SpecFloat.
From Stdlib Require String Ascii DecimalString DecimalNat.
Import ListNotations.
Import String.StringSyntax Ascii.AsciiSyntax.
Delimit Scope string_scope with string.
Delimit Scope char_scope with char.

Set Implicit Arguments.

(* ================================================================== *)
(** ** Exceptions and results *)

(** The Python exceptions the source raises or lets through. *)
Inductive error : Type :=
| IndexError
| RuntimeError
| TypeError
| ValueError
| OverflowError
| NotImplementedError.

Inductive result (A : Type) : Type :=
| Ok (a : A)
| Err (e : error).
Arguments Ok {A} a.
Arguments Err {A} e.

Definition rbind {A B} (r : result A) (f : A -> result B) : result B :=
  match r with
  | Ok a => f a
  | Err e => Err e
  end.

(* ================================================================== *)
(** ** Shapes and multi-indices *)

Definition numel (s : list nat) : nat := fold_right Nat.mul 1%nat s.

(** All multi-indices of a shape, in row-major order. *)
Fixpoint all_indices (s : list nat) : list (list nat) :=
  match s with
  | [] => [[]]
  | d :: s' => flat_map (fun i => map (cons i) (all_indices s')) (seq 0 d)
  end.

(** Row-major position of a multi-index in a contiguous array of shape [s]. *)
Fixpoint ravel (s idx : list nat) : nat :=
  match s, idx with
  | _ :: s', i :: idx' => i * numel s' + ravel s' idx'
  | _, _ => 0
  end.

(** [s\[i\]] on a shape tuple: out of range is an [IndexError]. *)
Definition shape_at (s : list nat) (i : nat) : result nat :=
  match nth_error s i with
  | Some d => Ok d
  | None => Err IndexError
  end.

(** Python's [:k] on an axis of length [n]. *)
Definition slice_stop (n : nat) (k : Z) : nat :=
  if (k <? 0)%Z then Z.to_nat (Z.max (Z.of_nat n + k) 0)
  else Nat.min (Z.to_nat k) n.

Fixpoint set_nth {A} (i : nat) (x : A) (l : list A) : list A :=
  match l, i with
  | [], _ => []
  | _ :: l', O => x :: l'
  | y :: l', S i' => y :: set_nth i' x l'
  end.

Definition swap_nth {A} (d : A) (i j : nat) (l : list A) : list A :=
  set_nth i (nth j l d) (set_nth j (nth i l d) l).

(* ================================================================== *)
(** ** Arrays: a shape and the elements in row-major order *)

Record arr (A : Type) : Type := mkArr { shape : list nat; elems : list A }.
Arguments mkArr {A} shape elems.

Section ArrayViews.
Context {A : Type} (d : A).

Definition gather (s : list nat) (l : list A) (idxs : list (list nat)) : list A :=
map (fun idx => nth (ravel s idx) l d) idxs.

(** [a.T]: the axes reversed (the transpose of a matrix). *)
Definition transpose_arr (a : arr A) : arr A :=
let s' := rev (shape a) in
mkArr s' (gather (shape a) (elems a) (map (@rev nat) (all_indices s'))).

(** [a.transpose(i, j)]. *)
Definition transpose_dims (i j : nat) (a : arr A) : arr A :=
let s' := swap_nth 0%nat i j (shape a) in
mkArr s' (gather (shape a) (elems a) (map (swap_nth 0%nat i j) (all_indices s'))).

(** [a\[:k\]] along axis [ax] (axes before it taken whole). *)
Definition slice_axis (ax : nat) (k : Z) (a : arr A) : arr A :=
let s' := set_nth ax (slice_stop (nth ax (shape a) 0%nat) k) (shape a) in
mkArr s' (gather (shape a) (elems a) (all_indices s')).
End ArrayViews.

(** Target of [reshape]: sizes, with [-1] for the one inferred. *)
Definition count_infer (spec : list Z) : nat :=
  length (filter (fun z => (z =? -1)%Z) spec).

Definition known_size (spec : list Z) : nat :=
  fold_right (fun z acc => if (z =? -1)%Z then acc else (Z.to_nat z * acc)%nat) 1%nat spec.

(** torch's size inference for [reshape]/[view]. *)
Definition infer_size (n : nat) (spec : list Z) : result (list nat) :=
  if existsb (fun z => (z <? -1)%Z) spec then Err RuntimeError
  else
    let newsize := known_size spec in
    match count_infer spec with
    | O => if (n =? newsize)%nat then Ok (map Z.to_nat spec) else Err RuntimeError
    | S O =>
        if ((n =? newsize) || ((0 <? newsize) && (n mod newsize =? 0)))%nat then
          if (newsize =? 0)%nat then Err RuntimeError
          else Ok (map (fun z => if (z =? -1)%Z then (n / newsize)%nat else Z.to_nat z) spec)
        else Err RuntimeError
    | _ => Err RuntimeError
    end.

(* ================================================================== *)
(** ** Numeric kernels on values *)

Definition tval : Type := arr Q.

Definition qsum (l : list Q) : Q := fold_right Qplus 0 l.

Definition elem_at (a : tval) (idx : list nat) : Q :=
  nth (ravel (shape a) idx) (elems a) 0.

(** Broadcasting of two shapes, aligned on the trailing axes. *)
Fixpoint bshape_rev (a b : list nat) : option (list nat) :=
  match a, b with
  | [], _ => Some b
  | _, [] => Some a
  | x :: a', y :: b' =>
      match bshape_rev a' b' with
      | None => None
      | Some r =>
          if (x =? y)%nat then Some (x :: r)
          else if (x =? 1)%nat then Some (y :: r)
          else if (y =? 1)%nat then Some (x :: r)
          else None
      end
  end.

Definition broadcast_shapes (a b : list nat) : option (list nat) :=
  option_map (@rev nat) (bshape_rev (rev a) (rev b)).

Fixpoint clamp (s idx : list nat) : list nat :=
  match s, idx with
  | n :: s', i :: idx' => (if (n =? 1)%nat then 0%nat else i) :: clamp s' idx'
  | _, _ => []
  end.

(** The index of an operand of shape [s] read at the output index [idx]. *)
Definition bidx (s idx : list nat) : list nat :=
  clamp s (skipn (length idx - length s) idx).

Definition broadcast_elems (f : Q -> Q -> Q) (a b : tval) (s : list nat) : list Q :=
  map (fun idx => f (elem_at a (bidx (shape a) idx)) (elem_at b (bidx (shape b) idx)))
      (all_indices s).

(** [a op b], elementwise with broadcasting, as a new value. *)
Definition v_binop (f : Q -> Q -> Q) (a b : tval) : result tval :=
  match broadcast_shapes (shape a) (shape b) with
  | None => Err RuntimeError
  | Some s => Ok (mkArr s (broadcast_elems f a b s))
  end.

(** [a op= b]: the broadcast shape must be the shape of [a]. *)
Definition v_binop_inplace (f : Q -> Q -> Q) (a b : tval) : result (list Q) :=
  match broadcast_shapes (shape a) (shape b) with
  | None => Err RuntimeError
  | Some s =>
      if list_eq_dec Nat.eq_dec s (shape a) then Ok (broadcast_elems f a b s)
      else Err RuntimeError
  end.

(** [a @ b] for two matrices.  Operands that are not both 2-D are outside
    this model and are reported as a [RuntimeError]. *)
Definition v_matmul (a b : tval) : result tval :=
  match shape a, shape b with
  | [n; k], [k'; m] =>
      if (k =? k')%nat then
        Ok (mkArr [n; m]
              (flat_map (fun i =>
                 map (fun j =>
                   qsum (map (fun l => nth (i * k + l) (elems a) 0
                                       * nth (l * m + j) (elems b) 0)
                             (seq 0 k)))
                     (seq 0 m))
                 (seq 0 n)))
      else Err RuntimeError
  | _, _ => Err RuntimeError
  end.

(** [a.mean(dim=0)]. *)
Definition v_mean0 (a : tval) : result tval :=
  match shape a with
  | [] => Err IndexError
  | n :: rest =>
      Ok (mkArr rest
            (map (fun j =>
               qsum (map (fun i => nth (i * numel rest + j) (elems a) 0) (seq 0 n))
               / inject_Z (Z.of_nat n))
               (seq 0 (numel rest))))
  end.

(** [a.mean()] over all elements. *)
Definition v_mean (a : tval) : Q :=
  qsum (elems a) / inject_Z (Z.of_nat (length (elems a))).

(** [a.var()] over all elements, with Bessel's correction (torch's default). *)
Definition v_var (a : tval) : Q :=
  let m := v_mean a in
  qsum (map (fun x => (x - m) * (x - m)) (elems a))
  / inject_Z (Z.of_nat (length (elems a)) - 1).

(* ================================================================== *)
(** ** The store: tensors as views on shared storages *)

(** A storage is a buffer of scalars; the store holds every storage
    allocated so far, a location being a position in it. *)
Definition store : Type := list (list Q).

(** A tensor is a view: a storage and, for each element in row-major
    order, its position in that storage (what torch encodes with an offset
    and strides). *)
Record tensor : Type := mkTensor { storage : nat; view : arr nat }.

Definition tshape (t : tensor) : list nat := shape (view t).

(** The value a tensor currently denotes. *)
Definition load (st : store) (t : tensor) : tval :=
  mkArr (tshape t) (map (fun p => nth p (nth (storage t) st []) 0) (elems (view t))).

Definition scatter (idxs : list nat) (vals : list Q) (old : list Q) : list Q :=
  fold_left (fun acc pv => set_nth (fst pv) (snd pv) acc) (combine idxs vals) old.

(** Write the elements [vals] through the view [t]. *)
Definition write_view (t : tensor) (vals : list Q) (st : store) : store :=
  set_nth (storage t) (scatter (elems (view t)) vals (nth (storage t) st [])) st.

(** Computations that read and update the store and may raise. *)
Definition M (A : Type) : Type := store -> result A * store.

Definition ret {A} (a : A) : M A := fun st => (Ok a, st).
Definition raise {A} (e : error) : M A := fun st => (Err e, st).
Definition bind {A B} (m : M A) (f : A -> M B) : M B :=
  fun st =>
    match m st with
    | (Ok a, st') => f a st'
    | (Err e, st') => (Err e, st')
    end.
Definition lift {A} (r : result A) : M A := fun st => (r, st).

Declare Scope monad_scope.
Delimit Scope monad_scope with monad.
Notation "x <- m ;; k" := (bind m (fun x => k))
  (at level 61, m at next level, right associativity) : monad_scope.
Notation "' pat <- m ;; k" := (bind m (fun x => match x with pat => k end))
  (at level 61, pat pattern, m at next level, right associativity) : monad_scope.
Notation "m ;;; k" := (bind m (fun _ => k))
  (at level 61, right associativity) : monad_scope.
Open Scope monad_scope.

(** A new tensor owning a new, contiguous storage. *)
Definition fresh (v : tval) : M tensor :=
  fun st =>
    (Ok (mkTensor (length st) (mkArr (shape v) (seq 0 (length (elems v))))),
     st ++ [elems v]).

Definition get_value (t : tensor) : M tval := fun st => (Ok (load st t), st).

(** [t.detach()]: a new tensor object on the same storage. *)
Definition detach (t : tensor) : tensor := t.

(** [a op b] into a new tensor. *)
Definition t_binop (f : Q -> Q -> Q) (a b : tensor) : M tensor :=
  va <- get_value a ;; vb <- get_value b ;;
  v <- lift (v_binop f va vb) ;; fresh v.

(** [a op= b]: written through [a]'s view. *)
Definition t_inplace (f : Q -> Q -> Q) (a b : tensor) : M unit :=
  fun st =>
    match v_binop_inplace f (load st a) (load st b) with
    | Ok vals => (Ok tt, write_view a vals st)
    | Err e => (Err e, st)
    end.

Definition t_sub := t_binop Qminus.
Definition t_mul := t_binop Qmult.
Definition t_iadd := t_inplace Qplus.
Definition t_imul := t_inplace Qmult.

Definition t_matmul (a b : tensor) : M tensor :=
  va <- get_value a ;; vb <- get_value b ;;
  v <- lift (v_matmul va vb) ;; fresh v.

Definition t_mean0 (a : tensor) : M tensor :=
  va <- get_value a ;; v <- lift (v_mean0 va) ;; fresh v.

(** [t.T], a view. *)
Definition t_T (t : tensor) : tensor :=
  mkTensor (storage t) (transpose_arr 0%nat (view t)).

(** [t.transpose(i, j)], a view; an axis out of range is an [IndexError]. *)
Definition t_transpose (i j : nat) (t : tensor) : result tensor :=
  if ((i <? length (tshape t)) && (j <? length (tshape t)))%nat
  then Ok (mkTensor (storage t) (transpose_dims 0%nat i j (view t)))
  else Err IndexError.

(** [t\[:, ..., :k\]] with the slice on axis [ax], a view. *)
Definition t_slice (ax : nat) (k : Z) (t : tensor) : result tensor :=
  if (ax <? length (tshape t))%nat
  then Ok (mkTensor (storage t) (slice_axis 0%nat ax k (view t)))
  else Err IndexError.

(* ================================================================== *)
(** ** The libraries' numeric kernels *)

(** An [int] or a tuple of them (convolution parameters). *)
Inductive int_or_tuple : Type :=
| IntP (z : Z)
| TupleP (l : list Z).

Inductive pad_mode : Type := Zeros | Reflect | Replicate | Circular.

(** What the source takes from torch without this development defining
    it.  [reshape_views] says whether a [reshape] returns a view or a
    copy, which torch leaves unspecified. *)
Record torch_lib : Type := {
  lstsq_solution : tval -> tval -> tval;
  svd : tval -> result (tval * tval * tval);
  sqrt : Q -> Q;
  unfold : tval -> list nat -> int_or_tuple -> result tval;
  pad : tval -> int_or_tuple -> pad_mode -> result tval;
  reshape_views : tensor -> list nat -> bool
}.

(* ================================================================== *)
(** ** Python numbers *)

(** A Python [float] is an IEEE 754 binary64 value: a [spec_float] at
    precision 53, whose operations round to nearest, ties to even. *)
Definition prec : Z := 53.
Definition emax : Z := 1024.

(** The exact value of a finite float. *)
Definition float_Q (x : spec_float) : Q :=
  match x with
  | S754_finite s m e => inject_Z (cond_Zopp s (Zpos m)) * Qpower 2 e
  | _ => 0
  end.

(** [float(n)], which [x * n] applies to an [int] operand: the nearest
    double, and [OverflowError] when [n] is beyond the largest one. *)
Definition float_of_int (n : Z) : result spec_float :=
  match binary_normalize prec emax n 0 false with
  | S754_infinity _ => Err OverflowError
  | y => Ok y
  end.

Definition float_mul (x y : spec_float) : spec_float := SFmul prec emax x y.

(** [int(x)]: truncation toward zero; no integer for a NaN or an infinity. *)
Definition float_to_int (x : spec_float) : result Z :=
  match x with
  | S754_nan => Err ValueError
  | S754_infinity _ => Err OverflowError
  | S754_zero _ => Ok 0%Z
  | S754_finite s m e => Ok (cond_Zopp s (Z.shiftl (Zpos m) e))
  end.

(** A [float] against an [int]: Python compares the exact values, and a
    NaN compares as neither below, equal nor above. *)
Definition float_compare_int (x : spec_float) (n : Z) : option comparison :=
  match x with
  | S754_nan => None
  | S754_infinity s => Some (if s then Lt else Gt)
  | _ => Some (float_Q x ?= inject_Z n)
  end.

(** [rank]: a Python [int] or [float]. *)
Inductive number : Type :=
| RInt (z : Z)
| RFloat (x : spec_float).

Definition num_lt1 (r : number) : bool :=
  match r with
  | RInt z => (z <? 1)%Z
  | RFloat x =>
      match float_compare_int x 1 with
      | Some Lt => true
      | _ => false
      end
  end.

(** [r >= n] for a dimension [n]. *)
Definition num_ge (r : number) (n : nat) : bool :=
  match r with
  | RInt z => (Z.of_nat n <=? z)%Z
  | RFloat x =>
      match float_compare_int x (Z.of_nat n) with
      | Some Gt | Some Eq => true
      | _ => false
      end
  end.

(** [r * n] for a dimension [n]. *)
Definition num_mul (r : number) (n : nat) : result number :=
  match r with
  | RInt z => Ok (RInt (z * Z.of_nat n))
  | RFloat x => rbind (float_of_int (Z.of_nat n)) (fun y => Ok (RFloat (float_mul x y)))
  end.

(** Python's [int(x)]. *)
Definition py_int (r : number) : result Z :=
  match r with
  | RInt z => Ok z
  | RFloat x => float_to_int x
  end.

Module LowRankSolution.
Record t : Type := mk {
Wa : option tensor;
Wb : option tensor;
bias : option tensor;
rank : number;
nmse : Q
}.
(** The dataclass defaults.  [nmse] holds the value of the 0-dim tensor
  the source stores there. *)
Definition default : t := mk None None None (RInt (-1)) 0.
Definition set_Wa (r : t) (x : option tensor) : t := mk x (Wb r) (bias r) (rank r) (nmse r).
Definition set_Wb (r : t) (x : option tensor) : t := mk (Wa r) x (bias r) (rank r) (nmse r).
Definition set_bias (r : t) (x : option tensor) : t := mk (Wa r) (Wb r) x (rank r) (nmse r).
Definition set_rank (r : t) (x : number) : t := mk (Wa r) (Wb r) (bias r) x (nmse r).
Definition set_nmse (r : t) (x : Q) : t := mk (Wa r) (Wb r) (bias r) (rank r) x.
End LowRankSolution.

Definition sentinel : number := RInt (-1).

(* ================================================================== *)
(** ** factorize_core.py *)

Section Program.
Variable T : torch_lib.

(** [t.reshape(spec)]: a view on the same storage or a copy into a new
  one, as [reshape_views] decides. *)
Definition t_reshape (t : tensor) (spec : list Z) : M tensor :=
s <- lift (infer_size (numel (tshape t)) spec) ;;
if reshape_views T t s then ret (mkTensor (storage t) (mkArr s (elems (view t))))
else v <- get_value t ;; fresh (mkArr s (elems v)).

Definition t_sqrt (t : tensor) : M tensor :=
v <- get_value t ;; fresh (mkArr (shape v) (map (sqrt T) (elems v))).

(** [torch.linalg.svd(W, full_matrices=False)]: three new tensors. *)
Definition t_svd (W : tensor) : M (tensor * tensor * tensor) :=
v <- get_value W ;;
'(vU, vs, vVt) <- lift (svd T v) ;;
U <- fresh vU ;; s <- fresh vs ;; Vt <- fresh vVt ;;
ret (U, s, Vt).

Definition t_unfold (a : tensor) (kernel_size : list nat) (padding : int_or_tuple)
: M tensor :=
v <- get_value a ;; r <- lift (unfold T v kernel_size padding) ;; fresh r.

Definition t_pad (a : tensor) (padding : int_or_tuple) (mode : pad_mode) : M tensor :=
v <- get_value a ;; r <- lift (pad T v padding mode) ;; fresh r.

Definition _lstsq (A B : tensor) : M tensor :=
a0 <- lift (shape_at (tshape A) 0) ;;
b0 <- lift (shape_at (tshape B) 0) ;;
if negb (a0 =? b0)%nat then raise IndexError
else if negb (length (tshape A) =? 2)%nat then raise IndexError
else if negb (length (tshape B) =? 2)%nat then raise IndexError
else
  va <- get_value A ;; vb <- get_value B ;;
  fresh (lstsq_solution T va vb).

Definition _nmse (Y Y_hat : tensor) : M Q :=
diffs <- t_sub Y Y_hat ;;
sq <- t_mul diffs diffs ;;
vsq <- get_value sq ;;
vY <- get_value Y ;;
ret (v_mean vsq / v_var vY).

(** A slice bound must be an [int]. *)
Definition as_index (k : number) : result Z :=
match k with
| RInt z => Ok z
| RFloat _ => Err TypeError
end.

Definition _svd_initialize (Wa : tensor) (Wb : option tensor) (k : number)
: M (tensor * tensor) :=
W <- match Wb with
     | None => ret Wa
     | Some Wb => t_matmul Wa Wb
     end ;;
'(U, s, Vt) <- t_svd W ;;
kz <- lift (as_index k) ;;
Wa <- lift (t_slice 1 kz U) ;;
Wb <- lift (t_slice 0 kz Vt) ;;
sk <- lift (t_slice 0 kz s) ;;
s_sqrt <- t_sqrt sk ;;
t_imul Wa s_sqrt ;;;
col <- t_reshape s_sqrt [(-1)%Z; 1%Z] ;;
t_imul Wb col ;;;
ret (Wa, Wb).

(** The body of [for _ in range(n_iters)], [n] sweeps. *)
Fixpoint als_sweeps (n : nat) (X Y Ya Wa Wb : tensor) : M (tensor * tensor) :=
match n with
| O => ret (Wa, Wb)
| S n' =>
    Xb <- t_matmul X Wa ;;
    let Yb := Y in
    Wb <- _lstsq Xb Yb ;;
    let Xa := Wb in
    Wa_T <- _lstsq (t_T Xa) (t_T Ya) ;;
    let Wa := t_T Wa_T in
    als_sweeps n' X Y Ya Wa Wb
end.

(** [rank] resolved to [k]: [min(int(rank * X.shape[1]), Wa.shape[1])]
  when [rank < 1], the arguments of [min] evaluated from the left. *)
Definition resolve_rank (X Wa : tensor) (rank : number) : result number :=
if num_lt1 rank then
  rbind (shape_at (tshape X) 1) (fun D =>
  rbind (num_mul rank D) (fun p =>
  rbind (py_int p) (fun t =>
  rbind (shape_at (tshape Wa) 1) (fun d =>
  Ok (RInt (Z.min t (Z.of_nat d)))))))
else Ok rank.

Import LowRankSolution.

Definition factorize_matrix (X Y Wa : tensor) (Wb bias : option tensor)
(rank : number) (n_iters : Z) : M LowRankSolution.t :=
let X := detach X in
let Y := detach Y in
let Wa := detach Wa in
let Wb := option_map detach Wb in
k <- lift (resolve_rank X Wa rank) ;;
let ret0 := default in
'(original_bias, Y, ret1) <-
  match bias with
  | Some bias =>
      let original_bias := detach bias in
      Y <- t_sub Y original_bias ;;
      ret (Some original_bias, Y, set_bias ret0 (Some original_bias))
  | None => ret (None, Y, ret0)
  end ;;
D <- lift (shape_at (tshape X) 1) ;;
degenerate <- (if num_ge k D then ret true
               else Mo <- lift (shape_at (tshape Y) 1) ;; ret (num_ge k Mo)) ;;
if degenerate : bool then
  Wa <- _lstsq X Y ;;
  ret (set_rank (set_Wa ret1 (Some Wa)) sentinel)
else
  d <- lift (shape_at (tshape Wa) 1) ;;
  if num_ge k d then
    ret (set_rank (set_Wb (set_Wa ret1 (Some Wa)) Wb) sentinel)
  else
    '(Wa, Wb) <- _svd_initialize Wa Wb k ;;
    Ya <- _lstsq X Y ;;
    '(Wa, Wb) <- als_sweeps (Z.to_nat n_iters) X Y Ya Wa Wb ;;
    let ret2 := set_rank (set_Wb (set_Wa ret1 (Some Wa)) (Some Wb)) k in
    XWa <- t_matmul X Wa ;;
    Y_hat <- t_matmul XWa Wb ;;
    resid <- t_sub Y Y_hat ;;
    bias <- t_mean0 resid ;;
    match original_bias with
    | Some original_bias => t_iadd bias original_bias
    | None => ret tt
    end ;;;
    let ret3 := set_bias ret2 (Some bias) in
    t_iadd Y_hat bias ;;;
    e <- _nmse Y Y_hat ;;
    ret (set_nmse ret3 e).

(** [**conv2d_kwargs], with the defaults of [_activations_conv2d_to_mat]. *)
Record conv2d_kwargs : Type := {
padding : int_or_tuple;
padding_mode : pad_mode;
stride : int_or_tuple;
dilation : int_or_tuple;
groups : Z
}.

Definition default_kwargs : conv2d_kwargs :=
{| padding := IntP 0; padding_mode := Zeros; stride := IntP 1;
   dilation := IntP 1; groups := 1 |}.

(** [np.max]: undefined ([ValueError]) on an empty tuple. *)
Definition np_max (p : int_or_tuple) : result Z :=
match p with
| IntP z => Ok z
| TupleP [] => Err ValueError
| TupleP (z :: l) => Ok (fold_left Z.max l z)
end.

Definition is_zeros (m : pad_mode) : bool :=
match m with Zeros => true | _ => false end.

Definition _activations_conv2d_to_mat (activations : tensor) (kernel_size : list nat)
(kw : conv2d_kwargs) : M tensor :=
ms <- lift (np_max (stride kw)) ;;
if (ms >? 1)%Z then raise NotImplementedError else
md <- lift (np_max (dilation kw)) ;;
if (md >? 1)%Z then raise NotImplementedError else
if negb (groups kw =? 1)%Z then raise NotImplementedError else
mp <- lift (np_max (padding kw)) ;;
'(activations, padding) <-
  (if ((mp >? 0)%Z && negb (is_zeros (padding_mode kw)))%bool then
     a <- t_pad activations (padding kw) (padding_mode kw) ;;
     ret (a, IntP 0)
   else ret (activations, padding kw)) ;;
r <- t_unfold activations kernel_size padding ;;
r <- lift (t_transpose 1 2 r) ;;
fan_in <- lift (shape_at (tshape r) 2) ;;
t_reshape r [(-1)%Z; Z.of_nat fan_in].

Definition _weights_conv2d_to_mat (weights : tensor) : M tensor :=
o <- lift (shape_at (tshape weights) 0) ;;
r <- t_reshape weights [Z.of_nat o; (-1)%Z] ;;
ret (t_T r).

Definition _mat_to_weights_conv2d (mat : option tensor) (kernel_size : list nat)
: M (option tensor) :=
match mat with
| None => ret None
| Some mat =>
    let w := t_T mat in
    o <- lift (shape_at (tshape w) 0) ;;
    r <- t_reshape w (Z.of_nat o :: (-1)%Z :: map Z.of_nat kernel_size) ;;
    ret (Some r)
end.

Definition factorize_conv2d (inputs Wa : tensor) (Wb : option tensor)
(rank : number) (biasA biasB : option tensor) (n_iters : Z)
(kw : conv2d_kwargs) : M LowRankSolution.t :=
let inputs := detach inputs in
let Wa := detach Wa in
let kernel_size := skipn 2 (tshape Wa) in
X_mat <- _activations_conv2d_to_mat inputs kernel_size kw ;;
Wa <- _weights_conv2d_to_mat Wa ;;
Y_mat <- t_matmul X_mat Wa ;;
match biasA with
| Some biasA => let biasA := detach biasA in t_iadd Y_mat biasA
| None => ret tt
end ;;;
'(Wb, Y_mat) <-
  match Wb with
  | Some Wb =>
      let Wb := detach Wb in
      Wb <- _weights_conv2d_to_mat Wb ;;
      Y_mat <- t_matmul Y_mat Wb ;;
      match biasB with
      | Some biasB => let biasB := detach biasB in t_iadd Y_mat biasB
      | None => ret tt
      end ;;;
      ret (Some Wb, Y_mat)
  | None =>
      match biasB with
      | Some _ => raise RuntimeError
      | None => ret (None, Y_mat)
      end
  end ;;
r <- factorize_matrix X_mat Y_mat Wa Wb None rank n_iters ;;
a <- _mat_to_weights_conv2d (LowRankSolution.Wa r) kernel_size ;;
let r := set_Wa r a in
b <- _mat_to_weights_conv2d (LowRankSolution.Wb r) [1%nat; 1%nat] ;;
ret (set_Wb r b).

End Program.

(* ================================================================== *)
(** ** Reference kernels, for running the program on examples *)

Module Reference.

(** Exact on squares of rationals in lowest terms (0, 1, 4, 1/4, ...). *)
Definition sqrt_exact (q : Q) : Q :=
Qmake (Z.sqrt (Qnum q)) (Z.to_pos (Z.sqrt (Zpos (Qden q)))).

Definition identity (n m : nat) : tval :=
mkArr [n; m]
  (flat_map (fun i => map (fun j => if (i =? j)%nat then 1 else 0) (seq 0 m))
            (seq 0 n)).

(** The reduced SVD [I . diag(s) . I] that a matrix [W] of shape [m, n]
  has when it is diagonal with entries that are non-negative and
  non-increasing down the diagonal. *)
Definition svd_diag (W : tval) : result (tval * tval * tval) :=
match shape W with
| [m; n] =>
    let r := Nat.min m n in
    Ok (identity m r,
        mkArr [r] (map (fun i => Qred (nth (i * n + i) (elems W) 0)) (seq 0 r)),
        identity r n)
| _ => Err RuntimeError
end.

(** The least-squares solution [diag(1/|a_j|^2) . A^T . B] that [A] has
  when its columns are non-zero and mutually orthogonal. *)
Definition lstsq_orth (A B : tval) : tval :=
match shape A, shape B with
| [n; k], [_; m] =>
    mkArr [k; m]
      (flat_map (fun j =>
         let nrm := qsum (map (fun i => nth (i * k + j) (elems A) 0
                                        * nth (i * k + j) (elems A) 0) (seq 0 n)) in
         map (fun c =>
           Qred (qsum (map (fun i => nth (i * k + j) (elems A) 0
                                     * nth (i * m + c) (elems B) 0) (seq 0 n))
                 / nrm))
             (seq 0 m))
         (seq 0 k))
| _, _ => mkArr [] []
end.

(** No patch extraction or padding: the examples do not reach them. *)
Definition lib : torch_lib := {|
lstsq_solution := lstsq_orth;
svd := svd_diag;
sqrt := sqrt_exact;
unfold := fun _ _ _ => Err RuntimeError;
pad := fun _ _ _ => Err RuntimeError;
reshape_views := fun _ _ => true
|}.

(** A contiguous tensor on storage [l]. *)
Definition contiguous (l : nat) (s : list nat) : tensor :=
mkTensor l (mkArr s (seq 0 (numel s))).

End Reference.

(* ================================================================== *)
(** ** Notions used to state the properties *)

Definition allocated (st : store) (t : tensor) : Prop := (storage t < length st)%nat.

Definition allocated_opt (st : store) (t : option tensor) : Prop :=
  match t with
  | Some t => allocated st t
  | None => True
  end.

(** The regression target: [Y], less the bias when one is given. *)
Definition target_value (st : store) (Y : tensor) (bias : option tensor) : result tval :=
  match bias with
  | None => Ok (load st Y)
  | Some b => v_binop Qminus (load st Y) (load st b)
  end.

(** A bias is a vector with one entry per column of [Y]. *)
Definition bias_fits (bias : option tensor) (Mo : nat) : Prop :=
  match bias with
  | None => True
  | Some b => tshape b = [Mo]
  end.

(** *** [factorize_matrix] in four pieces *)

(** The statements up to the first branch: [Y] rebound to the target and
    the bias recorded in the result. *)
Definition prologue (Y : tensor) (bias : option tensor)
  : M (option tensor * tensor * LowRankSolution.t) :=
  match bias with
  | Some bias =>
      let original_bias := detach bias in
      Y <- t_sub Y original_bias ;;
      ret (Some original_bias, Y,
           LowRankSolution.set_bias LowRankSolution.default (Some original_bias))
  | None => ret (None, Y, LowRankSolution.default)
  end.

Section Pieces.
Variable T : torch_lib.
Import LowRankSolution.

(** The statements after the last sweep. *)
Definition epilogue (X Y : tensor) (original_bias : option tensor)
(ret1 : LowRankSolution.t) (k : number) (Wa Wb : tensor) : M LowRankSolution.t :=
let ret2 := set_rank (set_Wb (set_Wa ret1 (Some Wa)) (Some Wb)) k in
XWa <- t_matmul X Wa ;;
Y_hat <- t_matmul XWa Wb ;;
resid <- t_sub Y Y_hat ;;
bias <- t_mean0 resid ;;
match original_bias with
| Some original_bias => t_iadd bias original_bias
| None => ret tt
end ;;;
let ret3 := set_bias ret2 (Some bias) in
t_iadd Y_hat bias ;;;
e <- _nmse Y Y_hat ;;
ret (set_nmse ret3 e).

(** The iterative path. *)
Definition iterative (X Y Wa : tensor) (Wb original_bias : option tensor)
(ret1 : LowRankSolution.t) (k : number) (n_iters : Z) : M LowRankSolution.t :=
'(Wa, Wb) <- _svd_initialize T Wa Wb k ;;
Ya <- _lstsq T X Y ;;
'(Wa, Wb) <- als_sweeps T (Z.to_nat n_iters) X Y Ya Wa Wb ;;
epilogue X Y original_bias ret1 k Wa Wb.

(** The branches on [k]. *)
Definition branches (X Y Wa : tensor) (Wb original_bias : option tensor)
(ret1 : LowRankSolution.t) (k : number) (n_iters : Z) : M LowRankSolution.t :=
D <- lift (shape_at (tshape X) 1) ;;
degenerate <- (if num_ge k D then ret true
               else Mo <- lift (shape_at (tshape Y) 1) ;; ret (num_ge k Mo)) ;;
if degenerate : bool then
  Wa <- _lstsq T X Y ;;
  ret (set_rank (set_Wa ret1 (Some Wa)) sentinel)
else
  d <- lift (shape_at (tshape Wa) 1) ;;
  if num_ge k d then
    ret (set_rank (set_Wb (set_Wa ret1 (Some Wa)) Wb) sentinel)
  else iterative X Y Wa Wb original_bias ret1 k n_iters.

End Pieces.

(** *** Numbers *)

(** What Python can hold in [rank]: any [int], and the [float]s, which are
    the doubles. *)
Definition is_python_number (r : number) : Prop :=
  match r with
  | RInt _ => True
  | RFloat x => valid_binary prec emax x = true
  end.

(** The last steps of [binary_round_aux]: the rounded mantissa brought back
    to 53 bits and the overflow test. *)
Definition round_finish (m e : Z) : spec_float :=
  let '(mrs, e') := shr_fexp prec emax m e loc_Exact in
  match shr_m mrs with
  | Z0 => S754_zero false
  | Zpos m' => if (e' <=? emax - prec)%Z then S754_finite false m' e' else S754_infinity false
  | _ => S754_nan
  end.

(** *** Rank resolution, as the documentation words it *)

Definition num_Q (r : number) : Q :=
  match r with
  | RInt z => inject_Z z
  | RFloat x => float_Q x
  end.

(** Truncation toward zero. *)
Definition truncate (q : Q) : Z :=
  if Qle_bool 0 q then Qfloor q else Qceiling q.

(** [floor(fraction * min(D, current_rank))]. *)
Definition fraction_of_min (fraction : Q) (D d : nat) : Z :=
  Qfloor (fraction * inject_Z (Z.of_nat (Nat.min D d))).

(** *** Convolution parameters *)


(** *** Shapes the least-squares solve rejects *)

Definition shape_mismatch (sx sy : list nat) : Prop :=
  length sx <> 2%nat \/ length sy <> 2%nat \/ nth 0 sx 0%nat <> nth 0 sy 0%nat.

(** ** Example calls *)

Module Examples.
Import Reference.

(** [X] is the 2x2 identity, [Y = X @ W + bias] for [W = diag(1, 0)] and
  [bias = (1, 1)]. *)
Definition st_bias : store :=
[ [1; 0; 0; 1]; [2; 1; 1; 1]; [1; 0; 0; 0]; [1; 1] ].
Definition X2 : tensor := contiguous 0 [2; 2]%nat.
Definition Y2 : tensor := contiguous 1 [2; 2]%nat.
Definition W2 : tensor := contiguous 2 [2; 2]%nat.
Definition b2 : tensor := contiguous 3 [2]%nat.

(** A 3x3 operator already factorized at rank 1, with two samples. *)
Definition st_pair : store :=
[ [1; 0; 0; 0; 1; 0]; [1; 0; 0; 0; 0; 0]; [1; 0; 0]; [1; 0; 0] ].
Definition X23 : tensor := contiguous 0 [2; 3]%nat.
Definition Y23 : tensor := contiguous 1 [2; 3]%nat.
Definition Wa31 : tensor := contiguous 2 [3; 1]%nat.
Definition Wb13 : tensor := contiguous 3 [1; 3]%nat.

(** The same pair, with five rows of [Y] against the two of [X]. *)
Definition st_rows : store :=
[ [1; 0; 0; 0; 1; 0];
  [1; 0; 0; 0; 0; 0; 0; 0; 0; 0; 0; 0; 0; 0; 0];
  [1; 0; 0]; [1; 0; 0] ].

(** Eight input features and a factor of three columns. *)
Definition X28 : tensor := contiguous 0 [2; 8]%nat.
Definition Wa83 : tensor := contiguous 1 [8; 3]%nat.

(** The doubles 0.25, 0.5, 1.0, 4.0 and 7.0. *)
Definition quarter : spec_float := S754_finite false 4503599627370496 (-54).
Definition half : spec_float := S754_finite false 4503599627370496 (-53).
Definition one : spec_float := S754_finite false 4503599627370496 (-52).
Definition four : spec_float := S754_finite false 4503599627370496 (-50).
Definition seven : spec_float := S754_finite false 7881299347898368 (-50).

(** The doubles nearest to 0.58 and to 0.7 (what Python reads the literals
  as), and the double just below 29. *)
Definition f058 : spec_float := S754_finite false 5224175567749775 (-53).
Definition f07 : spec_float := S754_finite false 6305039478318694 (-53).
Definition f29m : spec_float := S754_finite false 8162774324609023 (-48).

(** One sample of fifty features, and a square operator on them. *)
Definition X1_50 : tensor := contiguous 0 [1; 50]%nat.
Definition W50 : tensor := contiguous 1 [50; 50]%nat.
End Examples.


(** *** The error of a solution, as the documentation words it *)

(** [X @ Wa @ Wb + bias]. *)
Definition approximation (vX vWa vWb vbias : tval) : result tval :=
  rbind (v_matmul vX vWa) (fun h =>
  rbind (v_matmul h vWb) (fun h' => v_binop Qplus h' vbias)).

(** Mean squared residual over the variance of the reference. *)
Definition v_nmse (vY vY_hat : tval) : result Q :=
  rbind (v_binop Qminus vY vY_hat) (fun diffs =>
  rbind (v_binop Qmult diffs diffs) (fun sq => Ok (v_mean sq / v_var vY))).

(** The error of the returned factors and bias against the [Y] the caller
    supplied ([st] is the store of the call, [st'] the one it left). *)
Definition nmse_against (st st' : store) (X Y : tensor) (r : LowRankSolution.t)
  : result Q :=
  match LowRankSolution.Wa r, LowRankSolution.Wb r, LowRankSolution.bias r with
  | Some wa, Some wb, Some b =>
      rbind (approximation (load st X) (load st' wa) (load st' wb) (load st' b))
            (fun Y_hat => v_nmse (load st Y) Y_hat)
  | _, _, _ => Err ValueError
  end.

Module KernelExample.
(** A weight tensor with two output channels, two input channels and a
  1x2 kernel. *)
Definition st_kernel : store := [ [1; 2; 3; 4; 5; 6; 7; 8] ].
Definition K : tensor := Reference.contiguous 0 [2; 2; 1; 2]%nat.
End KernelExample.


(** *** What a computation does to the store *)

(** From [st] to [st'] the store did not shrink and the storages below
    [n] kept their contents. *)
Definition grows (n : nat) (st st' : store) : Prop :=
  (length st <= length st')%nat
  /\ forall l, (l < n)%nat -> nth l st' [] = nth l st [].

(** A tensor on a storage allocated at or after position [n]. *)
Definition owned (n : nat) (st : store) (t : tensor) : Prop :=
  (n <= storage t < length st)%nat.

(** A tensor on a storage allocated at or after [n], or on one of the
    storages [L]. *)
Definition origin (n : nat) (L : list nat) (st : store) (t : tensor) : Prop :=
  owned n st t \/ In (storage t) L.

Definition origin_opt (n : nat) (L : list nat) (st : store) (t : option tensor) : Prop :=
  match t with
  | Some t => origin n L st t
  | None => True
  end.

(** Run from a store that has at least [n] storages and satisfies [P],
    [m] leaves the storages below [n] alone and, when it returns [a], leaves a
    store that satisfies [Q a]. *)
Definition hoare {A} (n : nat) (P : store -> Prop) (m : M A)
  (Q : A -> store -> Prop) : Prop :=
  forall st, (n <= length st)%nat -> P st ->
    grows n st (snd (m st))
    /\ match fst (m st) with
       | Ok a => Q a (snd (m st))
       | Err _ => True
       end.

(** Assertions that only depend on how many storages there are. *)
Definition mono (P : store -> Prop) : Prop :=
  forall st st', (length st <= length st')%nat -> P st -> P st'.

(** Computations that allocate one tensor or raise. *)
Definition allocating (m : M tensor) : Prop :=
  forall st, (exists v, m st = fresh v st) \/ (exists e, m st = (Err e, st)).

(** The storages of the tensors supplied. *)
Definition storages (l : list (option tensor)) : list nat :=
  flat_map (fun o => match o with Some t => [storage t] | None => [] end) l.

(** The tensors of a solution. *)
Definition tensors (r : LowRankSolution.t) : list (option tensor) :=
  [LowRankSolution.Wa r; LowRankSolution.Wb r; LowRankSolution.bias r].


(** What the iterative path returns: the rank asked for, and three
    tensors on storages of its own. *)
Definition iterative_post (n : nat) (P : store -> Prop) (k : number)
  (r : LowRankSolution.t) (st : store) : Prop :=
  P st /\ exists wa wb b e,
    r = LowRankSolution.mk (Some wa) (Some wb) (Some b) k e
    /\ owned n st wa /\ owned n st wb /\ owned n st b.

(** From where the tensors of a solution come: storages of the call's own,
    or the storages [L]. *)
Definition solution_post (n : nat) (P : store -> Prop) (L : list nat)
  (r : LowRankSolution.t) (st : store) : Prop :=
  P st /\ Forall (origin_opt n L st) (tensors r).

(** The tensor [fresh v] returns when run from [st]. *)
Definition fresh_tensor (st : store) (v : tval) : tensor :=
  mkTensor (length st) (mkArr (shape v) (seq 0 (length (elems v)))).


(** What the statements after the last sweep return: the factors they were
    given, the rank asked for, and a bias on a storage of their own. *)
Definition epilogue_post (n : nat) (P : store -> Prop) (k : number) (Wa Wb : tensor)
  (r : LowRankSolution.t) (st : store) : Prop :=
  P st /\ exists b e,
    r = LowRankSolution.mk (Some Wa) (Some Wb) (Some b) k e /\ owned n st b.

(** The operator to factorize: [Wa], or [Wa @ Wb] when it comes as a pair. *)
Definition operator_value (st : store) (Wa : tensor) (Wb : option tensor)
  : result tval :=
  match Wb with
  | None => Ok (load st Wa)
  | Some Wb => v_matmul (load st Wa) (load st Wb)
  end.

(** *** [factorize_conv2d], its first statements *)

(** The statements of [factorize_conv2d] up to the test on [Wb]: the
    activations and the weights as matrices, and the output [X_mat @ Wa] with
    [biasA] added in place. *)
Definition conv2d_operands (T : torch_lib) (inputs Wa : tensor) (biasA : option tensor)
  (kw : conv2d_kwargs) : M (tensor * tensor * tensor) :=
  let inputs := detach inputs in
  let Wa := detach Wa in
  let kernel_size := skipn 2 (tshape Wa) in
  X_mat <- _activations_conv2d_to_mat T inputs kernel_size kw ;;
  Wa <- _weights_conv2d_to_mat T Wa ;;
  Y_mat <- t_matmul X_mat Wa ;;
  match biasA with
  | Some biasA => let biasA := detach biasA in t_iadd Y_mat biasA
  | None => ret tt
  end ;;;
  ret (X_mat, Wa, Y_mat).

(** A stride or a dilation that the guards of
    [_activations_conv2d_to_mat] let through. *)
Definition passes_guard (p : int_or_tuple) : Prop :=
  exists m, np_max p = Ok m /\ (m <= 1)%Z.

(** The same keyword arguments, with stride and dilation 1. *)
Definition with_unit_steps (kw : conv2d_kwargs) : conv2d_kwargs :=
  {| padding := padding kw; padding_mode := padding_mode kw;
     stride := IntP 1; dilation := IntP 1; groups := groups kw |}.

(** The patches [F.unfold] is asked for: of the activations padded by
    [F.pad] when the padding is not by zeros, of the activations themselves
    (with the padding left to [F.unfold]) otherwise. *)
Definition unfolded_patches (T : torch_lib) (v : tval) (kernel_size : list nat)
  (kw : conv2d_kwargs) : result tval :=
  rbind (np_max (padding kw)) (fun mp =>
  if ((mp >? 0)%Z && negb (is_zeros (padding_mode kw)))%bool
  then rbind (pad T v (padding kw) (padding_mode kw))
             (fun v' => unfold T v' kernel_size (IntP 0))
  else unfold T v kernel_size (padding kw)).

(** [F.unfold] for a 1x1 kernel without padding: the pixels of each image,
    channel by channel. *)
Module Pointwise.
Definition unfold_1x1 (v : tval) (kernel_size : list nat) (padding : int_or_tuple)
  : result tval :=
match shape v, kernel_size, padding with
| [B; C; H; W], [1%nat; 1%nat], IntP 0 => Ok (mkArr [B; C; (H * W)%nat] (elems v))
| _, _, _ => Err RuntimeError
end.

Definition lib : torch_lib := {|
lstsq_solution := Reference.lstsq_orth;
svd := Reference.svd_diag;
sqrt := Reference.sqrt_exact;
unfold := unfold_1x1;
pad := fun _ _ _ => Err RuntimeError;
reshape_views := fun _ _ => false
|}.

(** Two images of two channels and 1x2 pixels. *)
Definition st_images : store := [ [1; 2; 3; 4; 5; 6; 7; 8] ].
Definition images : tensor := Reference.contiguous 0 [2; 2; 1; 2]%nat.
End Pointwise.

(** *** What is assumed of the shapes the kernels return *)

(** [torch.linalg.lstsq(A, B).solution] for [A] of shape [n, p] and [B] of
    shape [n, q] has shape [p, q]. *)
Definition lstsq_shaped (T : torch_lib) : Prop :=
  forall A B n p q,
    shape A = [n; p] -> shape B = [n; q] -> shape (lstsq_solution T A B) = [p; q].

(** [torch.linalg.svd(W, full_matrices=False)] for [W] of shape [m, n]
    returns [U], [s], [Vt] of shapes [m, r], [r] and [r, n], for
    [r = min(m, n)]. *)
Definition svd_shaped (T : torch_lib) : Prop :=
  forall W m n U s Vt,
    shape W = [m; n] -> svd T W = Ok (U, s, Vt) ->
    shape U = [m; Nat.min m n] /\ shape s = [Nat.min m n]
    /\ shape Vt = [Nat.min m n; n].

(** The operator to factorize maps [D] inputs to [Mo] outputs: [Wa] of
    shape [D, Mo] alone, or [Wa] of shape [D, d] with [Wb] of shape [d, Mo]. *)
Definition operator_fits (Wa : tensor) (Wb : option tensor) (D d Mo : nat) : Prop :=
  tshape Wa = [D; d]
  /\ match Wb with
     | None => d = Mo
     | Some Wb => tshape Wb = [d; Mo]
     end.

(** The bias of a solution of [factorize_conv2d]: none, with the sentinel
    rank and no error measured, or a tensor on a storage allocated at or
    after [n]. *)
Definition conv_bias_post (n : nat) (r : LowRankSolution.t) (st : store) : Prop :=
  (LowRankSolution.rank r = sentinel /\ LowRankSolution.bias r = None
   /\ LowRankSolution.nmse r = 0)
  \/ (exists b, LowRankSolution.bias r = Some b /\ owned n st b).

(** A pointwise convolution [diag(1, 0)] of two channels, and two images of
    1x2 pixels whose patches are the rows [(1, 0)], [(0, 1)], [(0, 0)],
    [(0, 0)]. *)
Module ConvExample.
Definition st_conv : store := [ [1; 0; 0; 1; 0; 0; 0; 0]; [1; 0; 0; 0] ].
Definition frames : tensor := Reference.contiguous 0 [2; 2; 1; 2]%nat.
Definition kernel : tensor := Reference.contiguous 1 [2; 2; 1; 1]%nat.

(** The same images, and a convolution already factorized at rank 1: a
  pointwise [Wa] from two channels to one, then a pointwise [Wb] from one
  channel to two. *)
Definition st_factored : store := [ [1; 0; 0; 1; 0; 0; 0; 0]; [1; 0]; [1; 0] ].
Definition first : tensor := Reference.contiguous 1 [1; 2; 1; 1]%nat.
Definition second : tensor := Reference.contiguous 2 [2; 1; 1; 1]%nat.
End ConvExample.

(** The convolution to factorize has [i] input channels, a [kh x kw] kernel
    and [Mo] output channels: [Wa] of shape [Mo, i, kh, kw] alone, or [Wa] of
    shape [d, i, kh, kw] followed by a pointwise [Wb] of shape [Mo, d, 1, 1]. *)
Definition conv_fits (Wa : tensor) (Wb : option tensor) (i kh kw d Mo : nat) : Prop :=
  tshape Wa = [d; i; kh; kw]
  /\ match Wb with
     | None => d = Mo
     | Some Wb => tshape Wb = [Mo; d; 1%nat; 1%nat]
     end.

(* ================================================================== *)
(** ** cifar100.py (scripts/webdatasets)

    The two functions of the conversion script that compute: [shuffle] and
    the generator [each_sample].  Images and classes are the rows of the
    numpy arrays; the permutation that [np.random.permutation] draws is an
    argument. *)

Module Cifar100.

(** The values of a sample dict. *)
Inductive value (A B : Type) : Type :=
| VStr (s : String.string)
| VImg (img : A)
| VCls (cls : B).
Arguments VStr {A B} s.
Arguments VImg {A B} img.
Arguments VCls {A B} cls.

(** A dict with string keys, in insertion order. *)
Definition dict (A B : Type) : Type := list (String.string * value A B).

Definition lookup {A B} (k : String.string) (d : dict A B) : option (value A B) :=
match find (fun kv => String.eqb (fst kv) k) d with
| Some kv => Some (snd kv)
| None => None
end.

Fixpoint zeros (n : nat) : String.string :=
match n with
| O => ""%string
| S n' => String.String "0"%char (zeros n')
end.

(** [f'{idx:05d}']: the decimal digits of [idx], padded with zeros on the
  left to five characters. *)
Definition format_05d (idx : nat) : String.string :=
let digits := DecimalString.NilEmpty.string_of_uint (Nat.to_uint idx) in
String.append (zeros (5 - String.length digits)) digits.

(** The dicts [each_sample] yields, in order; [idx] is the counter of
  [enumerate], and [zip] stops at the shorter of the two arrays. *)
Fixpoint each_sample_from {A B} (idx : nat) (images : list A) (classes : list B)
: list (dict A B) :=
match images, classes with
| img :: images', cls :: classes' =>
    [ ("__key__"%string, VStr (format_05d idx));
      ("jpg"%string, VImg img);
      ("cls"%string, VCls cls) ]
    :: each_sample_from (S idx) images' classes'
| _, _ => []
end.

Definition each_sample {A B} (images : list A) (classes : list B) : list (dict A B) :=
each_sample_from 0 images classes.

(** A dataset: its images, its targets and what [len] returns on it. *)
Record dataset (A B : Type) : Type := {
data : list A;
targets : list B;
len : nat
}.

(** [a\[indices\]] for an array of non-negative indices: an index out of
  range is an [IndexError]. *)
Fixpoint take {A} (a : list A) (indices : list nat) : result (list A) :=
match indices with
| [] => Ok []
| i :: rest =>
    match nth_error a i with
    | Some x => rbind (take a rest) (fun l => Ok (x :: l))
    | None => Err IndexError
    end
end.

(** [shuffle], when [np.random.permutation(len(dataset))] is [indices]. *)
Definition shuffle {A B} (indices : list nat) (ds : dataset A B)
: result (list A * list B) :=
rbind (take (data ds) indices) (fun images =>
rbind (take (targets ds) indices) (fun classes =>
Ok (images, classes))).

(** What a sample dict holds. *)
Definition sample_key {A B} (d : dict A B) : option String.string :=
match lookup "__key__"%string d with
| Some (VStr s) => Some s
| _ => None
end.

Definition sample_pair {A B} (d : dict A B) : option (A * B) :=
match lookup "jpg"%string d, lookup "cls"%string d with
| Some (VImg img), Some (VCls cls) => Some (img, cls)
| _, _ => None
end.

(** The number a key spells. *)
Definition key_number (k : String.string) : option nat :=
option_map Nat.of_uint (DecimalString.NilEmpty.uint_of_string k).

End Cifar100.

(** *** The reduced SVD, as [_svd_initialize] uses it *)

(** The SVD kernel returned [U] of shape [m, r], [s] of shape [r] and [Vt]
    of shape [r, n], each with as many entries as its shape says. *)
Definition svd_result (usv : tval * tval * tval) (m r n : nat) : Prop :=
  let '(U, s, Vt) := usv in
  shape U = [m; r] /\ length (elems U) = (m * r)%nat
  /\ shape s = [r] /\ length (elems s) = r
  /\ shape Vt = [r; n] /\ length (elems Vt) = (r * n)%nat.

(* ================================================================== *)
(** * Properties *)

(** ** Running computations *)

Lemma bind_ok {A B} (m : M A) (f : A -> M B) st a st1 :
  m st = (Ok a, st1) -> bind m f st = f a st1.
Proof. intros H. unfold bind. now rewrite H. Qed.


Lemma bind_ok_inv {A B} (m : M A) (f : A -> M B) st b st' :
  bind m f st = (Ok b, st') ->
  exists a st1, m st = (Ok a, st1) /\ f a st1 = (Ok b, st').
Proof.
  unfold bind. destruct (m st) as [[a|e] st1]; intros H.
  - now exists a, st1.
  - discriminate.
Qed.

Lemma bind_lift_ok {A B} (a : A) (f : A -> M B) st :
  bind (lift (Ok a)) f st = f a st.
Proof. reflexivity. Qed.

Lemma lift_ok_inv {A} (r : result A) st a st' :
  lift r st = (Ok a, st') -> r = Ok a /\ st' = st.
Proof. unfold lift. intros H. inversion H. auto. Qed.

(** ** Loading from the store *)

Lemma map_nth_seq {A} (d : A) (l : list A) :
  map (fun p => nth p l d) (seq 0 (length l)) = l.
Proof.
  induction l as [|x l IH]; simpl; [reflexivity|].
  f_equal. rewrite <- seq_shift, map_map. exact IH.
Qed.

Lemma load_app st ext t : allocated st t -> load (st ++ ext) t = load st t.
Proof.
  unfold allocated, load. intros H. now rewrite app_nth1.
Qed.

Lemma load_fresh st (v : tval) :
  load (st ++ [elems v])
       (mkTensor (length st) (mkArr (shape v) (seq 0 (length (elems v))))) = v.
Proof.
  unfold load, tshape. simpl. rewrite nth_middle, map_nth_seq. now destruct v.
Qed.

Lemma fresh_run (v : tval) st :
  fresh v st =
  (Ok (mkTensor (length st) (mkArr (shape v) (seq 0 (length (elems v))))),
   st ++ [elems v]).
Proof. reflexivity. Qed.

(** ** The degenerate branches of [factorize_matrix] *)

Lemma broadcast_matrix_vector N Mo :
  broadcast_shapes [N; Mo] [Mo] = Some [N; Mo].
Proof.
  unfold broadcast_shapes. simpl. now rewrite Nat.eqb_refl.
Qed.

Lemma target_value_shape st Y bias N Mo :
  tshape Y = [N; Mo] -> bias_fits bias Mo ->
  exists Yv, target_value st Y bias = Ok Yv /\ shape Yv = [N; Mo].
Proof.
  intros HY Hb. destruct bias as [b|]; simpl in *.
  - unfold v_binop. simpl. unfold tshape in *. rewrite HY, Hb.
    rewrite broadcast_matrix_vector. eexists. split; reflexivity.
  - eexists. split; [reflexivity|]. exact HY.
Qed.

Lemma prologue_run st Y bias Yv :
  target_value st Y bias = Ok Yv ->
  allocated st Y ->
  exists Y' st1 ext,
    prologue Y bias st
    = (Ok (bias, Y', LowRankSolution.set_bias LowRankSolution.default bias), st1)
    /\ st1 = st ++ ext
    /\ allocated st1 Y'
    /\ tshape Y' = shape Yv
    /\ load st1 Y' = Yv.
Proof.
  intros HT HY. destruct bias as [b|]; simpl in *.
  - unfold t_sub, t_binop, get_value, bind, lift, detach. rewrite HT.
    rewrite fresh_run. unfold ret.
    eexists _, _, [elems Yv]. split; [reflexivity|]. split; [reflexivity|].
    split; [unfold allocated; simpl; rewrite length_app; simpl; lia|].
    split; [reflexivity|]. apply load_fresh.
  - inversion HT; subst. exists Y, st, []. unfold ret.
    split; [reflexivity|]. split; [now rewrite app_nil_r|].
    split; [assumption|]. split; reflexivity.
Qed.

Section Degenerate.
Variable T : torch_lib.
Import LowRankSolution.

Lemma factorize_matrix_eq X Y Wa Wb bias rank n_iters :
factorize_matrix T X Y Wa Wb bias rank n_iters =
(k <- lift (resolve_rank X Wa rank) ;;
 '(original_bias, Y, ret1) <- prologue Y bias ;;
 branches T X Y Wa Wb original_bias ret1 k n_iters).
Proof. destruct Wb; reflexivity. Qed.

Lemma _lstsq_run A B st N D Mo :
tshape A = [N; D] -> tshape B = [N; Mo] ->
_lstsq T A B st = fresh (lstsq_solution T (load st A) (load st B)) st.
Proof.
intros HA HB. unfold _lstsq, bind, lift, raise, get_value.
rewrite HA, HB. simpl. now rewrite Nat.eqb_refl.
Qed.

Lemma branches_full_rank X Y Wa Wb ob ret1 k n_iters st N D Mo :
tshape X = [N; D] -> tshape Y = [N; Mo] ->
num_ge k D = true \/ num_ge k Mo = true ->
branches T X Y Wa Wb ob ret1 k n_iters st =
(Ok (set_rank
       (set_Wa ret1
          (Some (mkTensor (length st)
                   (mkArr (shape (lstsq_solution T (load st X) (load st Y)))
                      (seq 0 (length (elems (lstsq_solution T (load st X)
                                               (load st Y)))))))))
       sentinel),
 st ++ [elems (lstsq_solution T (load st X) (load st Y))]).
Proof.
intros HX HY Hk. unfold branches.
assert (Hd : (if num_ge k D then ret true
              else Mo0 <- lift (shape_at (tshape Y) 1) ;; ret (num_ge k Mo0)) st
             = (Ok true, st)).
{ destruct (num_ge k D) eqn:E; [reflexivity|].
  destruct Hk as [Hk|Hk]; [discriminate|].
  rewrite HY. unfold bind, lift, ret. simpl. now rewrite Hk. }
rewrite HX. change (shape_at [N; D] 1) with (Ok D). rewrite bind_lift_ok.
rewrite (bind_ok _ _ _ Hd).
rewrite (bind_ok _ _ _ (eq_trans (@_lstsq_run X Y st N D Mo HX HY) (fresh_run _ st))).
reflexivity.
Qed.

Lemma branches_keep X Y Wa Wb ob ret1 k n_iters st D Mo d :
shape_at (tshape X) 1 = Ok D -> shape_at (tshape Y) 1 = Ok Mo ->
shape_at (tshape Wa) 1 = Ok d ->
num_ge k D = false -> num_ge k Mo = false -> num_ge k d = true ->
branches T X Y Wa Wb ob ret1 k n_iters st =
(Ok (set_rank (set_Wb (set_Wa ret1 (Some Wa)) Wb) sentinel), st).
Proof.
intros HX HY HWa HD HM Hd. unfold branches, bind, lift, ret.
rewrite HX, HD, HY, HM, HWa, Hd. reflexivity.
Qed.

(** Degenerate case A, run from a valid call. *)
Lemma full_rank_run X Y Wa Wb bias rank n_iters st N D Mo k :
tshape X = [N; D] -> tshape Y = [N; Mo] -> bias_fits bias Mo ->
allocated st X -> allocated st Y ->
resolve_rank X Wa rank = Ok k ->
num_ge k D = true \/ num_ge k Mo = true ->
exists wa st' Yv,
  factorize_matrix T X Y Wa Wb bias rank n_iters st
  = (Ok (mk (Some wa) None bias sentinel 0), st')
  /\ target_value st Y bias = Ok Yv
  /\ load st' wa = lstsq_solution T (load st X) Yv.
Proof.
intros HX HY Hb AX AY Hr Hk.
destruct (@target_value_shape st Y bias N Mo HY Hb) as (Yv & HT & HS).
destruct (@prologue_run st Y bias Yv HT AY) as (Y' & st1 & ext & Hp & -> & AY' & HS' & HL).
rewrite factorize_matrix_eq, Hr, bind_lift_ok.
rewrite (bind_ok _ _ _ Hp).
rewrite HS in HS'.
rewrite (@branches_full_rank X Y' Wa Wb bias _ k n_iters (st ++ ext) N D Mo HX HS' Hk).
eexists _, _, Yv. split; [destruct bias; reflexivity|]. split; [exact HT|].
rewrite HL, (@load_app st ext X AX).
apply load_fresh.
Qed.

(** Degenerate case B, run from a valid call. *)
Lemma keep_run X Y Wa Wb bias rank n_iters st N D Mo d k :
tshape X = [N; D] -> tshape Y = [N; Mo] -> bias_fits bias Mo ->
shape_at (tshape Wa) 1 = Ok d ->
allocated st Y ->
resolve_rank X Wa rank = Ok k ->
num_ge k D = false -> num_ge k Mo = false -> num_ge k d = true ->
exists ext,
  factorize_matrix T X Y Wa Wb bias rank n_iters st
  = (Ok (mk (Some Wa) Wb bias sentinel 0), st ++ ext).
Proof.
intros HX HY Hb HWa AY Hr HD HM Hd.
destruct (@target_value_shape st Y bias N Mo HY Hb) as (Yv & HT & HS).
destruct (@prologue_run st Y bias Yv HT AY) as (Y' & st1 & ext & Hp & -> & AY' & HS' & HL).
rewrite factorize_matrix_eq, Hr, bind_lift_ok.
rewrite (bind_ok _ _ _ Hp).
rewrite HS in HS'.
rewrite (@branches_keep X Y' Wa Wb bias _ k n_iters (st ++ ext) D Mo d);
  try assumption;
  try (rewrite ?HX, ?HS'; reflexivity).
exists ext. destruct bias; reflexivity.
Qed.

(** C4.  On a valid call whose resolved rank [k] is at least the number
  of columns of [X] or of [Y], the call returns [Wa] equal to the
  least-squares fit of [Y] (less the bias, when one is given) on [X],
  no [Wb], and the sentinel rank; nothing is assumed about [k] and the
  columns of the supplied [Wa], so the branch is taken whether or not the
  already-factorized test would hold too. *)
Theorem factorize_matrix_full_rank :
forall X Y Wa Wb bias rank n_iters st N D Mo k,
  tshape X = [N; D] -> tshape Y = [N; Mo] -> bias_fits bias Mo ->
  allocated st X -> allocated st Y ->
  resolve_rank X Wa rank = Ok k ->
  num_ge k D = true \/ num_ge k Mo = true ->
  exists wa st' Yv,
    factorize_matrix T X Y Wa Wb bias rank n_iters st
    = (Ok (mk (Some wa) None bias sentinel 0), st')
    /\ target_value st Y bias = Ok Yv
    /\ load st' wa = lstsq_solution T (load st X) Yv.
Proof. intros. eapply full_rank_run; eassumption. Qed.

(** C5.  On a valid call with an already-factorized pair [(Wa, Wb)] whose
  resolved rank [k] is below the columns of [X] and of [Y] but at least
  the columns of [Wa], the call returns the supplied [Wa] and [Wb], with
  the values they had, and the sentinel rank. *)
Theorem factorize_matrix_keeps_factors :
forall X Y Wa Wb bias rank n_iters st N D Mo d k,
  tshape X = [N; D] -> tshape Y = [N; Mo] -> bias_fits bias Mo ->
  tshape Wa = [D; d] -> tshape Wb = [d; Mo] ->
  allocated st Y -> allocated st Wa -> allocated st Wb ->
  resolve_rank X Wa rank = Ok k ->
  num_ge k D = false -> num_ge k Mo = false -> num_ge k d = true ->
  exists st',
    factorize_matrix T X Y Wa (Some Wb) bias rank n_iters st
    = (Ok (mk (Some Wa) (Some Wb) bias sentinel 0), st')
    /\ load st' Wa = load st Wa
    /\ load st' Wb = load st Wb.
Proof.
intros X Y Wa Wb bias rank n_iters st N D Mo d k
  HX HY Hb HWa HWb AY AWa AWb Hr HD HM Hd.
destruct (@keep_run X Y Wa (Some Wb) bias rank n_iters st N D Mo d k)
  as (ext & Hrun); try assumption.
{ now rewrite HWa. }
exists (st ++ ext). split; [exact Hrun|].
split; apply load_app; assumption.
Qed.

End Degenerate.

(** ** Rank resolution *)

Lemma Qfloor_scaled (m : positive) (e : Z) :
  Qfloor (inject_Z (Zpos m) * Qpower 2 e) = Z.shiftl (Zpos m) e.
Proof.
  destruct e as [|k|k].
  - change (2 ^ 0) with 1. rewrite (Qfloor_comp _ (inject_Z (Z.pos m))) by apply Qmult_1_r.
    apply Qfloor_Z.
  - rewrite Z.shiftl_mul_pow2 by lia.
    rewrite <- (Qfloor_Z (Z.pos m * 2 ^ Z.pos k)).
    apply Qfloor_comp. rewrite inject_Z_mult.
    apply Qmult_comp; [reflexivity|].
    symmetry. apply (Zpower_Qpower 2 (Z.pos k)). lia.
  - change (Z.shiftl (Z.pos m) (Z.neg k)) with (Z.shiftr (Z.pos m) (Z.pos k)).
    rewrite Z.shiftr_div_pow2 by lia.
    assert (Hp : (0 < 2 ^ Z.pos k)%Z) by (apply Z.pow_pos_nonneg; lia).
    destruct (2 ^ Z.pos k)%Z as [|q|q] eqn:Eq; try lia.
    transitivity (Qfloor (Z.pos m # q)); [|reflexivity].
    apply Qfloor_comp.
    change (Z.neg k) with (- Z.pos k)%Z. rewrite Qpower_opp.
    rewrite <- (Zpower_Qpower 2 (Z.pos k)) by lia. rewrite Eq.
    unfold Qeq, Qmult, Qinv, inject_Z. simpl. lia.
Qed.

(** [int(x)] is the exact value of [x], truncated toward zero. *)
Lemma float_to_int_truncates (x : spec_float) (t : Z) :
  float_to_int x = Ok t -> t = truncate (float_Q x).
Proof.
  destruct x as [s|s| |s m e]; simpl; intros H; inversion H; subst; clear H.
  - reflexivity.
  - assert (Hpos : 0 < inject_Z (Z.pos m) * Qpower 2 e).
    { apply Qmult_lt_0_compat; [reflexivity|]. apply Qpower_0_lt. reflexivity. }
    unfold truncate. destruct s; simpl cond_Zopp.
    + assert (Eo : - (inject_Z (Z.neg m) * Qpower 2 e) == inject_Z (Z.pos m) * Qpower 2 e).
      { change (Z.neg m) with (- Z.pos m)%Z. rewrite inject_Z_opp. ring. }
      destruct (Qle_bool 0 (inject_Z (Z.neg m) * Qpower 2 e)) eqn:E.
      * apply Qle_bool_iff in E. exfalso.
        apply Qopp_le_compat in E. rewrite Eo in E.
        apply (Qlt_not_le _ _ Hpos E).
      * unfold Qceiling. rewrite (Qfloor_comp _ _ Eo). now rewrite Qfloor_scaled.
    + apply Qlt_le_weak in Hpos. apply Qle_bool_iff in Hpos. rewrite Hpos.
      symmetry. apply Qfloor_scaled.
Qed.

Lemma py_int_truncates (p : number) (t : Z) :
  py_int p = Ok t -> t = truncate (num_Q p).
Proof.
  destruct p as [z|x]; simpl.
  - intros H. inversion H; subst. unfold truncate.
    destruct (Qle_bool 0 (inject_Z t)); [now rewrite Qfloor_Z|now rewrite Qceiling_Z].
  - apply float_to_int_truncates.
Qed.

(** C2, as the code has it.  For a rank below 1 the resolved rank is the
    product of the rank and the number of columns of [X] as Python computes
    it (exact for an [int] rank; for a [float] rank the double nearest to
    the product), truncated toward zero, and then capped by the number of
    columns of [Wa]. *)
Theorem resolve_rank_fraction :
  forall X Wa rank N D D' d p t,
    tshape X = [N; D] -> tshape Wa = [D'; d] ->
    num_lt1 rank = true ->
    num_mul rank D = Ok p -> py_int p = Ok t ->
    resolve_rank X Wa rank = Ok (RInt (Z.min t (Z.of_nat d)))
    /\ t = truncate (num_Q p).
Proof.
  intros X Wa rank N D D' d p t HX HWa Hlt Hp Ht.
  split; [|now apply py_int_truncates].
  unfold resolve_rank. rewrite Hlt, HX. simpl. rewrite Hp. simpl.
  rewrite Ht. simpl. rewrite HWa. reflexivity.
Qed.

Lemma resolve_rank_fraction_witness :
  resolve_rank Examples.X28 Examples.Wa83 (RFloat Examples.half)
  = Ok (RInt (Z.min 4 (Z.of_nat 3)))
  /\ 4%Z = truncate (num_Q (RFloat Examples.four)).
Proof.
  apply (@resolve_rank_fraction Examples.X28 Examples.Wa83 (RFloat Examples.half)
           2 8 8 3 (RFloat Examples.four) 4);
    reflexivity.
Defined.

(** C2, as the claim has it, fails: with eight columns in [X], three in
    [Wa] and the fraction one half, the code resolves the rank to
    [min(4, 3) = 3], not to [floor(3 / 2) = 1]. *)
Lemma resolve_rank_not_fraction_of_min :
  resolve_rank Examples.X28 Examples.Wa83 (RFloat Examples.half) = Ok (RInt 3)
  /\ float_Q Examples.half == 1 # 2
  /\ fraction_of_min (float_Q Examples.half) 8 3 = 1%Z
  /\ resolve_rank Examples.X28 Examples.Wa83 (RFloat Examples.half)
     <> Ok (RInt (fraction_of_min (float_Q Examples.half) 8 3)).
Proof.
  split; [reflexivity|]. split; [reflexivity|]. split; [reflexivity|].
  vm_compute. discriminate.
Qed.

(** The product is rounded before it is truncated.  The double nearest to
    0.58, times 50, rounds to the double just below 29 and truncates to 28,
    where 58/100 of 50 is 29; the double nearest to 0.7 lies below 7/10,
    and its product with 10 rounds up to 7.0. *)
Lemma resolve_rank_rounds_product :
  resolve_rank Examples.X1_50 Examples.W50 (RFloat Examples.f058) = Ok (RInt 28)
  /\ num_mul (RFloat Examples.f058) 50 = Ok (RFloat Examples.f29m)
  /\ py_int (RFloat Examples.f29m) = Ok 28%Z
  /\ float_Q Examples.f07 < 7 # 10
  /\ num_mul (RFloat Examples.f07) 10 = Ok (RFloat Examples.seven).
Proof.
  repeat split; vm_compute; reflexivity.
Qed.

(** ** The guards of the convolution adapter *)







(** ** Which branch a call returns from *)

Ltac inv_bind H :=
  let a := fresh "a" in
  let s := fresh "s" in
  let H1 := fresh "Hstep" in
  apply bind_ok_inv in H; destruct H as (a & s & H1 & H).

Section Paths.
Variable T : torch_lib.
Import LowRankSolution.

Lemma epilogue_ok_inv X Y ob ret1 k Wa Wb st r st' :
epilogue X Y ob ret1 k Wa Wb st = (Ok r, st') ->
exists b e, r = mk (Some Wa) (Some Wb) (Some b) k e.
Proof.
unfold epilogue. intros H.
do 7 inv_bind H. inversion H; subst. eexists _, _. reflexivity.
Qed.

Lemma iterative_ok_inv X Y Wa Wb ob ret1 k n_iters st r st' :
iterative T X Y Wa Wb ob ret1 k n_iters st = (Ok r, st') ->
exists wa wb b e, r = mk (Some wa) (Some wb) (Some b) k e.
Proof.
unfold iterative. intros H.
inv_bind H. destruct a as [wa0 wb0].
inv_bind H. inv_bind H. destruct a0 as [wa wb].
destruct (epilogue_ok_inv _ _ _ _ _ _ _ _ H) as (b & e & ->).
now exists wa, wb, b, e.
Qed.

Lemma branches_iterative X Y Wa Wb ob ret1 k n_iters st D Mo d :
shape_at (tshape X) 1 = Ok D -> shape_at (tshape Y) 1 = Ok Mo ->
shape_at (tshape Wa) 1 = Ok d ->
num_ge k D = false -> num_ge k Mo = false -> num_ge k d = false ->
branches T X Y Wa Wb ob ret1 k n_iters st
= iterative T X Y Wa Wb ob ret1 k n_iters st.
Proof.
intros HX HY HWa HD HM Hd. unfold branches.
rewrite HX, bind_lift_ok, HD, HY.
unfold bind at 1. unfold bind at 1. unfold lift at 1, ret at 1.
rewrite HM, HWa, bind_lift_ok, Hd. reflexivity.
Qed.

Lemma branches_no_columns X Y Wa Wb ob ret1 k n_iters st D Mo e :
shape_at (tshape X) 1 = Ok D -> shape_at (tshape Y) 1 = Ok Mo ->
shape_at (tshape Wa) 1 = Err e ->
num_ge k D = false -> num_ge k Mo = false ->
branches T X Y Wa Wb ob ret1 k n_iters st = (Err e, st).
Proof.
intros HX HY HWa HD HM. unfold branches, bind, lift, ret.
rewrite HX, HD, HY, HM, HWa. reflexivity.
Qed.

End Paths.

Lemma prologue_shape st Y bias Yv :
  target_value st Y bias = Ok Yv ->
  exists Y' ext,
    prologue Y bias st
    = (Ok (bias, Y', LowRankSolution.set_bias LowRankSolution.default bias), st ++ ext)
    /\ tshape Y' = shape Yv.
Proof.
  intros HT. destruct bias as [b|]; simpl in *.
  - unfold t_sub, t_binop, get_value, bind, lift, detach. rewrite HT.
    rewrite fresh_run. unfold ret.
    eexists _, [elems Yv]. split; reflexivity.
  - inversion HT; subst. exists Y, []. unfold ret. rewrite app_nil_r.
    split; reflexivity.
Qed.


Lemma _lstsq_mismatch T A B st :
  shape_mismatch (tshape A) (tshape B) ->
  _lstsq T A B st = (Err IndexError, st).
Proof.
  unfold shape_mismatch, _lstsq, bind, lift, raise.
  destruct (tshape A) as [|a0 [|a1 [|a2 sa]]];
    destruct (tshape B) as [|b0 [|b1 [|b2 sb]]]; simpl; intros H;
    try reflexivity;
    try (destruct (Nat.eqb_spec a0 b0); reflexivity).
  destruct (Nat.eqb_spec a0 b0); [|reflexivity].
  exfalso. destruct H as [H|[H|H]]; congruence.
Qed.

Section Sentinel.
Variable T : torch_lib.
Import LowRankSolution.

(** C1, as the code has it.  A valid call whose resolved rank is not
  itself -1 and that returns the sentinel rank came out of one of the two
  degenerate branches.  Out of the first, [Wb] is absent and [Wa] is the
  least-squares fit of [Y] (less the bias) on [X]; out of the second,
  [Wa] and [Wb] are the tensors supplied, so [Wb] is absent only when none
  was supplied. *)
Theorem sentinel_rank_solution :
forall X Y Wa Wb bias rank n_iters st N D Mo k r st',
  tshape X = [N; D] -> tshape Y = [N; Mo] -> bias_fits bias Mo ->
  allocated st X -> allocated st Y ->
  resolve_rank X Wa rank = Ok k -> k <> sentinel ->
  factorize_matrix T X Y Wa Wb bias rank n_iters st = (Ok r, st') ->
  LowRankSolution.rank r = sentinel ->
  ((num_ge k D = true \/ num_ge k Mo = true)
   /\ LowRankSolution.Wb r = None
   /\ exists wa Yv,
        LowRankSolution.Wa r = Some wa
        /\ target_value st Y bias = Ok Yv
        /\ load st' wa = lstsq_solution T (load st X) Yv)
  \/
  (num_ge k D = false /\ num_ge k Mo = false
   /\ (exists d, shape_at (tshape Wa) 1 = Ok d /\ num_ge k d = true)
   /\ LowRankSolution.Wa r = Some Wa
   /\ LowRankSolution.Wb r = Wb).
Proof.
intros X Y Wa Wb bias rank n_iters st N D Mo k r st'
  HX HY Hb AX AY Hr Hk Hrun Hrank.
destruct (num_ge k D) eqn:ED; [|destruct (num_ge k Mo) eqn:EM].
1,2: left;
  (destruct (@full_rank_run T X Y Wa Wb bias rank n_iters st N D Mo k)
    as (wa & st2 & Yv & Hrun' & HT & HL); auto; try (rewrite ?ED, ?EM; auto));
  rewrite Hrun in Hrun'; inversion Hrun'; subst;
  (split; [auto|]); (split; [reflexivity|]); exists wa, Yv; auto.
right.
destruct (shape_at (tshape Wa) 1) as [d|e] eqn:EW.
- destruct (num_ge k d) eqn:Ed.
  + destruct (@keep_run T X Y Wa Wb bias rank n_iters st N D Mo d k)
      as (ext & Hrun'); auto.
    rewrite Hrun in Hrun'. inversion Hrun'; subst.
    repeat split; eauto.
  + exfalso.
    destruct (@target_value_shape st Y bias N Mo HY Hb) as (Yv & HT & HS).
    destruct (@prologue_shape st Y bias Yv HT) as (Y' & ext & Hp & HS').
    rewrite factorize_matrix_eq, Hr, bind_lift_ok, (bind_ok _ _ _ Hp) in Hrun.
    rewrite HS in HS'.
    rewrite (@branches_iterative T X Y' Wa Wb bias _ k n_iters _ D Mo d) in Hrun;
      auto; try (rewrite ?HX, ?HS'; reflexivity).
    apply iterative_ok_inv in Hrun. destruct Hrun as (wa & wb & b & e & ->).
    simpl in Hrank. contradiction.
- exfalso.
  destruct (@target_value_shape st Y bias N Mo HY Hb) as (Yv & HT & HS).
  destruct (@prologue_shape st Y bias Yv HT) as (Y' & ext & Hp & HS').
  rewrite factorize_matrix_eq, Hr, bind_lift_ok, (bind_ok _ _ _ Hp) in Hrun.
  rewrite HS in HS'.
  rewrite (@branches_no_columns T X Y' Wa Wb bias _ k n_iters _ D Mo e) in Hrun;
    auto; try (rewrite ?HX, ?HS'; reflexivity).
  discriminate.
Qed.

End Sentinel.

(** C1, as the claim has it, fails: a rank-1 pair factorizing a 3x3
    operator, asked for rank 1 again, comes back with the sentinel rank and
    its [Wb]. *)
Lemma sentinel_rank_with_Wb :
  exists r st',
    factorize_matrix Reference.lib Examples.X23 Examples.Y23 Examples.Wa31
      (Some Examples.Wb13) None (RInt 1) 3 Examples.st_pair = (Ok r, st')
    /\ LowRankSolution.rank r = sentinel
    /\ LowRankSolution.Wb r = Some Examples.Wb13.
Proof.
  eexists _, _. split; [vm_compute; reflexivity|]. split; reflexivity.
Qed.

Lemma sentinel_rank_solution_witness :
  ((num_ge (RInt 1) 3 = true \/ num_ge (RInt 1) 3 = true)
   /\ LowRankSolution.Wb
        (LowRankSolution.mk (Some Examples.Wa31) (Some Examples.Wb13) None sentinel 0)
      = None
   /\ exists wa Yv,
        LowRankSolution.Wa
          (LowRankSolution.mk (Some Examples.Wa31) (Some Examples.Wb13) None sentinel 0)
        = Some wa
        /\ target_value Examples.st_pair Examples.Y23 None = Ok Yv
        /\ load Examples.st_pair wa
           = lstsq_solution Reference.lib (load Examples.st_pair Examples.X23) Yv)
  \/
  (num_ge (RInt 1) 3 = false /\ num_ge (RInt 1) 3 = false
   /\ (exists d, shape_at (tshape Examples.Wa31) 1 = Ok d /\ num_ge (RInt 1) d = true)
   /\ LowRankSolution.Wa
        (LowRankSolution.mk (Some Examples.Wa31) (Some Examples.Wb13) None sentinel 0)
      = Some Examples.Wa31
   /\ LowRankSolution.Wb
        (LowRankSolution.mk (Some Examples.Wa31) (Some Examples.Wb13) None sentinel 0)
      = Some Examples.Wb13).
Proof.
  apply (@sentinel_rank_solution Reference.lib Examples.X23 Examples.Y23 Examples.Wa31
           (Some Examples.Wb13) None (RInt 1) 3 Examples.st_pair 2 3 3 (RInt 1));
    first [ exact I | discriminate | unfold allocated; simpl; lia
          | vm_compute; reflexivity ].
Defined.

Lemma factorize_matrix_full_rank_witness :
  exists wa st' Yv,
    factorize_matrix Reference.lib Examples.X2 Examples.Y2 Examples.W2 None
      (Some Examples.b2) (RInt 2) 3 Examples.st_bias
    = (Ok (LowRankSolution.mk (Some wa) None (Some Examples.b2) sentinel 0), st')
    /\ target_value Examples.st_bias Examples.Y2 (Some Examples.b2) = Ok Yv
    /\ load st' wa
       = lstsq_solution Reference.lib (load Examples.st_bias Examples.X2) Yv.
Proof.
  apply (@factorize_matrix_full_rank Reference.lib Examples.X2 Examples.Y2 Examples.W2
           None (Some Examples.b2) (RInt 2) 3 Examples.st_bias 2 2 2 (RInt 2));
    first [ reflexivity | unfold allocated; simpl; lia | left; reflexivity ].
Defined.

Lemma factorize_matrix_keeps_factors_witness :
  exists st',
    factorize_matrix Reference.lib Examples.X23 Examples.Y23 Examples.Wa31
      (Some Examples.Wb13) None (RInt 1) 3 Examples.st_pair
    = (Ok (LowRankSolution.mk (Some Examples.Wa31) (Some Examples.Wb13) None sentinel 0),
       st')
    /\ load st' Examples.Wa31 = load Examples.st_pair Examples.Wa31
    /\ load st' Examples.Wb13 = load Examples.st_pair Examples.Wb13.
Proof.
  apply (@factorize_matrix_keeps_factors Reference.lib Examples.X23 Examples.Y23
           Examples.Wa31 Examples.Wb13 None (RInt 1) 3 Examples.st_pair 2 3 3 1 (RInt 1));
    first [ exact I | reflexivity | unfold allocated; simpl; lia ].
Defined.

(** ** Where shapes are checked *)

Section ShapeCheck.
Variable T : torch_lib.
Import LowRankSolution.


End ShapeCheck.



(** ** Multi-indices and row-major positions *)

Lemma length_all_indices (s : list nat) : length (all_indices s) = numel s.
Proof.
  induction s as [|d s IH]; simpl; [reflexivity|].
  rewrite length_flat_map.
  rewrite (map_ext _ (fun _ => numel s)) by (intros i; now rewrite length_map).
  clear IH. generalize 0%nat as start.
  induction d as [|d IHd]; intros start; simpl; [reflexivity|].
  now rewrite IHd.
Qed.

Lemma in_all_indices_cons d s idx :
  In idx (all_indices (d :: s)) <->
  exists i idx', idx = i :: idx' /\ (i < d)%nat /\ In idx' (all_indices s).
Proof.
  simpl. rewrite in_flat_map. split.
  - intros (i & Hi & Hin). apply in_map_iff in Hin. destruct Hin as (idx' & <- & Hin).
    apply in_seq in Hi. exists i, idx'. repeat split; [lia|assumption].
  - intros (i & idx' & -> & Hi & Hin). exists i. split.
    + apply in_seq. lia.
    + apply in_map_iff. now exists idx'.
Qed.

Lemma in_all_indices_snoc s : forall d idx i,
  In idx (all_indices s) -> (i < d)%nat -> In (idx ++ [i]) (all_indices (s ++ [d])).
Proof.
  induction s as [|x s IH]; intros d idx i Hin Hi.
  - simpl in Hin. destruct Hin as [<-|[]]. simpl.
    apply in_flat_map. exists i. split; [apply in_seq; lia|]. left. reflexivity.
  - apply in_all_indices_cons in Hin. destruct Hin as (j & idx' & -> & Hj & Hin).
    change ((x :: s) ++ [d]) with (x :: (s ++ [d])).
    change ((j :: idx') ++ [i]) with (j :: (idx' ++ [i])).
    apply in_all_indices_cons. exists j, (idx' ++ [i]). auto.
Qed.

Lemma in_all_indices_rev s : forall idx,
  In idx (all_indices s) -> In (rev idx) (all_indices (rev s)).
Proof.
  induction s as [|d s IH]; intros idx Hin.
  - simpl in Hin. destruct Hin as [<-|[]]. simpl. auto.
  - apply in_all_indices_cons in Hin. destruct Hin as (i & idx' & -> & Hi & Hin).
    simpl. apply in_all_indices_snoc; auto.
Qed.

Lemma map_add_seq (b n : nat) : forall start,
  map (fun p => b + p)%nat (seq start n) = seq (b + start) n.
Proof.
  induction n as [|n IH]; intros start; simpl; [reflexivity|].
  f_equal. rewrite IH. f_equal. lia.
Qed.

Lemma seq_blocks (n d : nat) :
  flat_map (fun i => map (fun p => i * n + p)%nat (seq 0 n)) (seq 0 d) = seq 0 (d * n).
Proof.
  induction d as [|d IH]; [reflexivity|].
  rewrite seq_S, flat_map_app, IH. simpl flat_map. rewrite app_nil_r.
  replace (S d * n)%nat with (d * n + n)%nat by lia.
  rewrite seq_app. f_equal.
  rewrite map_add_seq. f_equal. lia.
Qed.

Lemma ravel_all_indices (s : list nat) :
  map (ravel s) (all_indices s) = seq 0 (numel s).
Proof.
  induction s as [|d s IH]; [reflexivity|].
  change (numel (d :: s)) with (d * numel s)%nat.
  rewrite <- seq_blocks. simpl all_indices.
  rewrite flat_map_concat_map, concat_map, map_map, <- flat_map_concat_map.
  apply flat_map_ext. intros i. rewrite map_map. simpl.
  rewrite <- IH, map_map. reflexivity.
Qed.

Lemma nth_ravel (s idx d0 : list nat) :
  In idx (all_indices s) -> nth (ravel s idx) (all_indices s) d0 = idx.
Proof.
  intros Hin. destruct (In_nth _ _ d0 Hin) as (q & Hq & Hnth).
  assert (Hr : ravel s (nth q (all_indices s) d0) = q).
  { rewrite <- (map_nth (ravel s)), ravel_all_indices.
    rewrite nth_indep with (d' := 0%nat)
      by (rewrite length_seq, <- length_all_indices; exact Hq).
    rewrite seq_nth; [reflexivity|]. now rewrite <- length_all_indices. }
  rewrite Hnth in Hr. now rewrite Hr.
Qed.

Lemma ravel_lt (s idx : list nat) :
  In idx (all_indices s) -> (ravel s idx < numel s)%nat.
Proof.
  intros Hin. apply (in_map (ravel s)) in Hin.
  rewrite ravel_all_indices in Hin. apply in_seq in Hin. lia.
Qed.

Lemma gather_all {A} (d : A) (s : list nat) (l : list A) :
  length l = numel s -> gather d s l (all_indices s) = l.
Proof.
  intros Hlen. unfold gather.
  rewrite <- (map_map (ravel s) (fun p => nth p l d)), ravel_all_indices, <- Hlen.
  apply map_nth_seq.
Qed.

Lemma rev_numel (s : list nat) : numel (rev s) = numel s.
Proof.
  induction s as [|d s IH]; [reflexivity|]. simpl.
  assert (H : forall a b, numel (a ++ [b]) = (numel a * b)%nat).
  { induction a as [|x a IHa]; intros b; simpl; [lia|]. rewrite IHa. lia. }
  rewrite H, IH. lia.
Qed.

(** Transposing twice gives the array back. *)
Lemma transpose_arr_involutive {A} (d : A) (a : arr A) :
  length (elems a) = numel (shape a) ->
  transpose_arr d (transpose_arr d a) = a.
Proof.
  destruct a as [s l]. simpl. intros Hlen.
  unfold transpose_arr. simpl. rewrite rev_involutive. f_equal.
  unfold gather. rewrite !map_map.
  transitivity (gather d s l (all_indices s)); [|now apply gather_all].
  unfold gather. apply map_ext_in. intros idx Hin.
  rewrite nth_indep with (d' := (fun x => nth (ravel s (rev x)) l d) []).
  2:{ rewrite length_map, length_all_indices, rev_numel.
      rewrite <- (rev_numel s). apply ravel_lt. now apply in_all_indices_rev. }
  rewrite (map_nth (fun x => nth (ravel s (rev x)) l d)).
  rewrite nth_ravel by now apply in_all_indices_rev.
  now rewrite rev_involutive.
Qed.

(** ** The weight reshapes of the convolution adapter *)

Lemma infer_size_one (q : nat) (spec : list Z) :
  existsb (fun z => (z <? -1)%Z) spec = false ->
  count_infer spec = 1%nat ->
  (0 < known_size spec)%nat ->
  infer_size (q * known_size spec) spec
  = Ok (map (fun z => if (z =? -1)%Z then q else Z.to_nat z) spec).
Proof.
  intros Hneg Hcount Hpos. unfold infer_size. rewrite Hneg, Hcount.
  rewrite Nat.Div0.mod_mul, Nat.eqb_refl.
  destruct (Nat.ltb_spec 0 (known_size spec)) as [_|]; [|lia].
  rewrite orb_true_r.
  destruct (Nat.eqb_spec (known_size spec) 0) as [|_]; [lia|].
  rewrite Nat.div_mul by lia. reflexivity.
Qed.

Lemma infer_rows (o f : nat) :
  (0 < o)%nat -> infer_size (o * f) [Z.of_nat o; (-1)%Z] = Ok [o; f].
Proof.
  intros Ho.
  assert (Hk : known_size [Z.of_nat o; (-1)%Z] = o).
  { simpl. destruct (Z.eqb_spec (Z.of_nat o) (-1)); [lia|]. rewrite Nat2Z.id. lia. }
  replace (o * f)%nat with (f * known_size [Z.of_nat o; (-1)%Z])%nat by (rewrite Hk; lia).
  rewrite infer_size_one.
  - simpl. destruct (Z.eqb_spec (Z.of_nat o) (-1)); [lia|]. now rewrite Nat2Z.id.
  - simpl. destruct (Z.ltb_spec (Z.of_nat o) (-1)); [lia|]. reflexivity.
  - unfold count_infer. simpl. destruct (Z.eqb_spec (Z.of_nat o) (-1)); [lia|]. reflexivity.
  - rewrite Hk. exact Ho.
Qed.

Lemma infer_kernel (o i kh kw : nat) :
  (0 < o)%nat -> (0 < kh)%nat -> (0 < kw)%nat ->
  infer_size (numel [o; numel [i; kh; kw]])
    (Z.of_nat o :: (-1)%Z :: map Z.of_nat [kh; kw])
  = Ok [o; i; kh; kw].
Proof.
  intros Ho Hh Hw.
  set (spec := Z.of_nat o :: (-1)%Z :: map Z.of_nat [kh; kw]).
  assert (Hne : forall n : nat, (Z.of_nat n =? -1)%Z = false)
    by (intros n; destruct (Z.eqb_spec (Z.of_nat n) (-1)); [lia|reflexivity]).
  assert (Hlt : forall n : nat, (Z.of_nat n <? -1)%Z = false)
    by (intros n; destruct (Z.ltb_spec (Z.of_nat n) (-1)); [lia|reflexivity]).
  assert (Hk : known_size spec = (o * (kh * (kw * 1)))%nat).
  { unfold spec. simpl. rewrite !Hne, !Nat2Z.id. reflexivity. }
  replace (numel [o; numel [i; kh; kw]]) with (i * known_size spec)%nat
    by (rewrite Hk; simpl; lia).
  rewrite infer_size_one.
  - unfold spec. simpl. rewrite !Hne, !Nat2Z.id. reflexivity.
  - unfold spec. simpl. now rewrite !Hlt.
  - unfold spec, count_infer. simpl. now rewrite !Hne.
  - rewrite Hk. repeat apply Nat.mul_pos_pos; lia.
Qed.

Lemma t_reshape_run T t spec s st :
  infer_size (numel (tshape t)) spec = Ok s ->
  exists r st1,
    t_reshape T t spec st = (Ok r, st1)
    /\ tshape r = s
    /\ length (elems (view r)) = length (elems (view t))
    /\ load st1 r = mkArr s (elems (load st t)).
Proof.
  intros Hs. unfold t_reshape. rewrite Hs, bind_lift_ok.
  destruct (reshape_views T t s).
  - eexists _, _. split; [reflexivity|]. repeat split.
  - unfold bind, get_value. rewrite fresh_run.
    eexists _, _. split; [reflexivity|]. split; [reflexivity|]. split.
    + simpl. now rewrite length_seq, length_map.
    + apply (load_fresh st (mkArr s (elems (load st t)))).
Qed.

Lemma t_T_involutive t :
  length (elems (view t)) = numel (tshape t) -> t_T (t_T t) = t.
Proof.
  intros H. destruct t as [l v]. unfold t_T. simpl.
  now rewrite transpose_arr_involutive.
Qed.

(** C8.  For a 4-D weight tensor of shape [out, in, kh, kw] with [out],
    [kh] and [kw] positive, the weights-to-matrix transform gives a matrix of
    shape [in*kh*kw, out], and the matrix-to-weights transform with kernel
    size [(kh, kw)] applied to it gives a tensor with the shape and the
    values of the original one. *)
Theorem weights_roundtrip :
  forall T w o i kh kw st,
    tshape w = [o; i; kh; kw] ->
    (0 < o)%nat -> (0 < kh)%nat -> (0 < kw)%nat ->
    length (elems (view w)) = numel (tshape w) ->
    exists m st1 w' st2,
      _weights_conv2d_to_mat T w st = (Ok m, st1)
      /\ tshape m = [(i * kh * kw)%nat; o]
      /\ _mat_to_weights_conv2d T (Some m) [kh; kw] st1 = (Ok (Some w'), st2)
      /\ tshape w' = tshape w
      /\ load st2 w' = load st w.
Proof.
  intros T w o i kh kw st Hw Ho Hh Hk Hlen.
  assert (H1 : infer_size (numel (tshape w)) [Z.of_nat o; (-1)%Z]
               = Ok [o; numel [i; kh; kw]]).
  { rewrite Hw. apply (infer_rows (numel [i; kh; kw]) Ho). }
  destruct (t_reshape_run T w _ st H1) as (r1 & st1 & Hr1 & Hs1 & Hl1 & Hv1).
  assert (Hwf : length (elems (view r1)) = numel (tshape r1)).
  { rewrite Hl1, Hlen, Hs1, Hw. simpl. lia. }
  assert (H2 : infer_size (numel (tshape (t_T (t_T r1))))
                 (Z.of_nat o :: (-1)%Z :: map Z.of_nat [kh; kw])
               = Ok [o; i; kh; kw]).
  { rewrite (t_T_involutive r1 Hwf), Hs1. now apply infer_kernel. }
  destruct (t_reshape_run T (t_T (t_T r1)) _ st1 H2) as (w' & st2 & Hr2 & Hs2 & Hl2 & Hv2).
  exists (t_T r1), st1, w', st2.
  split; [|split; [|split; [|split]]].
  - unfold _weights_conv2d_to_mat. rewrite Hw.
    change (shape_at [o; i; kh; kw] 0) with (@Ok nat o). rewrite bind_lift_ok.
    rewrite (bind_ok _ _ _ Hr1). reflexivity.
  - unfold t_T, tshape in *. simpl. rewrite Hs1. simpl. f_equal. lia.
  - unfold _mat_to_weights_conv2d.
    assert (Ho' : shape_at (tshape (t_T (t_T r1))) 0 = Ok o)
      by (rewrite (t_T_involutive r1 Hwf), Hs1; reflexivity).
    rewrite Ho', bind_lift_ok, (bind_ok _ _ _ Hr2). reflexivity.
  - now rewrite Hs2, Hw.
  - rewrite Hv2, (t_T_involutive r1 Hwf), Hv1. simpl.
    unfold load. now rewrite Hw.
Qed.

Lemma weights_roundtrip_witness :
  exists m st1 w' st2,
    _weights_conv2d_to_mat Reference.lib KernelExample.K KernelExample.st_kernel
    = (Ok m, st1)
    /\ tshape m = [(2 * 1 * 2)%nat; 2%nat]
    /\ _mat_to_weights_conv2d Reference.lib (Some m) [1; 2]%nat st1 = (Ok (Some w'), st2)
    /\ tshape w' = tshape KernelExample.K
    /\ load st2 w' = load KernelExample.st_kernel KernelExample.K.
Proof.
  apply (@weights_roundtrip Reference.lib KernelExample.K 2 2 1 2 KernelExample.st_kernel);
    first [ reflexivity | lia ].
Defined.

(** ** The reported error *)

(** C3 at a call with a bias.  [X] is the identity, [Y = X @ W + bias]
    with [W = diag(1, 0)] and [bias = (1, 1)], and the rank asked for is 1.
    The factors and the bias returned reproduce [Y] exactly, so their error
    against [Y] is 0; the [nmse] returned is 4. *)
Lemma nmse_with_bias :
  exists r st' e,
    factorize_matrix Reference.lib Examples.X2 Examples.Y2 Examples.W2 None
      (Some Examples.b2) (RInt 1) 3 Examples.st_bias = (Ok r, st')
    /\ nmse_against Examples.st_bias st' Examples.X2 Examples.Y2 r = Ok e
    /\ e == 0
    /\ LowRankSolution.nmse r == 4
    /\ ~ LowRankSolution.nmse r == e.
Proof.
  eexists _, _, _. split; [vm_compute; reflexivity|].
  split; [vm_compute; reflexivity|].
  split; [reflexivity|]. split; [reflexivity|].
  intros H. vm_compute in H. discriminate.
Qed.

(** ** A logic for the store *)

Lemma grows_refl n st : grows n st st.
Proof. split; auto. Qed.

Lemma grows_trans n st1 st2 st3 :
  grows n st1 st2 -> grows n st2 st3 -> grows n st1 st3.
Proof.
  intros [L1 H1] [L2 H2]. split; [lia|].
  intros l Hl. now rewrite H2, H1.
Qed.

Lemma grows_app n st ext : (n <= length st)%nat -> grows n st (st ++ ext).
Proof.
  intros Hn. split; [rewrite length_app; lia|].
  intros l Hl. apply app_nth1. lia.
Qed.

Lemma length_set_nth {A} (x : A) (l : list A) : forall i,
  length (set_nth i x l) = length l.
Proof.
  induction l as [|y l IH]; intros [|i]; simpl; auto.
Qed.

Lemma nth_set_nth_other {A} (x d : A) (l : list A) : forall i j,
  i <> j -> nth j (set_nth i x l) d = nth j l d.
Proof.
  induction l as [|y l IH]; intros [|i] [|j] Hij; simpl; auto; try congruence.
Qed.

Lemma nth_set_nth_same {A} (x d : A) (l : list A) : forall i,
  (i < length l)%nat -> nth i (set_nth i x l) d = x.
Proof.
  induction l as [|y l IH]; intros [|i] Hi; simpl in *; try lia; auto.
  apply IH. lia.
Qed.

Lemma grows_write n (t : tensor) vals st :
  (n <= storage t)%nat -> grows n st (write_view t vals st).
Proof.
  intros Hn. unfold write_view. split.
  - now rewrite length_set_nth.
  - intros l Hl. apply nth_set_nth_other. lia.
Qed.

Section Rules.
Context {A B : Type}.
Variable n : nat.

Lemma hoare_ret (P : store -> Prop) (a : A) (Q : A -> store -> Prop) :
(forall st, P st -> Q a st) -> hoare n P (ret a) Q.
Proof. intros H st Hn HP. split; [apply grows_refl|]. simpl. auto. Qed.

Lemma hoare_raise (P : store -> Prop) (e : error) (Q : A -> store -> Prop) :
hoare n P (raise e) Q.
Proof. intros st Hn HP. split; [apply grows_refl|]. exact I. Qed.

Lemma hoare_lift (P : store -> Prop) (r : result A) (Q : A -> store -> Prop) :
(forall a st, r = Ok a -> P st -> Q a st) -> hoare n P (lift r) Q.
Proof.
intros H st Hn HP. split; [apply grows_refl|]. simpl.
destruct r; auto.
Qed.

Lemma hoare_bind (P : store -> Prop) (m : M A) (Q : A -> store -> Prop)
(f : A -> M B) (R : B -> store -> Prop) :
hoare n P m Q -> (forall a, hoare n (Q a) (f a) R) -> hoare n P (bind m f) R.
Proof.
intros Hm Hf st Hn HP. specialize (Hm st Hn HP). unfold bind.
destruct (m st) as [[a|e] st1]; simpl in *.
- destruct Hm as [G1 HQ].
  assert (Hn1 : (n <= length st1)%nat) by (destruct G1; lia).
  specialize (Hf a st1 Hn1 HQ). destruct Hf as [G2 HR].
  split; [eapply grows_trans; eassumption|exact HR].
- destruct Hm as [G1 _]. auto.
Qed.

Lemma hoare_weaken (P P' : store -> Prop) (m : M A) (Q Q' : A -> store -> Prop) :
hoare n P' m Q' ->
(forall st, P st -> P' st) -> (forall a st, Q' a st -> Q a st) ->
hoare n P m Q.
Proof.
intros H HP HQ st Hn Hp. specialize (H st Hn (HP st Hp)).
destruct H as [G H]. split; [exact G|].
destruct (fst (m st)); auto.
Qed.

End Rules.

Lemma hoare_alloc n (P : store -> Prop) (m : M tensor) :
  allocating m -> mono P ->
  hoare n P m (fun t st' => P st' /\ owned n st' t).
Proof.
  intros Hm HP st Hn Hp. destruct (Hm st) as [[v E]|[e E]]; rewrite E.
  - rewrite fresh_run. simpl. split; [now apply grows_app|]. split.
    + apply (HP st); [rewrite length_app; lia|assumption].
    + unfold owned. simpl. rewrite length_app. simpl. lia.
  - simpl. split; [apply grows_refl|exact I].
Qed.

Lemma hoare_get_value n (P : store -> Prop) (t : tensor) :
  hoare n P (get_value t) (fun _ st' => P st').
Proof. intros st Hn Hp. split; [apply grows_refl|]. exact Hp. Qed.

Lemma hoare_inplace n (P : store -> Prop) f (a b : tensor) :
  (forall st, P st -> (n <= storage a)%nat) -> mono P ->
  hoare n P (t_inplace f a b) (fun _ st' => P st').
Proof.
  intros Ha HP st Hn Hp. unfold t_inplace.
  destruct (v_binop_inplace f (load st a) (load st b)) as [vals|e]; simpl.
  - split; [apply grows_write; eauto|].
    apply (HP st); [|assumption]. unfold write_view. now rewrite length_set_nth.
  - split; [apply grows_refl|exact I].
Qed.

(** *** The allocating operations *)

Lemma allocating_of_value (r : store -> result tval) (m : M tensor) :
  (forall st, m st = match r st with Ok v => fresh v st | Err e => (Err e, st) end) ->
  allocating m.
Proof.
  intros H st. rewrite H. destruct (r st) as [v|e]; [left|right]; eauto.
Qed.

Lemma allocating_binop f a b : allocating (t_binop f a b).
Proof.
  apply (allocating_of_value (fun st => v_binop f (load st a) (load st b))).
  intros st. unfold t_binop, bind, get_value, lift.
  destruct (v_binop f (load st a) (load st b)); reflexivity.
Qed.

Lemma allocating_matmul a b : allocating (t_matmul a b).
Proof.
  apply (allocating_of_value (fun st => v_matmul (load st a) (load st b))).
  intros st. unfold t_matmul, bind, get_value, lift.
  destruct (v_matmul (load st a) (load st b)); reflexivity.
Qed.

Lemma allocating_mean0 a : allocating (t_mean0 a).
Proof.
  apply (allocating_of_value (fun st => v_mean0 (load st a))).
  intros st. unfold t_mean0, bind, get_value, lift.
  destruct (v_mean0 (load st a)); reflexivity.
Qed.

Lemma allocating_sqrt T a : allocating (t_sqrt T a).
Proof. intros st. left. eexists. reflexivity. Qed.

Lemma allocating_unfold T a ks p : allocating (t_unfold T a ks p).
Proof.
  apply (allocating_of_value (fun st => unfold T (load st a) ks p)).
  intros st. unfold t_unfold, bind, get_value, lift.
  destruct (unfold T (load st a) ks p); reflexivity.
Qed.

Lemma allocating_pad T a p mode : allocating (t_pad T a p mode).
Proof.
  apply (allocating_of_value (fun st => pad T (load st a) p mode)).
  intros st. unfold t_pad, bind, get_value, lift.
  destruct (pad T (load st a) p mode); reflexivity.
Qed.

Lemma allocating_lstsq T A0 B0 : allocating (_lstsq T A0 B0).
Proof.
  intros st. unfold _lstsq, bind, lift, raise, get_value.
  destruct (shape_at (tshape A0) 0) as [a0|e]; [|right; eauto].
  destruct (shape_at (tshape B0) 0) as [b0|e]; [|right; eauto].
  destruct (negb (a0 =? b0)%nat); [right; eauto|].
  destruct (negb (length (tshape A0) =? 2)%nat); [right; eauto|].
  destruct (negb (length (tshape B0) =? 2)%nat); [right; eauto|].
  left. eauto.
Qed.

(** *** Derived rules *)

Lemma mono_and (P Q : store -> Prop) :
  mono P -> mono Q -> mono (fun st => P st /\ Q st).
Proof. intros HP HQ st st' Hl [Hp Hq]. split; eauto. Qed.

Lemma mono_or (P Q : store -> Prop) :
  mono P -> mono Q -> mono (fun st => P st \/ Q st).
Proof. intros HP HQ st st' Hl [Hp|Hq]; [left|right]; eauto. Qed.

Lemma mono_const (phi : Prop) : mono (fun _ => phi).
Proof. intros st st' _ H. exact H. Qed.

Lemma mono_owned n t : mono (fun st => owned n st t).
Proof. intros st st' Hl H. unfold owned in *. lia. Qed.

Lemma mono_origin n L t : mono (fun st => origin n L st t).
Proof.
  intros st st' Hl [H|H]; [left; unfold owned in *; lia|right; exact H].
Qed.

Lemma mono_origin_opt n L t : mono (fun st => origin_opt n L st t).
Proof. destruct t; simpl; [apply mono_origin|]. intros st st' _ H. exact H. Qed.

Lemma mono_solution_post n P L r : mono P -> mono (solution_post n P L r).
Proof.
  intros HP. unfold solution_post. apply mono_and; [exact HP|].
  intros st st' Hl H. eapply Forall_impl; [|exact H].
  intros o. apply mono_origin_opt. exact Hl.
Qed.

Lemma hoare_pre {A} n (P P' : store -> Prop) (m : M A) (Q : A -> store -> Prop) :
  hoare n P' m Q -> (forall st, P st -> P' st) -> hoare n P m Q.
Proof. intros H HP. eapply hoare_weaken; eauto. Qed.

Ltac hsolve :=
  unfold owned, allocated, origin in *; simpl in *; intuition (auto; try lia).

Ltac hmono :=
  solve [
  repeat first [ assumption
               | apply mono_owned
               | apply mono_origin
               | apply mono_origin_opt
               | apply mono_solution_post
               | apply mono_and
               | apply mono_or
               | apply mono_const ] ].

Lemma hoare_bind_lift {A B} n (P : store -> Prop) (r : result A) (f : A -> M B)
  (R : B -> store -> Prop) :
  (forall a, r = Ok a -> hoare n P (f a) R) -> hoare n P (bind (lift r) f) R.
Proof.
  intros H. destruct r as [a|e].
  - intros st Hn Hp. rewrite bind_lift_ok. now apply H.
  - intros st Hn Hp. split; [apply grows_refl|exact I].
Qed.

Lemma hoare_bind_value {B} n (P : store -> Prop) (t : tensor) (f : tval -> M B)
  (R : B -> store -> Prop) :
  (forall v, hoare n P (f v) R) -> hoare n P (bind (get_value t) f) R.
Proof. intros H st Hn Hp. apply (H (load st t)); assumption. Qed.

Lemma hoare_bind_alloc {B} n (P : store -> Prop) (m : M tensor) (f : tensor -> M B)
  (R : B -> store -> Prop) :
  allocating m -> mono P ->
  (forall t, hoare n (fun st => P st /\ owned n st t) (f t) R) ->
  hoare n P (bind m f) R.
Proof.
  intros Hm HP Hf. eapply hoare_bind; [apply hoare_alloc; eassumption|].
  exact Hf.
Qed.

Lemma hoare_bind_inplace {B} n (P : store -> Prop) g (a b : tensor) (f : unit -> M B)
  (R : B -> store -> Prop) :
  (forall st, P st -> (n <= storage a)%nat) -> mono P ->
  (forall u, hoare n P (f u) R) ->
  hoare n P (bind (t_inplace g a b) f) R.
Proof.
  intros Ha HP Hf. eapply hoare_bind; [apply hoare_inplace; eassumption|].
  exact Hf.
Qed.

Lemma t_slice_storage ax k t r : t_slice ax k t = Ok r -> storage r = storage t.
Proof.
  unfold t_slice. destruct (ax <? length (tshape t))%nat; intros H; inversion H.
  reflexivity.
Qed.

Lemma t_transpose_storage i j t r : t_transpose i j t = Ok r -> storage r = storage t.
Proof.
  unfold t_transpose.
  destruct ((i <? length (tshape t)) && (j <? length (tshape t)))%nat%bool;
    intros H; inversion H. reflexivity.
Qed.

Section ProgramRules.
Variable T : torch_lib.
Variable n : nat.

Lemma hoare_svd (P : store -> Prop) W :
mono P ->
hoare n P (t_svd T W)
  (fun x st => P st /\ owned n st (fst (fst x)) /\ owned n st (snd (fst x))
               /\ owned n st (snd x)).
Proof.
intros HP st Hn Hp. unfold t_svd, bind, get_value, lift.
destruct (svd T (load st W)) as [[[vU vs] vVt]|e]; simpl.
2:{ split; [apply grows_refl|exact I]. }
split.
- rewrite <- !app_assoc. now apply grows_app.
- split; [apply (HP st); [rewrite !length_app; lia|assumption]|].
  unfold owned. simpl. rewrite !length_app. simpl. lia.
Qed.

Lemma hoare_reshape (P : store -> Prop) t spec :
mono P ->
hoare n P (t_reshape T t spec)
  (fun r st => P st /\ (storage r = storage t \/ owned n st r)).
Proof.
intros HP. unfold t_reshape. apply hoare_bind_lift. intros s Hs.
destruct (reshape_views T t s).
- apply hoare_ret. intros st Hp. split; [assumption|]. left. reflexivity.
- apply hoare_bind_value. intros v.
  eapply hoare_weaken; [apply hoare_alloc; [|exact HP]| |].
  + intros st. left. eexists. reflexivity.
  + auto.
  + intros r st [Hp Ho]. auto.
Qed.

Lemma hoare_svd_initialize (P : store -> Prop) Wa Wb k :
mono P ->
hoare n P (_svd_initialize T Wa Wb k)
  (fun x st => P st /\ owned n st (fst x) /\ owned n st (snd x)).
Proof.
intros HP. unfold _svd_initialize.
eapply hoare_bind with (Q := fun _ st => P st).
{ destruct Wb as [wb|].
  - eapply hoare_weaken; [apply hoare_alloc; [apply allocating_matmul|exact HP]| |].
    + auto.
    + intros a st [H _]. exact H.
  - apply hoare_ret. auto. }
intros W. eapply hoare_bind; [apply hoare_svd; exact HP|].
intros [[U s] Vt]. simpl.
apply hoare_bind_lift. intros kz Hkz.
apply hoare_bind_lift. intros wa Hwa. apply t_slice_storage in Hwa.
apply hoare_bind_lift. intros wb Hwb. apply t_slice_storage in Hwb.
apply hoare_bind_lift. intros sk Hsk.
apply hoare_bind_alloc; [apply allocating_sqrt|hmono|]. intros s_sqrt.
apply hoare_bind_inplace; [intros st; hsolve|hmono|]. intros _.
eapply hoare_bind; [apply hoare_reshape; hmono|]. intros col. simpl.
apply hoare_bind_inplace; [intros st; hsolve|hmono|]. intros _.
apply hoare_ret. intros st. hsolve.
Qed.

Lemma hoare_als_sweeps (P : store -> Prop) X Y Ya : forall sweeps Wa Wb,
mono P ->
hoare n (fun st => P st /\ owned n st Wa /\ owned n st Wb)
  (als_sweeps T sweeps X Y Ya Wa Wb)
  (fun x st => P st /\ owned n st (fst x) /\ owned n st (snd x)).
Proof.
induction sweeps as [|sweeps IH]; intros Wa Wb HP; simpl.
- apply hoare_ret. auto.
- apply hoare_bind_alloc; [apply allocating_matmul|hmono|]. intros Xb.
  apply hoare_bind_alloc; [apply allocating_lstsq|hmono|]. intros Wb'.
  apply hoare_bind_alloc; [apply allocating_lstsq|hmono|]. intros Wa_T.
  eapply hoare_weaken; [apply (IH (t_T Wa_T) Wb' HP)| |].
  + intros st. hsolve.
  + auto.
Qed.

End ProgramRules.

Section MatrixRules.
Variable T : torch_lib.
Variable n : nat.
Import LowRankSolution.

Lemma hoare_nmse (P : store -> Prop) Y Y_hat :
mono P -> hoare n P (_nmse Y Y_hat) (fun _ st => P st).
Proof.
intros HP. unfold _nmse.
apply hoare_bind_alloc; [apply allocating_binop|hmono|]. intros diffs.
apply hoare_bind_alloc; [apply allocating_binop|hmono|]. intros sq.
apply hoare_bind_value. intros vsq. apply hoare_bind_value. intros vY.
apply hoare_ret. intros st. hsolve.
Qed.

Lemma hoare_epilogue (P : store -> Prop) X Y ob ret1 k Wa Wb :
mono P ->
hoare n P (epilogue X Y ob ret1 k Wa Wb) (epilogue_post n P k Wa Wb).
Proof.
intros HP. unfold epilogue.
apply hoare_bind_alloc; [apply allocating_matmul|hmono|]. intros XWa.
apply hoare_bind_alloc; [apply allocating_matmul|hmono|]. intros Y_hat.
apply hoare_bind_alloc; [apply allocating_binop|hmono|]. intros resid.
apply hoare_bind_alloc; [apply allocating_mean0|hmono|]. intros b.
eapply hoare_bind
  with (Q := fun _ st => (((P st /\ owned n st XWa) /\ owned n st Y_hat)
                          /\ owned n st resid) /\ owned n st b).
{ destruct ob as [ob|].
  - apply hoare_inplace; [intros st; hsolve|hmono].
  - apply hoare_ret. auto. }
intros _.
apply hoare_bind_inplace; [intros st; hsolve|hmono|]. intros _.
eapply hoare_bind; [apply hoare_nmse; hmono|]. intros e. simpl.
apply hoare_ret. intros st H. split; [hsolve|].
exists b, e. split; [reflexivity|]. hsolve.
Qed.

Lemma hoare_iterative (P : store -> Prop) X Y Wa Wb ob ret1 k n_iters :
mono P ->
hoare n P (iterative T X Y Wa Wb ob ret1 k n_iters) (iterative_post n P k).
Proof.
intros HP. unfold iterative.
eapply hoare_bind; [apply hoare_svd_initialize; exact HP|].
intros [wa0 wb0]. simpl.
apply hoare_bind_alloc; [apply allocating_lstsq|hmono|]. intros Ya.
eapply hoare_bind.
{ eapply hoare_weaken;
    [apply (@hoare_als_sweeps T n P X Y Ya (Z.to_nat n_iters) wa0 wb0 HP)| |].
  - intros st. hsolve.
  - intros a st H. exact H. }
intros [wa wb]. simpl.
eapply hoare_weaken;
  [apply hoare_epilogue
     with (P := fun st => P st /\ owned n st wa /\ owned n st wb); hmono
  |auto|].
intros r st [[Hp [Ha Hb]] (b & e & -> & Hbias)].
split; [exact Hp|]. exists wa, wb, b, e. auto.
Qed.

Lemma iterative_solution (P : store -> Prop) L k r st :
iterative_post n P k r st -> solution_post n P L r st.
Proof.
intros (Hp & wa & wb & b & e & -> & Ha & Hb & Hbias).
split; [assumption|]. unfold tensors. simpl.
repeat (apply Forall_cons; [simpl; left; assumption|]). apply Forall_nil.
Qed.

Lemma hoare_branches (P : store -> Prop) L X Y Wa Wb ob k n_iters :
mono P ->
origin_opt n L [] (Some Wa) -> origin_opt n L [] Wb -> origin_opt n L [] ob ->
hoare n P (branches T X Y Wa Wb ob (set_bias default ob) k n_iters)
  (solution_post n P L).
Proof.
intros HP HWa HWb Hob.
assert (Hin : forall o st, origin_opt n L [] o -> origin_opt n L st o).
{ intros [t|] st; simpl; [|auto]. unfold origin, owned. simpl. intuition lia. }
unfold branches.
apply hoare_bind_lift. intros D HD.
eapply hoare_bind with (Q := fun _ st => P st).
{ destruct (num_ge k D).
  - apply hoare_ret. auto.
  - apply hoare_bind_lift. intros Mo HMo. apply hoare_ret. auto. }
intros [|].
- apply hoare_bind_alloc; [apply allocating_lstsq|exact HP|]. intros wa.
  apply hoare_ret. intros st [Hp Ho]. split; [assumption|].
  unfold tensors. simpl.
  apply Forall_cons; [simpl; left; assumption|].
  apply Forall_cons; [exact I|].
  apply Forall_cons; [apply Hin; assumption|]. apply Forall_nil.
- apply hoare_bind_lift. intros d Hd.
  destruct (num_ge k d).
  + apply hoare_ret. intros st Hp. split; [assumption|].
    unfold tensors. simpl.
    repeat (apply Forall_cons; [apply Hin; assumption|]). apply Forall_nil.
  + eapply hoare_weaken; [apply hoare_iterative; exact HP|auto|].
    intros r st. apply iterative_solution.
Qed.

Lemma hoare_prologue (P : store -> Prop) Y bias :
mono P ->
hoare n P (prologue Y bias)
  (fun x st => P st /\ fst (fst x) = bias /\ snd x = set_bias default bias).
Proof.
intros HP. unfold prologue. destruct bias as [b|].
- apply hoare_bind_alloc; [apply allocating_binop|exact HP|]. intros Y'.
  apply hoare_ret. intros st [Hp _]. auto.
- apply hoare_ret. auto.
Qed.

Lemma hoare_factorize_matrix (P : store -> Prop) L X Y Wa Wb bias rank n_iters :
mono P ->
origin_opt n L [] (Some Wa) -> origin_opt n L [] Wb -> origin_opt n L [] bias ->
hoare n P (factorize_matrix T X Y Wa Wb bias rank n_iters) (solution_post n P L).
Proof.
intros HP HWa HWb Hb. rewrite factorize_matrix_eq.
apply hoare_bind_lift. intros k Hk.
eapply hoare_bind; [apply hoare_prologue; exact HP|].
intros [[ob Y'] ret1]. simpl.
intros st Hn (Hp & -> & ->). revert st Hn Hp.
now apply hoare_branches.
Qed.

End MatrixRules.

Section ConvRules.
Variable T : torch_lib.
Variable n : nat.
Import LowRankSolution.

Lemma hoare_activations (P : store -> Prop) activations kernel_size kw :
mono P ->
hoare n P (_activations_conv2d_to_mat T activations kernel_size kw)
  (fun r st => P st /\ owned n st r).
Proof.
intros HP. unfold _activations_conv2d_to_mat.
apply hoare_bind_lift. intros ms Hms.
destruct (ms >? 1)%Z; [apply hoare_raise|].
apply hoare_bind_lift. intros md Hmd.
destruct (md >? 1)%Z; [apply hoare_raise|].
destruct (negb (groups kw =? 1)%Z); [apply hoare_raise|].
apply hoare_bind_lift. intros mp Hmp.
eapply hoare_bind with (Q := fun _ st => P st).
{ destruct ((mp >? 0)%Z && negb (is_zeros (padding_mode kw)))%bool.
  - apply hoare_bind_alloc; [apply allocating_pad|exact HP|]. intros a.
    apply hoare_ret. intros st [Hp _]. exact Hp.
  - apply hoare_ret. auto. }
intros [activations' padding']. simpl.
apply hoare_bind_alloc; [apply allocating_unfold|exact HP|]. intros r.
apply hoare_bind_lift. intros r' Hr'. apply t_transpose_storage in Hr'.
apply hoare_bind_lift. intros fan_in Hf.
eapply hoare_weaken; [apply (@hoare_reshape T n (fun st => P st /\ owned n st r))| |].
- hmono.
- auto.
- intros x st. hsolve.
Qed.

Lemma hoare_weights_to_mat (P : store -> Prop) weights :
mono P ->
hoare n P (_weights_conv2d_to_mat T weights)
  (fun r st => P st /\ (storage r = storage weights \/ owned n st r)).
Proof.
intros HP. unfold _weights_conv2d_to_mat.
apply hoare_bind_lift. intros o Ho.
eapply hoare_bind; [apply hoare_reshape; exact HP|]. intros r. simpl.
apply hoare_ret. intros st. unfold t_T. hsolve.
Qed.

Lemma hoare_mat_to_weights (P : store -> Prop) mat kernel_size :
mono P ->
hoare n P (_mat_to_weights_conv2d T mat kernel_size)
  (fun r st =>
     P st /\ match r, mat with
             | Some r, Some m => storage r = storage m \/ owned n st r
             | None, None => True
             | _, _ => False
             end).
Proof.
intros HP. unfold _mat_to_weights_conv2d. destruct mat as [m|].
- apply hoare_bind_lift. intros o Ho.
  eapply hoare_bind; [apply hoare_reshape; exact HP|]. intros r. simpl.
  apply hoare_ret. intros st. unfold t_T. hsolve.
- apply hoare_ret. auto.
Qed.

(** A tensor that comes from tensors that themselves come from [L],
  comes from [L]. *)
Lemma origin_through L L' st t :
origin n L' st t ->
(forall l, In l L' -> In l L \/ (n <= l < length st)%nat) ->
origin n L st t.
Proof.
intros [Ho|Hin] HL; [left; exact Ho|].
destruct (HL _ Hin) as [H|H]; [right; exact H|left; exact H].
Qed.

Lemma origin_of_view L t r st :
In (storage t) L -> storage r = storage t \/ owned n st r -> origin n L st r.
Proof. intros Hin [H|H]; [right; now rewrite H|left; exact H]. Qed.

Lemma origin_of_origin L t r st :
origin n L st t -> storage r = storage t \/ owned n st r -> origin n L st r.
Proof.
intros Ho [H|H]; [|left; exact H].
unfold origin, owned in *. now rewrite H.
Qed.

Lemma hoare_factorize_conv2d (P : store -> Prop) inputs Wa Wb rank biasA biasB
n_iters kw :
mono P ->
hoare n P (factorize_conv2d T inputs Wa Wb rank biasA biasB n_iters kw)
  (solution_post n P (storages [Some inputs; Some Wa; Wb; biasA; biasB])).
Proof.
intros HP. unfold factorize_conv2d, detach.
remember (storages [Some inputs; Some Wa; Wb; biasA; biasB]) as L eqn:EL.
assert (HinWa : In (storage Wa) L) by (subst L; simpl; auto).
assert (HinWb : forall wb, Wb = Some wb -> In (storage wb) L).
{ intros wb ->. subst L. simpl. auto. }
clear EL.
eapply hoare_bind; [apply hoare_activations; exact HP|]. intros X_mat. simpl.
eapply hoare_bind; [apply hoare_weights_to_mat; hmono|]. intros Wa_m. simpl.
apply hoare_pre with (P' := fun st => P st /\ origin n L st Wa_m).
2:{ intros st [[Hp _] Hv]. split; [exact Hp|]. eapply origin_of_view; eassumption. }
apply hoare_bind_alloc; [apply allocating_matmul|hmono|]. intros Y_mat.
eapply hoare_bind
  with (Q := fun _ st => (P st /\ origin n L st Wa_m) /\ owned n st Y_mat).
{ destruct biasA as [bA|].
  - apply hoare_inplace; [|hmono]. intros st [_ [H _]]. exact H.
  - apply hoare_ret. auto. }
intros _.
eapply hoare_bind
  with (Q := fun x st => (P st /\ origin n L st Wa_m) /\ origin_opt n L st (fst x)).
{ destruct Wb as [wb|].
  - specialize (HinWb wb eq_refl).
    eapply hoare_bind; [apply hoare_weights_to_mat; hmono|]. intros Wb_m. simpl.
    apply hoare_pre
      with (P' := fun st => (P st /\ origin n L st Wa_m) /\ origin n L st Wb_m).
    2:{ intros st [[Hp _] Hv]. split; [exact Hp|]. eapply origin_of_view; eassumption. }
    apply hoare_bind_alloc; [apply allocating_matmul|hmono|]. intros Y_mat'.
    eapply hoare_bind
      with (Q := fun _ st => (P st /\ origin n L st Wa_m) /\ origin n L st Wb_m).
    { destruct biasB as [bB|].
      - eapply hoare_weaken; [apply hoare_inplace with (P := fun st =>
            ((P st /\ origin n L st Wa_m) /\ origin n L st Wb_m)
            /\ owned n st Y_mat')| |].
        + intros st [_ [H _]]. exact H.
        + hmono.
        + auto.
        + intros a st [H _]. exact H.
      - apply hoare_ret. intros st [H _]. exact H. }
    intros _. apply hoare_ret. intros st H. exact H.
  - destruct biasB as [bB|]; [apply hoare_raise|].
    apply hoare_ret. intros st [H _]. split; [exact H|exact I]. }
intros [Wb_m Y_mat']. simpl.
set (C := fun st => (P st /\ origin n L st Wa_m) /\ origin_opt n L st Wb_m).
assert (HC : mono C) by (unfold C; hmono).
eapply hoare_bind.
{ apply (@hoare_factorize_matrix T n C (storages [Some Wa_m; Wb_m; None])).
  - exact HC.
  - simpl. right. destruct Wb_m; simpl; auto.
  - destruct Wb_m as [t|]; simpl; [|exact I]. right. simpl. auto.
  - exact I. }
intros r. simpl.
assert (Hthrough : forall st t,
           C st -> origin n (storages [Some Wa_m; Wb_m; None]) st t ->
           origin n L st t).
{ intros st t [[Hp Ha] Hb] Ho. eapply origin_through; [exact Ho|].
  intros l Hl. destruct Wb_m as [wbm|]; simpl in Hl, Hb.
  - destruct Hl as [<-|[<-|[]]].
    + destruct Ha as [Ha|Ha]; [right; exact Ha|left; exact Ha].
    + destruct Hb as [Hb|Hb]; [right; exact Hb|left; exact Hb].
  - destruct Hl as [<-|[]].
    destruct Ha as [Ha|Ha]; [right; exact Ha|left; exact Ha]. }
apply hoare_pre with (P' := fun st => P st /\ Forall (origin_opt n L st) (tensors r)).
2:{ intros st [HCst Hsol]. split; [apply HCst|].
    eapply Forall_impl; [|exact Hsol].
    intros [t|]; simpl; [|auto]. apply Hthrough. exact HCst. }
assert (Hsolmono : mono (fun st => P st /\ Forall (origin_opt n L st) (tensors r)))
  by (apply mono_solution_post; exact HP).
eapply hoare_bind; [apply hoare_mat_to_weights; exact Hsolmono|].
intros a. simpl.
apply hoare_pre
  with (P' := fun st => (P st /\ Forall (origin_opt n L st) (tensors r))
                        /\ origin_opt n L st a).
2:{ intros st [[Hp Hsol] Ha]. split; [split; assumption|].
    destruct a as [a|]; [|exact I]. simpl.
    unfold tensors in Hsol. inversion Hsol as [|? ? HWa _]; subst.
    destruct (LowRankSolution.Wa r) as [m|]; [|contradiction].
    eapply origin_of_origin; eassumption. }
eapply hoare_bind; [apply hoare_mat_to_weights; hmono|].
intros b. simpl.
apply hoare_ret. intros st [[[Hp Hsol] Ha] Hb].
split; [exact Hp|]. unfold tensors in *. simpl in *.
inversion Hsol as [|? ? HWa Hsol1]; subst.
inversion Hsol1 as [|? ? HWb Hsol2]; subst.
inversion Hsol2 as [|? ? Hbias _]; subst.
apply Forall_cons; [exact Ha|].
apply Forall_cons; [|apply Forall_cons; [exact Hbias|apply Forall_nil]].
destruct b as [b|]; [|exact I]. simpl.
destruct (LowRankSolution.Wb r) as [m|]; [|contradiction].
eapply origin_of_origin; eassumption.
Qed.

End ConvRules.

(** ** Caller-owned tensors *)

Lemma grows_load n st st' t :
  grows n st st' -> (storage t < n)%nat -> load st' t = load st t.
Proof.
  intros [_ H] Ht. unfold load. now rewrite (H _ Ht).
Qed.

Lemma origin_opt_supplied n (L : list (option tensor)) (o : option tensor) :
  In o L -> origin_opt n (storages L) [] o.
Proof.
  intros Hin. destruct o as [t|]; simpl; [|exact I]. right.
  unfold storages. apply in_flat_map. exists (Some t). split; [exact Hin|].
  simpl. auto.
Qed.

(** C7, as the code has it.  Whatever the outcome of a call to
    [factorize_matrix] or [factorize_conv2d], every tensor that existed
    before the call has afterwards the values it had.  Each tensor of a
    solution returned is on a storage the call allocated, or on the storage of
    one of the tensors supplied. *)
Theorem caller_tensors_untouched :
  forall T st,
    (forall X Y Wa Wb bias rank n_iters,
        let out := factorize_matrix T X Y Wa Wb bias rank n_iters st in
        (forall t, allocated st t -> load (snd out) t = load st t)
        /\ match fst out with
           | Ok r =>
               Forall (origin_opt (length st) (storages [Some Wa; Wb; bias]) (snd out))
                      (tensors r)
           | Err _ => True
           end)
    /\
    (forall inputs Wa Wb rank biasA biasB n_iters kw,
        let out := factorize_conv2d T inputs Wa Wb rank biasA biasB n_iters kw st in
        (forall t, allocated st t -> load (snd out) t = load st t)
        /\ match fst out with
           | Ok r =>
               Forall (origin_opt (length st)
                         (storages [Some inputs; Some Wa; Wb; biasA; biasB]) (snd out))
                      (tensors r)
           | Err _ => True
           end).
Proof.
  intros T st. split.
  - intros X Y Wa Wb bias rank n_iters out.
    destruct (@hoare_factorize_matrix T (length st) (fun _ => True)
                (storages [Some Wa; Wb; bias]) X Y Wa Wb bias rank n_iters)
      with (st := st) as [G H]; auto.
    + apply mono_const.
    + apply origin_opt_supplied. simpl. auto.
    + apply origin_opt_supplied. simpl. auto.
    + apply origin_opt_supplied. simpl. auto.
    + split.
      * intros t Ht. eapply grows_load; [exact G|exact Ht].
      * fold out in H. destruct (fst out); [apply H|exact I].
  - intros inputs Wa Wb rank biasA biasB n_iters kw out.
    destruct (@hoare_factorize_conv2d T (length st) (fun _ => True)
                inputs Wa Wb rank biasA biasB n_iters kw)
      with (st := st) as [G H]; auto.
    + apply mono_const.
    + split.
      * intros t Ht. eapply grows_load; [exact G|exact Ht].
      * fold out in H. destruct (fst out); [apply H|exact I].
Qed.

(** C7, as the claim has it, fails: the [Wa] returned for the rank-1 pair
    asked for rank 1 again is the tensor supplied, on the storage it had
    before the call. *)
Lemma returned_factor_is_the_callers :
  exists r st' wa,
    factorize_matrix Reference.lib Examples.X23 Examples.Y23 Examples.Wa31
      (Some Examples.Wb13) None (RInt 1) 3 Examples.st_pair = (Ok r, st')
    /\ LowRankSolution.Wa r = Some wa
    /\ storage wa = storage Examples.Wa31
    /\ allocated Examples.st_pair wa
    /\ ~ owned (length Examples.st_pair) st' wa.
Proof.
  eexists _, _, _. split; [vm_compute; reflexivity|].
  split; [reflexivity|]. split; [reflexivity|].
  split; unfold allocated, owned; simpl; lia.
Qed.

(** ** The values the iterative path leaves in the store *)

Lemma hoare_run {A} n (P : store -> Prop) (m : M A) (Q : A -> store -> Prop) st a st' :
  hoare n P m Q -> (n <= length st)%nat -> P st -> m st = (Ok a, st') ->
  grows n st st' /\ Q a st'.
Proof.
  intros H Hn Hp E. specialize (H st Hn Hp). rewrite E in H. exact H.
Qed.

Lemma t_matmul_inv a b st r st' :
  t_matmul a b st = (Ok r, st') ->
  exists v, v_matmul (load st a) (load st b) = Ok v
            /\ r = fresh_tensor st v /\ st' = st ++ [elems v].
Proof.
  unfold t_matmul, bind, get_value, lift.
  destruct (v_matmul (load st a) (load st b)) as [v|e]; [|discriminate].
  rewrite fresh_run. intros H. inversion H. eauto.
Qed.

Lemma t_binop_inv f a b st r st' :
  t_binop f a b st = (Ok r, st') ->
  exists v, v_binop f (load st a) (load st b) = Ok v
            /\ r = fresh_tensor st v /\ st' = st ++ [elems v].
Proof.
  unfold t_binop, bind, get_value, lift.
  destruct (v_binop f (load st a) (load st b)) as [v|e]; [|discriminate].
  rewrite fresh_run. intros H. inversion H. eauto.
Qed.

Lemma t_mean0_inv a st r st' :
  t_mean0 a st = (Ok r, st') ->
  exists v, v_mean0 (load st a) = Ok v
            /\ r = fresh_tensor st v /\ st' = st ++ [elems v].
Proof.
  unfold t_mean0, bind, get_value, lift.
  destruct (v_mean0 (load st a)) as [v|e]; [|discriminate].
  rewrite fresh_run. intros H. inversion H. eauto.
Qed.

Lemma t_inplace_inv f a b st u st' :
  t_inplace f a b st = (Ok u, st') ->
  exists vals, v_binop_inplace f (load st a) (load st b) = Ok vals
               /\ st' = write_view a vals st.
Proof.
  unfold t_inplace.
  destruct (v_binop_inplace f (load st a) (load st b)) as [vals|e]; [|discriminate].
  intros H. inversion H. eauto.
Qed.

Lemma _nmse_inv Y Y_hat st e st' :
  _nmse Y Y_hat st = (Ok e, st') -> exists ext, st' = st ++ ext.
Proof.
  unfold _nmse. intros H.
  inv_bind H. apply t_binop_inv in Hstep. destruct Hstep as (v1 & _ & _ & ->).
  inv_bind H. apply t_binop_inv in Hstep. destruct Hstep as (v2 & _ & _ & ->).
  unfold bind, get_value, ret in H. inversion H; subst.
  rewrite <- app_assoc. eauto.
Qed.

Lemma load_fresh_tensor st v ext :
  load ((st ++ [elems v]) ++ ext) (fresh_tensor st v) = v.
Proof.
  rewrite load_app; [apply load_fresh|].
  unfold allocated, fresh_tensor. simpl. rewrite length_app. simpl. lia.
Qed.

Lemma load_write_other a vals st t :
  storage t <> storage a -> load (write_view a vals st) t = load st t.
Proof.
  intros H. unfold load, write_view. rewrite nth_set_nth_other; auto.
Qed.

Lemma length_scatter idxs : forall vals old,
  length (scatter idxs vals old) = length old.
Proof.
  unfold scatter. intros vals. generalize (combine idxs vals) as l.
  induction l as [|[p x] l IH]; intros old; simpl; [reflexivity|].
  now rewrite IH, length_set_nth.
Qed.

Lemma nth_scatter_seq (vals : list Q) : forall (old : list Q) start i,
  length old = (start + length vals)%nat ->
  (start <= i < start + length vals)%nat ->
  nth i (scatter (seq start (length vals)) vals old) 0 = nth (i - start) vals 0.
Proof.
  unfold scatter.
  induction vals as [|x vals IH]; intros old start i Hlen Hi; simpl in *; [lia|].
  destruct (Nat.eq_dec i start) as [->|Hne].
  - rewrite Nat.sub_diag.
    assert (Hkeep : forall (l : list (nat * Q)) (o : list Q),
               Forall (fun pv => fst pv <> start) l ->
               nth start (fold_left (fun acc pv => set_nth (fst pv) (snd pv) acc) l o) 0
               = nth start o 0).
    { induction l as [|[p y] l IHl]; intros o Hall; simpl; [reflexivity|].
      inversion Hall; subst. rewrite IHl by assumption.
      apply nth_set_nth_other. simpl in *. auto. }
    rewrite Hkeep.
    + apply nth_set_nth_same. lia.
    + apply Forall_forall. intros [p y] Hin. apply in_combine_l in Hin.
      apply in_seq in Hin. simpl. lia.
  - rewrite (IH (set_nth start x old) (S start) i).
    + destruct (i - start)%nat as [|j] eqn:E; [lia|].
      replace (i - S start)%nat with j by lia. reflexivity.
    + rewrite length_set_nth. lia.
    + lia.
Qed.

Lemma scatter_seq (vals old : list Q) :
  length old = length vals -> scatter (seq 0 (length vals)) vals old = vals.
Proof.
  intros Hlen. apply nth_ext with (d := 0) (d' := 0).
  - now rewrite length_scatter.
  - intros i Hi. rewrite length_scatter in Hi.
    rewrite nth_scatter_seq by lia. f_equal. lia.
Qed.

Lemma load_write_fresh st v ext vals :
  length vals = length (elems v) ->
  load (write_view (fresh_tensor st v) vals ((st ++ [elems v]) ++ ext))
       (fresh_tensor st v)
  = mkArr (shape v) vals.
Proof.
  intros Hlen. unfold load, write_view, fresh_tensor, tshape. simpl.
  rewrite nth_set_nth_same by (rewrite !length_app; simpl; lia).
  rewrite <- app_assoc. change ([elems v] ++ ext) with (elems v :: ext).
  rewrite nth_middle.
  rewrite <- Hlen, scatter_seq by lia.
  now rewrite map_nth_seq.
Qed.

Lemma v_mean0_length a m : v_mean0 a = Ok m -> length (elems m) = numel (shape m).
Proof.
  unfold v_mean0. destruct (shape a) as [|d rest]; [discriminate|].
  intros H. inversion H. simpl. now rewrite length_map, length_seq.
Qed.

Lemma v_binop_inplace_spec f a b vals :
  v_binop_inplace f a b = Ok vals ->
  v_binop f a b = Ok (mkArr (shape a) vals) /\ length vals = numel (shape a).
Proof.
  unfold v_binop_inplace, v_binop.
  destruct (broadcast_shapes (shape a) (shape b)) as [s|]; [|discriminate].
  destruct (list_eq_dec Nat.eq_dec s (shape a)) as [->|]; [|discriminate].
  intros H. inversion H. split; [reflexivity|].
  unfold broadcast_elems. now rewrite length_map, length_all_indices.
Qed.

Lemma allocated_app st ext t : allocated st t -> allocated (st ++ ext) t.
Proof. unfold allocated. rewrite length_app. lia. Qed.

Lemma allocated_fresh st v ext : allocated ((st ++ [elems v]) ++ ext) (fresh_tensor st v).
Proof. unfold allocated, fresh_tensor. simpl. rewrite !length_app. simpl. lia. Qed.

Lemma allocated_fresh0 st v : allocated (st ++ [elems v]) (fresh_tensor st v).
Proof. unfold allocated, fresh_tensor. simpl. rewrite !length_app. simpl. lia. Qed.

Lemma length_write_view a vals st : length (write_view a vals st) = length st.
Proof. unfold write_view. apply length_set_nth. Qed.

Section EpilogueValues.
Import LowRankSolution.

(** The bias the iterative path returns is the mean over the samples of
  the residual of the target, plus the bias supplied. *)
Lemma epilogue_values X Y ob ret1 k Wa Wb st r st' :
epilogue X Y ob ret1 k Wa Wb st = (Ok r, st') ->
allocated st Y -> allocated st Wb -> allocated_opt st ob ->
exists b e h h' resid m,
  r = mk (Some Wa) (Some Wb) (Some b) k e
  /\ v_matmul (load st X) (load st Wa) = Ok h
  /\ v_matmul h (load st Wb) = Ok h'
  /\ v_binop Qminus (load st Y) h' = Ok resid
  /\ v_mean0 resid = Ok m
  /\ match ob with
     | None => load st' b = m
     | Some o => v_binop Qplus m (load st o) = Ok (load st' b)
     end.
Proof.
unfold epilogue. intros H AY AWb Aob.
inv_bind H. apply t_matmul_inv in Hstep. destruct Hstep as (h & Hh & -> & ->).
inv_bind H. apply t_matmul_inv in Hstep. destruct Hstep as (h' & Hh' & -> & ->).
rewrite load_fresh, (load_app _ AWb) in Hh'.
inv_bind H. apply t_binop_inv in Hstep. destruct Hstep as (resid & Hres & -> & ->).
rewrite load_fresh, !load_app in Hres by (repeat apply allocated_app; assumption).
inv_bind H. apply t_mean0_inv in Hstep. destruct Hstep as (m & Hm & -> & ->).
rewrite load_fresh in Hm.
set (s5 := st ++ [elems h]) in *.
set (s6 := s5 ++ [elems h']) in *.
set (s7 := s6 ++ [elems resid]) in *.
inv_bind H. inv_bind H. inv_bind H. inversion H; subst; clear H.
apply t_inplace_inv in Hstep0. destruct Hstep0 as (vals2 & _ & ->).
apply _nmse_inv in Hstep1. destruct Hstep1 as (ext & ->).
eexists (fresh_tensor s7 m), _, h, h', resid, m.
split; [reflexivity|]. split; [exact Hh|]. split; [exact Hh'|].
split; [exact Hres|]. split; [exact Hm|].
assert (Hother : storage (fresh_tensor s7 m) <> storage (fresh_tensor s5 h')).
{ unfold fresh_tensor, s7, s6. simpl. rewrite !length_app. simpl. lia. }
destruct ob as [o|].
- apply t_inplace_inv in Hstep. destruct Hstep as (vals & Hvals & ->).
  rewrite load_fresh in Hvals. unfold s7, s6, s5 in Hvals.
  rewrite !load_app in Hvals by (repeat apply allocated_app; exact Aob).
  apply v_binop_inplace_spec in Hvals. destruct Hvals as [Hv Hlen].
  rewrite Hv. f_equal.
  rewrite load_app
    by (unfold allocated; rewrite !length_write_view; apply (allocated_fresh0 s7 m)).
  rewrite load_write_other by exact Hother.
  rewrite <- (app_nil_r (s7 ++ [elems m])).
  rewrite load_write_fresh; [reflexivity|].
  rewrite Hlen. symmetry. exact (v_mean0_length _ Hm).
- unfold ret in Hstep. inversion Hstep; subst.
  rewrite load_app
    by (unfold allocated; rewrite length_write_view; apply (allocated_fresh0 s7 m)).
  rewrite load_write_other by exact Hother.
  apply load_fresh.
Qed.

End EpilogueValues.

Section ReturnedBias.
Variable T : torch_lib.
Import LowRankSolution.

(** C10.  On a valid call that returns, on the iterative path (the
  resolved rank below the columns of [X], of [Y] and of [Wa]) the solution
  has a bias, whether or not one was supplied: the mean over the samples of
  the residual between the target ([Y] less the supplied bias) and
  [X @ Wa @ Wb] for the factors returned, plus the supplied bias when there
  is one.  From the two degenerate branches the bias returned is the bias
  supplied, absent when none was. *)
Theorem returned_bias :
forall X Y Wa Wb bias rank n_iters st N D Mo d k r st',
  tshape X = [N; D] -> tshape Y = [N; Mo] -> bias_fits bias Mo ->
  shape_at (tshape Wa) 1 = Ok d ->
  allocated st X -> allocated st Y -> allocated_opt st bias ->
  resolve_rank X Wa rank = Ok k ->
  factorize_matrix T X Y Wa Wb bias rank n_iters st = (Ok r, st') ->
  if (num_ge k D || num_ge k Mo || num_ge k d)%bool
  then LowRankSolution.bias r = bias
  else
    exists wa wb b Yv h h' resid m,
      LowRankSolution.Wa r = Some wa
      /\ LowRankSolution.Wb r = Some wb
      /\ LowRankSolution.bias r = Some b
      /\ target_value st Y bias = Ok Yv
      /\ v_matmul (load st X) (load st' wa) = Ok h
      /\ v_matmul h (load st' wb) = Ok h'
      /\ v_binop Qminus Yv h' = Ok resid
      /\ v_mean0 resid = Ok m
      /\ match bias with
         | None => load st' b = m
         | Some supplied => v_binop Qplus m (load st supplied) = Ok (load st' b)
         end.
Proof.
intros X Y Wa Wb bias rank n_iters st N D Mo d k r st'
  HX HY Hb HWa AX AY Ab Hr Hrun.
destruct (@target_value_shape st Y bias N Mo HY Hb) as (Yv & HT & HS).
destruct (@prologue_run st Y bias Yv HT AY) as (Y' & st1 & ext & Hp & -> & AY' & HS' & HL).
rewrite factorize_matrix_eq, Hr, bind_lift_ok, (bind_ok _ _ _ Hp) in Hrun.
rewrite HS in HS'.
destruct (num_ge k D) eqn:ED; [|destruct (num_ge k Mo) eqn:EM]; simpl.
1,2: rewrite (@branches_full_rank T X Y' Wa Wb bias _ k n_iters (st ++ ext) N D Mo)
       in Hrun by (auto; rewrite ?ED, ?EM; auto);
     inversion Hrun; subst; destruct bias; reflexivity.
destruct (num_ge k d) eqn:Ed.
{ rewrite (@branches_keep T X Y' Wa Wb bias _ k n_iters (st ++ ext) D Mo d) in Hrun;
    auto; try (rewrite ?HX, ?HS'; reflexivity).
  inversion Hrun; subst. destruct bias; reflexivity. }
rewrite (@branches_iterative T X Y' Wa Wb bias _ k n_iters (st ++ ext) D Mo d) in Hrun;
  auto; try (rewrite ?HX, ?HS'; reflexivity).
unfold iterative in Hrun.
inv_bind Hrun. destruct a as [wa0 wb0]. rename Hstep into Hsvd, s into s2.
inv_bind Hrun. rename Hstep into Hls, a into Ya, s into s3.
inv_bind Hrun. destruct a as [wa wb]. rename Hstep into Hals, s into s4.
set (st1 := st ++ ext) in *. set (n := length st1).
destruct (@hoare_run _ n _ _ _ st1 _ _
            (@hoare_svd_initialize T n (fun _ => True) Wa Wb k (@mono_const True))
            (le_n n) I Hsvd) as [G1 [_ [O1 O2]]]. simpl in O1, O2.
assert (N2 : (n <= length s2)%nat) by (destruct G1; assumption).
destruct (@hoare_run _ n _ _ _ s2 _ _
            (@hoare_alloc n (fun st => owned n st wa0 /\ owned n st wb0)
               (_lstsq T X Y') (allocating_lstsq T X Y') ltac:(hmono))
            N2 (conj O1 O2) Hls)
  as [G2 [[O1' O2'] _]].
assert (N3 : (n <= length s3)%nat) by (destruct G2; lia).
destruct (@hoare_run _ n _ _ _ s3 _ _
            (@hoare_als_sweeps T n (fun _ => True) X Y' Ya (Z.to_nat n_iters)
               wa0 wb0 (@mono_const True))
            N3 (conj I (conj O1' O2')) Hals) as [G3 [_ [Owa Owb]]].
simpl in Owa, Owb.
assert (G : grows n st1 s4) by (eapply grows_trans; [eapply grows_trans|]; eassumption).
assert (A4 : forall t, allocated st1 t -> allocated s4 t /\ load s4 t = load st1 t).
{ intros t At. split; [unfold allocated in *; destruct G; lia|].
  eapply grows_load; [exact G|exact At]. }
assert (Ab1 : allocated_opt st1 bias).
{ destruct bias; simpl in *; [|exact I]. now apply allocated_app. }
assert (Ab4 : allocated_opt s4 bias).
{ destruct bias; simpl in *; [|exact I]. now apply A4. }
destruct (@epilogue_values X Y' bias _ k wa wb s4 r st' Hrun)
  as (b & e & h & h' & resid & m & -> & Hh & Hh' & Hres & Hm & Hbias).
{ now apply A4. }
{ unfold allocated, owned in *. lia. }
{ exact Ab4. }
destruct (@hoare_run _ (length s4) _ _ _ s4 _ _
            (@hoare_epilogue (length s4) (fun _ => True) X Y' bias
               (set_bias default bias) k wa wb (@mono_const True))
            (le_n _) I Hrun) as [G4 _].
assert (Lwa : load st' wa = load s4 wa).
{ eapply grows_load; [exact G4|]. unfold owned in Owa. lia. }
assert (Lwb : load st' wb = load s4 wb).
{ eapply grows_load; [exact G4|]. unfold owned in Owb. lia. }
assert (LX : load s4 X = load st X).
{ destruct (A4 X) as [_ ->]; [now apply allocated_app|]. now apply load_app. }
assert (LY : load s4 Y' = Yv).
{ destruct (A4 Y' AY') as [_ ->]. exact HL. }
exists wa, wb, b, Yv, h, h', resid, m.
rewrite Lwa, Lwb. rewrite LX in Hh. rewrite LY in Hres.
repeat (split; [first [reflexivity|assumption]|]).
destruct bias as [o|]; [|exact Hbias].
simpl in Ab, Ab1.
destruct (A4 o Ab1) as [_ Lo]. rewrite Lo in Hbias. unfold st1 in Hbias.
rewrite (@load_app st ext o Ab) in Hbias. exact Hbias.
Qed.

End ReturnedBias.

Lemma returned_bias_witness :
  exists r st',
    factorize_matrix Reference.lib Examples.X2 Examples.Y2 Examples.W2 None
      (Some Examples.b2) (RInt 1) 3 Examples.st_bias = (Ok r, st')
    /\ exists wa wb b Yv h h' resid m,
        LowRankSolution.Wa r = Some wa
        /\ LowRankSolution.Wb r = Some wb
        /\ LowRankSolution.bias r = Some b
        /\ target_value Examples.st_bias Examples.Y2 (Some Examples.b2) = Ok Yv
        /\ v_matmul (load Examples.st_bias Examples.X2) (load st' wa) = Ok h
        /\ v_matmul h (load st' wb) = Ok h'
        /\ v_binop Qminus Yv h' = Ok resid
        /\ v_mean0 resid = Ok m
        /\ v_binop Qplus m (load Examples.st_bias Examples.b2) = Ok (load st' b).
Proof.
  eexists _, _. split; [vm_compute; reflexivity|].
  apply (@returned_bias Reference.lib Examples.X2 Examples.Y2 Examples.W2 None
           (Some Examples.b2) (RInt 1) 3 Examples.st_bias 2 2 2 2 (RInt 1));
    first [ reflexivity | unfold allocated; simpl; lia | vm_compute; reflexivity ].
Defined.

(* ================================================================== *)
(** * Further properties of the program *)

(** ** The least-squares helper *)

(** [_lstsq] accepts exactly the pairs of two-dimensional tensors with the
    same number of rows.  On such a pair it returns the kernel's solution in
    a tensor on a new storage, every existing storage left as it was; on any
    other pair it raises [IndexError] and leaves the store untouched. *)
Theorem lstsq_accepts_matrices_of_equal_rows :
  forall T A B st,
    (exists N D Mo,
        tshape A = [N; D] /\ tshape B = [N; Mo]
        /\ _lstsq T A B st
           = (Ok (fresh_tensor st (lstsq_solution T (load st A) (load st B))),
              st ++ [elems (lstsq_solution T (load st A) (load st B))]))
    \/ ((forall N D Mo, ~ (tshape A = [N; D] /\ tshape B = [N; Mo]))
        /\ _lstsq T A B st = (Err IndexError, st)).
Proof.
  intros T A B st.
  destruct (tshape A) as [|N [|D [|x l]]] eqn:EA;
    destruct (tshape B) as [|N' [|Mo [|y l']]] eqn:EB;
    try (right; split;
         [ intros ? ? ? [H1 H2]; discriminate
         | apply _lstsq_mismatch; unfold shape_mismatch; rewrite EA, EB;
           first [left; simpl; lia | right; left; simpl; lia] ]).
  destruct (Nat.eq_dec N N') as [->|Hne].
  - left. exists N', D, Mo. split; [reflexivity|]. split; [reflexivity|].
    rewrite (@_lstsq_run T A B st N' D Mo EA EB). apply fresh_run.
  - right. split.
    + intros ? ? ? [H1 H2]. inversion H1; inversion H2; subst. now apply Hne.
    + apply _lstsq_mismatch. unfold shape_mismatch. rewrite EA, EB.
      right; right. exact Hne.
Qed.

(** ** The three ways out of [factorize_matrix] *)

Lemma prologue_ok_inv Y bias st ob Y' ret1 st1 :
  prologue Y bias st = (Ok (ob, Y', ret1), st1) ->
  ob = bias /\ ret1 = LowRankSolution.set_bias LowRankSolution.default bias.
Proof.
  destruct bias as [b|]; simpl; intros H.
  - inv_bind H. inversion H; subst. split; reflexivity.
  - inversion H; subst. split; reflexivity.
Qed.

Section Outcomes.
Variable T : torch_lib.
Import LowRankSolution.

(** A call of [branches] that returns went through exactly one of the
three paths. *)
Lemma branches_ok_inv X Y Wa Wb ob ret1 k n_iters st r st' :
  branches T X Y Wa Wb ob ret1 k n_iters st = (Ok r, st') ->
  (exists D wa,
      shape_at (tshape X) 1 = Ok D
      /\ (num_ge k D = true
          \/ exists Mo, shape_at (tshape Y) 1 = Ok Mo /\ num_ge k Mo = true)
      /\ _lstsq T X Y st = (Ok wa, st')
      /\ r = set_rank (set_Wa ret1 (Some wa)) sentinel)
  \/ (exists D Mo d,
         shape_at (tshape X) 1 = Ok D /\ shape_at (tshape Y) 1 = Ok Mo
         /\ shape_at (tshape Wa) 1 = Ok d
         /\ num_ge k D = false /\ num_ge k Mo = false /\ num_ge k d = true
         /\ r = set_rank (set_Wb (set_Wa ret1 (Some Wa)) Wb) sentinel /\ st' = st)
  \/ (exists D Mo d,
         shape_at (tshape X) 1 = Ok D /\ shape_at (tshape Y) 1 = Ok Mo
         /\ shape_at (tshape Wa) 1 = Ok d
         /\ num_ge k D = false /\ num_ge k Mo = false /\ num_ge k d = false
         /\ iterative T X Y Wa Wb ob ret1 k n_iters st = (Ok r, st')).
Proof.
  unfold branches. intros H.
  inv_bind H. apply lift_ok_inv in Hstep. destruct Hstep as [HD ->]. rename a into D.
  inv_bind H. rename a into deg.
  assert (Hdeg : s = st
                 /\ (deg = true ->
                     num_ge k D = true
                     \/ exists Mo, shape_at (tshape Y) 1 = Ok Mo /\ num_ge k Mo = true)
                 /\ (deg = false ->
                     num_ge k D = false
                     /\ exists Mo, shape_at (tshape Y) 1 = Ok Mo /\ num_ge k Mo = false)).
  { destruct (num_ge k D) eqn:ED.
    - inversion Hstep; subst. split; [reflexivity|]. split; [auto|discriminate].
    - inv_bind Hstep. apply lift_ok_inv in Hstep0. destruct Hstep0 as [HM ->].
      inversion Hstep; subst. split; [reflexivity|].
      split; intros E; [right|split; [reflexivity|]]; exists a; auto. }
  destruct Hdeg as (-> & Ht & Hf).
  destruct deg.
  - left. inv_bind H. inversion H; subst. exists D, a. auto.
  - right. destruct (Hf eq_refl) as (ED & Mo & HM & EM).
    inv_bind H. apply lift_ok_inv in Hstep0. destruct Hstep0 as [Hd ->]. rename a into d.
    destruct (num_ge k d) eqn:Ed.
    + left. inversion H; subst. exists D, Mo, d. auto 10.
    + right. exists D, Mo, d. auto 10.
Qed.

End Outcomes.

(** Every solution [factorize_matrix] returns carries either the sentinel
    rank, with the default [nmse] of 0 (the degenerate branches measure no
    error) and the bias that was supplied, or the resolved rank [k], with both
    factors and a bias present.  The rank field is never the fraction that was
    passed. *)
Theorem solution_rank_field :
  forall T X Y Wa Wb bias rank n_iters st k r st',
    resolve_rank X Wa rank = Ok k ->
    factorize_matrix T X Y Wa Wb bias rank n_iters st = (Ok r, st') ->
    (LowRankSolution.rank r = sentinel
     /\ LowRankSolution.nmse r = 0
     /\ LowRankSolution.bias r = bias)
    \/ (LowRankSolution.rank r = k
        /\ exists wa wb b,
            LowRankSolution.Wa r = Some wa /\ LowRankSolution.Wb r = Some wb
            /\ LowRankSolution.bias r = Some b).
Proof.
  intros T X Y Wa Wb bias rank n_iters st k r st' Hr Hrun.
  rewrite factorize_matrix_eq, Hr, bind_lift_ok in Hrun.
  inv_bind Hrun. destruct a as [[ob Y'] ret1].
  destruct (prologue_ok_inv _ _ _ Hstep) as [-> ->].
  apply branches_ok_inv in Hrun.
  destruct Hrun as [(D & wa & _ & _ & _ & ->)
                   |[(D & Mo & d & _ & _ & _ & _ & _ & _ & -> & _)
                    |(D & Mo & d & _ & _ & _ & _ & _ & _ & Hit)]].
  - left. destruct bias; auto.
  - left. destruct bias; auto.
  - right. apply iterative_ok_inv in Hit. destruct Hit as (wa & wb & b & e & ->).
    split; [reflexivity|]. exists wa, wb, b. auto.
Qed.

Lemma solution_rank_field_witness :
  exists r st',
    factorize_matrix Reference.lib Examples.X2 Examples.Y2 Examples.W2 None
      (Some Examples.b2) (RFloat Examples.half) 3 Examples.st_bias = (Ok r, st')
    /\ ((LowRankSolution.rank r = sentinel
         /\ LowRankSolution.nmse r = 0
         /\ LowRankSolution.bias r = Some Examples.b2)
        \/ (LowRankSolution.rank r = RInt 1
            /\ exists wa wb b,
                LowRankSolution.Wa r = Some wa /\ LowRankSolution.Wb r = Some wb
                /\ LowRankSolution.bias r = Some b)).
Proof.
  eexists _, _. split; [vm_compute; reflexivity|].
  eapply (@solution_rank_field Reference.lib Examples.X2 Examples.Y2 Examples.W2 None
            (Some Examples.b2) (RFloat Examples.half) 3 Examples.st_bias (RInt 1));
    vm_compute; reflexivity.
Defined.

(** ** A fractional rank *)

(** *** The product of a fraction and a dimension, in doubles *)

Lemma digits2_bounds (m : positive) :
  (2 ^ (Zpos (digits2_pos m) - 1) <= Zpos m < 2 ^ Zpos (digits2_pos m))%Z.
Proof.
  induction m as [m IH|m IH|]; simpl digits2_pos.
  - rewrite Pos2Z.inj_succ.
    replace (Z.succ (Z.pos (digits2_pos m)) - 1)%Z
      with (Z.succ (Z.pos (digits2_pos m) - 1)) by lia.
    rewrite !Z.pow_succ_r by lia. lia.
  - rewrite Pos2Z.inj_succ.
    replace (Z.succ (Z.pos (digits2_pos m)) - 1)%Z
      with (Z.succ (Z.pos (digits2_pos m) - 1)) by lia.
    rewrite !Z.pow_succ_r by lia. lia.
  - simpl. lia.
Qed.

Lemma iter_pos_nat {A} (f : A -> A) (p : positive) : forall x,
  iter_pos f p x = Nat.iter (Pos.to_nat p) f x.
Proof.
  induction p as [p IH|p IH|]; intros x; simpl iter_pos.
  - rewrite !IH, Pos2Nat.inj_xI.
    rewrite Nat.iter_succ_r.
    replace (2 * Pos.to_nat p)%nat with (Pos.to_nat p + Pos.to_nat p)%nat by lia.
    now rewrite Nat.iter_add.
  - rewrite !IH, Pos2Nat.inj_xO.
    replace (2 * Pos.to_nat p)%nat with (Pos.to_nat p + Pos.to_nat p)%nat by lia.
    now rewrite Nat.iter_add.
  - reflexivity.
Qed.

Lemma shr_1_nonneg (m : Z) (r s : bool) :
  (0 <= m)%Z ->
  shr_m (shr_1 (Build_shr_record m r s)) = (m / 2)%Z
  /\ shr_r (shr_1 (Build_shr_record m r s)) = Z.odd m.
Proof.
  intros Hm. destruct m as [|[p|p|]|p]; try lia; simpl; split; try reflexivity.
  - apply Z.div_unique with 1%Z; lia.
  - apply Z.div_unique with 0%Z; lia.
Qed.

Lemma shr_iter (m : Z) (r s : bool) : (0 <= m)%Z -> forall k,
  shr_m (Nat.iter (S k) shr_1 (Build_shr_record m r s)) = (m / 2 ^ Z.of_nat (S k))%Z
  /\ shr_r (Nat.iter (S k) shr_1 (Build_shr_record m r s)) = Z.odd (m / 2 ^ Z.of_nat k).
Proof.
  intros Hm. induction k as [|k [IHm IHr]].
  - change (Nat.iter 1 shr_1 (Build_shr_record m r s))
      with (shr_1 (Build_shr_record m r s)).
    destruct (shr_1_nonneg r s Hm) as [H1 H2].
    rewrite H1, H2. change (2 ^ Z.of_nat 1)%Z with 2%Z. change (2 ^ Z.of_nat 0)%Z with 1%Z.
    now rewrite Z.div_1_r.
  - change (Nat.iter (S (S k)) shr_1 (Build_shr_record m r s))
      with (shr_1 (Nat.iter (S k) shr_1 (Build_shr_record m r s))).
    destruct (Nat.iter (S k) shr_1 (Build_shr_record m r s)) as [m' r' s'].
    cbn [shr_m shr_r] in IHm, IHr. subst m'.
    assert (Hp : (0 < 2 ^ Z.of_nat (S k))%Z) by (apply Z.pow_pos_nonneg; lia).
    assert (Hm' : (0 <= m / 2 ^ Z.of_nat (S k))%Z) by (apply Z.div_pos; lia).
    destruct (shr_1_nonneg r' s' Hm') as [H1 H2]. rewrite H1, H2. split; [|reflexivity].
    rewrite Z.div_div by lia.
    f_equal. rewrite (Nat2Z.inj_succ (S k)), Z.pow_succ_r by lia. lia.
Qed.

(** Shifting the mantissa [m] right by [p] bits. *)
Lemma shr_shift (m : Z) (p : positive) :
  (0 <= m)%Z ->
  shr_m (iter_pos shr_1 p (Build_shr_record m false false)) = (m / 2 ^ Z.pos p)%Z
  /\ shr_r (iter_pos shr_1 p (Build_shr_record m false false))
     = Z.odd (m / 2 ^ (Z.pos p - 1)).
Proof.
  intros Hm. rewrite iter_pos_nat.
  destruct (Pos2Nat.is_succ p) as [k Hk]. rewrite Hk.
  destruct (shr_iter false false Hm k) as [H1 H2]. rewrite H1, H2.
  assert (Ep : Z.pos p = Z.of_nat (S k)) by lia.
  rewrite Ep. split; [reflexivity|]. f_equal. f_equal. f_equal. lia.
Qed.

(** Rounding to nearest moves the mantissa up by at most one, and only
    when the first bit shifted out is set. *)
Lemma round_nearest_even_bounds (mrs : shr_record) :
  let m2 := round_nearest_even (shr_m mrs) (loc_of_shr_record mrs) in
  (shr_m mrs <= m2 <= shr_m mrs + 1)%Z /\ (shr_r mrs = false -> m2 = shr_m mrs).
Proof.
  destruct mrs as [m [|] [|]]; simpl; try (split; [lia|auto; discriminate]).
  destruct (Z.even m); split; try lia; discriminate.
Qed.

Lemma shiftl_nonpos (m e : Z) : (e <= 0)%Z -> Z.shiftl m e = (m / 2 ^ (- e))%Z.
Proof.
  intros He. rewrite <- Z.shiftr_opp_r. apply Z.shiftr_div_pow2. lia.
Qed.

Lemma binary_round_aux_finish (m e : Z) :
  binary_round_aux prec emax false m e loc_Exact
  = let '(mrs, e') := shr_fexp prec emax m e loc_Exact in
    round_finish (round_nearest_even (shr_m mrs) (loc_of_shr_record mrs)) e'.
Proof.
  unfold binary_round_aux, round_finish.
  destruct (shr_fexp prec emax m e loc_Exact) as [mrs e'].
  destruct (shr_fexp prec emax _ e' loc_Exact) as [mrs' e'']. reflexivity.
Qed.

Lemma fexp_eq (e : Z) : fexp prec emax e = Z.max (e - 53) (-1074).
Proof. reflexivity. Qed.

Lemma finish_below (m e D : Z) :
  (0 <= m)%Z -> (-1074 <= e <= 0)%Z -> (0 < D < 2 ^ 53)%Z -> (m < D * 2 ^ (- e))%Z ->
  exists t, float_to_int (round_finish m e) = Ok t /\ (0 <= t < D)%Z.
Proof.
  intros Hm He HD Hlt. unfold round_finish, shr_fexp, shr. simpl shr_record_of_loc.
  assert (Hpe : (0 < 2 ^ (- e))%Z) by (apply Z.pow_pos_nonneg; lia).
  destruct m as [|m|m]; [| |lia].
  - simpl Zdigits2. rewrite fexp_eq.
    destruct (Z.max (0 + e - 53) (-1074) - e)%Z as [|p|p] eqn:En; try lia;
      simpl; exists 0%Z; (split; [reflexivity|lia]).
  - simpl Zdigits2. rewrite fexp_eq.
    pose proof (digits2_bounds m) as Hd.
    set (d := Z.pos (digits2_pos m)) in *.
    assert (Hde : (d + e <= 53)%Z).
    { assert (H : (2 ^ (d - 1) < 2 ^ (53 - e))%Z).
      { replace (53 - e)%Z with (53 + - e)%Z by lia. rewrite Z.pow_add_r by lia. nia. }
      apply Z.pow_lt_mono_r_iff in H; lia. }
    assert (Ht : (0 <= Z.pos m / 2 ^ (- e) < D)%Z).
    { split; [apply Z.div_pos; lia|]. apply Z.div_lt_upper_bound; lia. }
    destruct (Z.max (d + e - 53) (-1074) - e)%Z as [|p|p] eqn:En.
    + simpl shr_m. replace (e <=? emax - prec)%Z with true
        by (symmetry; apply Z.leb_le; unfold emax, prec; lia).
      simpl float_to_int. rewrite shiftl_nonpos by lia.
      eexists. split; [reflexivity|exact Ht].
    + destruct (@shr_shift (Z.pos m) p ltac:(lia)) as [H1 _]. rewrite H1.
      assert (Hpp : (0 < 2 ^ Z.pos p)%Z) by (apply Z.pow_pos_nonneg; lia).
      assert (E2 : (Z.pos m / 2 ^ Z.pos p / 2 ^ (- (e + Z.pos p)) = Z.pos m / 2 ^ (- e))%Z).
      { rewrite Z.div_div by (try apply Z.pow_pos_nonneg; lia).
        rewrite <- Z.pow_add_r by lia. f_equal. f_equal. lia. }
      destruct (Z.pos m / 2 ^ Z.pos p)%Z as [|q|q] eqn:Eq.
      * exists 0%Z. split; [reflexivity|lia].
      * replace (e + Z.pos p <=? emax - prec)%Z with true
          by (symmetry; apply Z.leb_le; unfold emax, prec; lia).
        simpl float_to_int. rewrite shiftl_nonpos by lia.
        eexists. split; [reflexivity|]. rewrite E2. exact Ht.
      * assert (0 <= Z.pos m / 2 ^ Z.pos p)%Z by (apply Z.div_pos; lia). lia.
    + simpl shr_m. replace (e <=? emax - prec)%Z with true
        by (symmetry; apply Z.leb_le; unfold emax, prec; lia).
      simpl float_to_int. rewrite shiftl_nonpos by lia.
      eexists. split; [reflexivity|exact Ht].
Qed.

(** The product of exact value [P * 2^E], below the integer [D] by at
    least [D * 2^-53], rounds to a double that is still below [D]. *)
Lemma round_below (P : positive) (E D : Z) :
  (E <= 0)%Z -> (0 < D < 2 ^ 53)%Z ->
  (Z.pos P < D * 2 ^ (- E))%Z ->
  (D * 2 ^ (- E) <= (D * 2 ^ (- E) - Z.pos P) * 2 ^ 53)%Z ->
  exists t,
    float_to_int (binary_round_aux prec emax false (Z.pos P) E loc_Exact) = Ok t
    /\ (0 <= t < D)%Z.
Proof.
  intros HE HD Hlt Hgap. rewrite binary_round_aux_finish.
  unfold shr_fexp, shr. simpl shr_record_of_loc. simpl Zdigits2. rewrite fexp_eq.
  pose proof (digits2_bounds P) as Hd. set (d := Z.pos (digits2_pos P)) in *.
  assert (HpE : (0 < 2 ^ (- E))%Z) by (apply Z.pow_pos_nonneg; lia).
  assert (Hde : (d + E <= 53)%Z).
  { assert (H : (2 ^ (d - 1) < 2 ^ (53 - E))%Z).
    { replace (53 - E)%Z with (53 + - E)%Z by lia. rewrite Z.pow_add_r by lia. nia. }
    apply Z.pow_lt_mono_r_iff in H; lia. }
  destruct (Z.max (d + E - 53) (-1074) - E)%Z as [|p|p] eqn:En.
  - simpl round_nearest_even. apply finish_below; lia.
  - destruct (@shr_shift (Z.pos P) p ltac:(lia)) as [H1 H2].
    destruct (round_nearest_even_bounds
                (iter_pos shr_1 p (Build_shr_record (Z.pos P) false false)))
      as [Hb Hr].
    set (mrs := iter_pos shr_1 p (Build_shr_record (Z.pos P) false false)) in *.
    set (m2 := round_nearest_even (shr_m mrs) (loc_of_shr_record mrs)) in *.
    assert (Hpp : (0 < 2 ^ Z.pos p)%Z) by (apply Z.pow_pos_nonneg; lia).
    assert (Hm1 : (0 <= Z.pos P / 2 ^ Z.pos p)%Z) by (apply Z.div_pos; lia).
    assert (He' : (-1074 <= E + Z.pos p <= 0)%Z) by lia.
    apply finish_below; try lia.
    (* the rounded mantissa stays below [D] on the grid of the result *)
    set (K := (D * 2 ^ (- (E + Z.pos p)))%Z).
    set (A := (2 ^ (Z.pos p - 1))%Z).
    assert (HA : (0 < A)%Z) by (apply Z.pow_pos_nonneg; lia).
    assert (E2A : (2 ^ Z.pos p = 2 * A)%Z).
    { unfold A. rewrite <- Z.pow_succ_r by lia. f_equal. lia. }
    assert (EW : (D * 2 ^ (- E) = K * (2 * A))%Z).
    { unfold K. rewrite <- E2A, <- Z.mul_assoc, <- Z.pow_add_r by lia.
      f_equal. f_equal. lia. }
    assert (HK : (Z.pos P / 2 ^ Z.pos p < K)%Z).
    { apply Z.div_lt_upper_bound; [lia|]. rewrite E2A. lia. }
    destruct (shr_r mrs) eqn:Er.
    2:{ rewrite (Hr eq_refl), H1. exact HK. }
    rewrite H1 in Hb.
    assert (HK52 : (2 ^ 52 < K)%Z).
    { destruct (Z.max_spec (d + E - 53) (-1074)) as [[Hc Em]|[Hc Em]].
      - (* the result is subnormal *)
        assert (Ee : (- (E + Z.pos p) = 1074)%Z) by lia.
        unfold K. rewrite Ee.
        assert (H : (2 ^ 52 < 2 ^ 1074)%Z) by (apply Z.pow_lt_mono_r; lia).
        nia.
      - assert (Ed : (d - 1 = 52 + Z.pos p)%Z) by lia.
        rewrite Ed, Z.pow_add_r, E2A in Hd by lia. nia. }
    (* the first bit shifted out is set *)
    symmetry in H2.
    assert (Hq : (Z.pos P / A = 2 * (Z.pos P / 2 ^ Z.pos p) + 1)%Z).
    { rewrite E2A. rewrite (Z.mul_comm 2 A), <- Z.div_div by lia.
      fold A in H2. rewrite (Z.div_mod (Z.pos P / A) 2) at 1 by lia.
      rewrite Zmod_odd, H2. lia. }
    pose proof (Z.div_mod (Z.pos P) A ltac:(lia)) as HP.
    pose proof (Z.mod_pos_bound (Z.pos P) A HA) as Hrho.
    rewrite Hq in HP.
    nia.
  - simpl round_nearest_even. apply finish_below; lia.
Qed.

Lemma iter_xO (m k : positive) :
  digits2_pos (Pos.iter xO m k) = (digits2_pos m + k)%positive
  /\ Z.pos (Pos.iter xO m k) = (Z.pos m * 2 ^ Z.pos k)%Z.
Proof.
  induction k as [|k [IH1 IH2]] using Pos.peano_ind.
  - simpl. split; [lia|]. lia.
  - rewrite Pos.iter_succ. simpl digits2_pos. rewrite IH1.
    split; [lia|]. rewrite Pos2Z.inj_xO, IH2, Pos2Z.inj_succ, Z.pow_succ_r by lia. lia.
Qed.

(** A mantissa of 53 bits at an exponent in range is its own rounding. *)
Lemma binary_round_aux_exact (m : positive) (e : Z) :
  Z.pos (digits2_pos m) = 53%Z -> (-1074 <= e <= 971)%Z ->
  binary_round_aux prec emax false (Z.pos m) e loc_Exact = S754_finite false m e.
Proof.
  intros Hd He. rewrite binary_round_aux_finish.
  assert (Hs : shr_fexp prec emax (Z.pos m) e loc_Exact
               = (Build_shr_record (Z.pos m) false false, e)).
  { unfold shr_fexp, shr. simpl Zdigits2. rewrite fexp_eq, Hd.
    replace (Z.max (53 + e - 53) (-1074) - e)%Z with 0%Z by lia. reflexivity. }
  rewrite Hs. simpl round_nearest_even. unfold round_finish. rewrite Hs. simpl shr_m.
  replace (e <=? emax - prec)%Z with true
    by (symmetry; apply Z.leb_le; unfold emax, prec; lia).
  reflexivity.
Qed.

(** [float(D)] is exact below [2^53]. *)
Lemma float_of_int_exact (D : Z) :
  (0 < D < 2 ^ 53)%Z ->
  exists my ey,
    float_of_int D = Ok (S754_finite false my ey)
    /\ (ey <= 0)%Z /\ Z.pos my = (D * 2 ^ (- ey))%Z.
Proof.
  intros HD. destruct D as [|pD|pD]; try lia.
  pose proof (digits2_bounds pD) as Hd.
  assert (Hd53 : (Z.pos (digits2_pos pD) <= 53)%Z).
  { assert (H : (2 ^ (Z.pos (digits2_pos pD) - 1) < 2 ^ 53)%Z) by lia.
    apply Z.pow_lt_mono_r_iff in H; lia. }
  unfold float_of_int, binary_normalize, binary_round, shl_align.
  rewrite fexp_eq.
  destruct (Z.max (Z.pos (digits2_pos pD) + 0 - 53) (-1074) - 0)%Z as [|k|k] eqn:Ek;
    try lia.
  - rewrite binary_round_aux_exact by lia.
    exists pD, 0%Z. split; [reflexivity|]. split; [lia|]. simpl. lia.
  - destruct (iter_xO pD k) as [H1 H2].
    rewrite binary_round_aux_exact by (rewrite ?H1; lia).
    eexists _, _. split; [reflexivity|]. split; [lia|].
    rewrite H2. f_equal. f_equal. lia.
Qed.

(** A double below 1, as integers. *)
Lemma float_below_one (m : positive) (e : Z) :
  inject_Z (Z.pos m) * Qpower 2 e < 1 -> (e < 0)%Z /\ (Z.pos m < 2 ^ (- e))%Z.
Proof.
  intros H. destruct e as [|k|k].
  - exfalso. change (Qpower 2 0) with 1 in H. rewrite Qmult_1_r in H.
    unfold Qlt, inject_Z in H. simpl in H. lia.
  - exfalso. rewrite <- (Zpower_Qpower 2 (Z.pos k)) in H by lia.
    rewrite <- inject_Z_mult in H.
    assert (Hp : (0 < 2 ^ Z.pos k)%Z) by (apply Z.pow_pos_nonneg; lia).
    unfold Qlt, inject_Z in H. cbn [Qnum Qden] in H. nia.
  - split; [lia|].
    change (Z.neg k) with (- Z.pos k)%Z in *. rewrite Qpower_opp in H.
    rewrite <- (Zpower_Qpower 2 (Z.pos k)) in H by lia.
    rewrite Z.opp_involutive.
    assert (Hp : (0 < 2 ^ Z.pos k)%Z) by (apply Z.pow_pos_nonneg; lia).
    destruct (2 ^ Z.pos k)%Z as [|q|q]; try lia.
    unfold Qlt, Qmult, Qinv, inject_Z in H. simpl in H. lia.
Qed.

(** For a double [x] with [0 <= x < 1] and a positive [D] below [2^53],
    [int(x * D)] is an integer of [0 .. D-1]. *)
Lemma fraction_product (x : spec_float) (D : nat) :
  valid_binary prec emax x = true ->
  num_lt1 (RFloat x) = true -> num_ge (RFloat x) 0 = true ->
  (0 < D)%nat -> (Z.of_nat D < 2 ^ 53)%Z ->
  exists p t,
    num_mul (RFloat x) D = Ok p /\ py_int p = Ok t /\ (0 <= t < Z.of_nat D)%Z.
Proof.
  intros Hv Hlt Hge HD HD53.
  destruct (@float_of_int_exact (Z.of_nat D) ltac:(lia)) as (my & ey & Hy & Hey & Hmy).
  unfold num_mul. rewrite Hy. simpl rbind.
  destruct x as [s|s| |s mx ex].
  - eexists _, 0%Z. split; [reflexivity|]. split; [reflexivity|lia].
  - destruct s; simpl in Hlt, Hge; discriminate.
  - simpl in Hlt. discriminate.
  - destruct s.
    { exfalso. unfold num_ge, float_compare_int, float_Q in Hge. simpl cond_Zopp in Hge.
      assert (Hneg : inject_Z (Z.neg mx) * Qpower 2 ex < inject_Z (Z.of_nat 0)).
      { assert (Hp : 0 < Qpower 2 ex) by (apply Qpower_0_lt; reflexivity).
        assert (H0 : 0 < inject_Z (Z.pos mx) * Qpower 2 ex)
          by (apply Qmult_lt_0_compat; [reflexivity|exact Hp]).
        apply Qopp_lt_compat in H0.
        setoid_replace (inject_Z (Z.neg mx) * Qpower 2 ex)
          with (- (inject_Z (Z.pos mx) * Qpower 2 ex))
          by (change (Z.neg mx) with (- Z.pos mx)%Z; rewrite inject_Z_opp; ring).
        exact H0. }
      assert (Hc : (inject_Z (Z.neg mx) * Qpower 2 ex ?= inject_Z (Z.of_nat 0)) = Lt)
        by (apply -> Qlt_alt; exact Hneg).
      rewrite Hc in Hge. discriminate. }
    assert (Hx : inject_Z (Z.pos mx) * Qpower 2 ex < 1).
    { unfold num_lt1, float_compare_int, float_Q in Hlt. simpl cond_Zopp in Hlt.
      apply Qlt_alt.
      destruct (inject_Z (Z.pos mx) * Qpower 2 ex ?= inject_Z 1) eqn:Ec;
        try discriminate.
      exact Ec. }
    apply float_below_one in Hx. destruct Hx as [Hex Hmx].
    assert (Hdx : (Z.pos mx < 2 ^ 53)%Z).
    { simpl in Hv. unfold bounded, canonical_mantissa in Hv.
      apply andb_true_iff in Hv. destruct Hv as [Hc _].
      apply Z.eqb_eq in Hc. rewrite fexp_eq in Hc.
      pose proof (digits2_bounds mx) as Hd.
      assert (Hdd : (Z.pos (digits2_pos mx) <= 53)%Z) by lia.
      assert (H : (2 ^ Z.pos (digits2_pos mx) <= 2 ^ 53)%Z)
        by (apply Z.pow_le_mono_r; lia).
      lia. }
    assert (Hpx : (0 < 2 ^ (- ex))%Z) by (apply Z.pow_pos_nonneg; lia).
    assert (EW : (Z.of_nat D * 2 ^ (- (ex + ey)) = Z.pos my * 2 ^ (- ex))%Z).
    { replace (- (ex + ey))%Z with (- ey + - ex)%Z by lia.
      rewrite Z.pow_add_r by lia. rewrite Hmy. ring. }
    assert (Hgap : (2 ^ (- ex) <= (2 ^ (- ex) - Z.pos mx) * 2 ^ 53)%Z).
    { destruct (Z.le_gt_cases (- ex) 53) as [Hc|Hc].
      - assert (H : (2 ^ (- ex) <= 2 ^ 53)%Z) by (apply Z.pow_le_mono_r; lia).
        nia.
      - replace (- ex)%Z with (53 + (- ex - 53))%Z by lia.
        rewrite Z.pow_add_r by lia.
        assert (HB : (2 ^ 1 <= 2 ^ (- ex - 53))%Z) by (apply Z.pow_le_mono_r; lia).
        change (2 ^ 1)%Z with 2%Z in HB.
        replace (- ex)%Z with (53 + (- ex - 53))%Z in Hmx by lia.
        rewrite Z.pow_add_r in Hmx by lia.
        nia. }
    destruct (@round_below (mx * my) (ex + ey) (Z.of_nat D)) as (t & Ht & Hb);
      try lia.
    + rewrite EW, Pos2Z.inj_mul. nia.
    + rewrite EW, Pos2Z.inj_mul. nia.
    + eexists _, t. split; [reflexivity|]. split; [|exact Hb].
      simpl py_int. exact Ht.
Qed.

Lemma number_fraction_product (rank : number) (D : nat) :
  is_python_number rank ->
  num_ge rank 0 = true -> num_lt1 rank = true ->
  (0 < D)%nat -> (Z.of_nat D < 2 ^ 53)%Z ->
  exists p t,
    num_mul rank D = Ok p /\ py_int p = Ok t /\ (0 <= t < Z.of_nat D)%Z.
Proof.
  intros Hv Hge Hlt HD HD53. destruct rank as [z|x].
  - simpl in Hge, Hlt. apply Z.leb_le in Hge. apply Z.ltb_lt in Hlt.
    exists (RInt (z * Z.of_nat D)), (z * Z.of_nat D)%Z.
    split; [reflexivity|]. split; [reflexivity|]. nia.
  - now apply fraction_product.
Qed.

(** A rank passed as a fraction in [0, 1) (an [int] or a double) of an [X]
    with at least one column (and fewer than [2^53]) resolves, without
    error, to an integer [k] with [0 <= k < D] and [k <= d], for [D] the
    columns of [X] and [d] those of [Wa]: the product, rounded to a double,
    is still below [D], and the test [k >= D] of the first degenerate branch
    cannot fire on it. *)
Theorem fractional_rank_bounds :
  forall X Wa rank N D D' d,
    tshape X = [N; D] -> tshape Wa = [D'; d] ->
    is_python_number rank ->
    num_ge rank 0 = true -> num_lt1 rank = true ->
    (0 < D)%nat -> (Z.of_nat D < 2 ^ 53)%Z ->
    exists k,
      resolve_rank X Wa rank = Ok (RInt k)
      /\ (0 <= k < Z.of_nat D)%Z /\ (k <= Z.of_nat d)%Z
      /\ num_ge (RInt k) D = false.
Proof.
  intros X Wa rank N D D' d HX HWa Hv Hge Hlt HD HD53.
  destruct (number_fraction_product rank Hv Hge Hlt HD HD53) as (p & t & Hp & Ht & Hb).
  exists (Z.min t (Z.of_nat d)).
  unfold resolve_rank. rewrite Hlt, HX. simpl. rewrite Hp. simpl.
  rewrite Ht. simpl. rewrite HWa. simpl.
  split; [reflexivity|]. split; [lia|]. split; [lia|].
  apply Z.leb_gt. lia.
Qed.

Lemma fractional_rank_bounds_witness :
  exists k,
    resolve_rank Examples.X1_50 Examples.W50 (RFloat Examples.f058) = Ok (RInt k)
    /\ (0 <= k < Z.of_nat 50)%Z /\ (k <= Z.of_nat 50)%Z
    /\ num_ge (RInt k) 50 = false.
Proof.
  apply (@fractional_rank_bounds Examples.X1_50 Examples.W50 (RFloat Examples.f058)
           1 50 50 50);
    first [ reflexivity | lia ].
Defined.

(** ** A rank that is a [float] *)

Lemma bind_fst_err {A B} (m : M A) (f : A -> M B) st e :
  fst (m st) = Err e -> fst (bind m f st) = Err e.
Proof.
  unfold bind. destruct (m st) as [[a|e'] s]; simpl; intros H;
    [discriminate|congruence].
Qed.

Section FloatRank.
Variable T : torch_lib.
Import LowRankSolution.

Lemma svd_initialize_float Wa Wb x st W usv :
  operator_value st Wa Wb = Ok W -> svd T W = Ok usv ->
  fst (_svd_initialize T Wa Wb (RFloat x) st) = Err TypeError.
Proof.
  intros HW Hsvd. destruct usv as [[vU vs] vVt].
  unfold _svd_initialize, t_svd, t_matmul, get_value, bind, lift, ret.
  destruct Wb as [wb|]; simpl in HW.
  - rewrite HW. rewrite fresh_run. rewrite load_fresh, Hsvd.
    rewrite !fresh_run. reflexivity.
  - inversion HW; subst. rewrite Hsvd. rewrite !fresh_run. reflexivity.
Qed.

(** A rank passed as a [float] that is at least 1 is not converted to an
[int]: on a valid call that takes the iterative path (the rank below the
columns of [X], of [Y] and of [Wa]) and whose operator has an SVD, the
slicing [U[:, :k]] raises [TypeError] and no solution is returned. *)
Theorem float_rank_raises_type_error :
  forall X Y Wa Wb bias x n_iters st N D Mo d W usv,
    tshape X = [N; D] -> tshape Y = [N; Mo] -> bias_fits bias Mo ->
    shape_at (tshape Wa) 1 = Ok d ->
    allocated st Y -> allocated st Wa -> allocated_opt st Wb ->
    num_lt1 (RFloat x) = false ->
    num_ge (RFloat x) D = false -> num_ge (RFloat x) Mo = false ->
    num_ge (RFloat x) d = false ->
    operator_value st Wa Wb = Ok W -> svd T W = Ok usv ->
    fst (factorize_matrix T X Y Wa Wb bias (RFloat x) n_iters st) = Err TypeError.
Proof.
  intros X Y Wa Wb bias x n_iters st N D Mo d W usv
    HX HY Hb HWa AY AWa AWb Hlt ED EM Ed HW Hsvd.
  destruct (@target_value_shape st Y bias N Mo HY Hb) as (Yv & HT & HS).
  destruct (@prologue_run st Y bias Yv HT AY) as (Y' & st1 & ext & Hp & -> & AY' & HS' & HL).
  rewrite HS in HS'.
  rewrite factorize_matrix_eq.
  assert (Hr : resolve_rank X Wa (RFloat x) = Ok (RFloat x)).
  { unfold resolve_rank. now rewrite Hlt. }
  rewrite Hr, bind_lift_ok, (bind_ok _ _ _ Hp).
  rewrite (@branches_iterative T X Y' Wa Wb bias _ (RFloat x) n_iters (st ++ ext) D Mo d);
    auto; try (rewrite ?HX, ?HS'; reflexivity).
  unfold iterative.
  assert (HW' : operator_value (st ++ ext) Wa Wb = Ok W).
  { destruct Wb as [wb|]; simpl in *.
    - now rewrite !load_app.
    - now rewrite load_app. }
  apply bind_fst_err.
  exact (@svd_initialize_float Wa Wb x (st ++ ext) W usv HW' Hsvd).
Qed.

End FloatRank.

Lemma float_rank_raises_type_error_witness :
  fst (factorize_matrix Reference.lib Examples.X2 Examples.Y2 Examples.W2 None None
         (RFloat Examples.one) 3 Examples.st_bias) = Err TypeError.
Proof.
  eapply (@float_rank_raises_type_error Reference.lib Examples.X2 Examples.Y2 Examples.W2
            None None Examples.one 3 Examples.st_bias 2 2 2 2);
    first [ exact I | reflexivity | unfold allocated; simpl; lia ].
Defined.

(** ** The iterative path, step by step *)

Section IterativeRun.
Variable T : torch_lib.
Import LowRankSolution.

(** The sweeps only allocate. *)
Lemma hoare_als_sweeps_frame n X Y Ya : forall sweeps Wa Wb,
  hoare n (fun _ => True) (als_sweeps T sweeps X Y Ya Wa Wb) (fun _ _ => True).
Proof.
  induction sweeps as [|sweeps IH]; intros Wa Wb; simpl.
  - apply hoare_ret. auto.
  - apply hoare_bind_alloc; [apply allocating_matmul|apply mono_const|]. intros Xb.
    eapply hoare_pre with (P' := fun _ => True); [|auto].
    apply hoare_bind_alloc; [apply allocating_lstsq|apply mono_const|]. intros wb.
    eapply hoare_pre with (P' := fun _ => True); [|auto].
    apply hoare_bind_alloc; [apply allocating_lstsq|apply mono_const|]. intros wat.
    eapply hoare_pre with (P' := fun _ => True); [|auto]. apply IH.
Qed.

(** The stages of a run of the iterative path that returns, with what each
leaves of the tensors made before it. *)
Lemma iterative_stages X Y Wa Wb ob ret1 k n_iters st r st' :
  iterative T X Y Wa Wb ob ret1 k n_iters st = (Ok r, st') ->
  exists wa0 wb0 s2 Ya s3 wa wb s4 b e,
    _svd_initialize T Wa Wb k st = (Ok (wa0, wb0), s2)
    /\ _lstsq T X Y s2 = (Ok Ya, s3)
    /\ als_sweeps T (Z.to_nat n_iters) X Y Ya wa0 wb0 s3 = (Ok (wa, wb), s4)
    /\ epilogue X Y ob ret1 k wa wb s4 = (Ok r, st')
    /\ r = mk (Some wa) (Some wb) (Some b) k e
    /\ owned (length st) s2 wa0 /\ owned (length st) s2 wb0
    /\ owned (length s2) s3 Ya
    /\ owned (length st) s4 wa /\ owned (length st) s4 wb
    /\ grows (length st) st s2 /\ grows (length s2) s2 s3
    /\ grows (length s3) s3 s4 /\ grows (length s4) s4 st'.
Proof.
  unfold iterative. intros Hrun.
  inv_bind Hrun. destruct a as [wa0 wb0]. rename Hstep into Hsvd, s into s2.
  inv_bind Hrun. rename Hstep into Hls, a into Ya, s into s3.
  inv_bind Hrun. destruct a as [wa wb]. rename Hstep into Hals, s into s4.
  set (n := length st).
  destruct (@hoare_run _ n _ _ _ st _ _
              (@hoare_svd_initialize T n (fun _ => True) Wa Wb k (@mono_const True))
              (le_n n) I Hsvd) as [G1 [_ [O1 O2]]]. simpl in O1, O2.
  assert (N2 : (n <= length s2)%nat) by (destruct G1; assumption).
  destruct (@hoare_run _ (length s2) _ _ _ s2 _ _
              (@hoare_alloc (length s2) (fun _ => True)
                 (_lstsq T X Y) (allocating_lstsq T X Y) (@mono_const True))
              (le_n _) I Hls)
    as [G2 [_ OYa]].
  assert (N3 : (n <= length s3)%nat) by (destruct G2; lia).
  assert (O1' : owned n s3 wa0) by (unfold owned in *; destruct G2; lia).
  assert (O2' : owned n s3 wb0) by (unfold owned in *; destruct G2; lia).
  destruct (@hoare_run _ n _ _ _ s3 _ _
              (@hoare_als_sweeps T n (fun _ => True) X Y Ya (Z.to_nat n_iters)
                 wa0 wb0 (@mono_const True))
              N3 (conj I (conj O1' O2')) Hals) as [_ [_ [Owa Owb]]].
  simpl in Owa, Owb.
  destruct (@hoare_run _ (length s3) _ _ _ s3 _ _
              (@hoare_als_sweeps_frame (length s3) X Y Ya (Z.to_nat n_iters) wa0 wb0)
              (le_n _) I Hals) as [G3 _].
  destruct (@hoare_run _ (length s4) _ _ _ s4 _ _
              (@hoare_epilogue (length s4) (fun _ => True) X Y ob ret1 k wa wb
                 (@mono_const True))
              (le_n _) I Hrun) as [G4 [_ (b & e & Er & _)]].
  exists wa0, wb0, s2, Ya, s3, wa, wb, s4, b, e.
  repeat (split; [first [assumption|reflexivity]|]). assumption.
Qed.

End IterativeRun.

(** ** No sweep *)

Section NoSweep.
Variable T : torch_lib.
Import LowRankSolution.

(** With [n_iters <= 0] the loop body never runs: a valid call on the
iterative path that returns hands back the two factors of the SVD
initialisation (computed in the store the bias subtraction left), with
the values the initialisation gave them. *)
Theorem no_sweep_returns_svd_factors :
  forall X Y Wa Wb bias rank n_iters st N D Mo d k r st',
    tshape X = [N; D] -> tshape Y = [N; Mo] -> bias_fits bias Mo ->
    shape_at (tshape Wa) 1 = Ok d ->
    allocated st Y ->
    resolve_rank X Wa rank = Ok k ->
    num_ge k D = false -> num_ge k Mo = false -> num_ge k d = false ->
    (n_iters <= 0)%Z ->
    factorize_matrix T X Y Wa Wb bias rank n_iters st = (Ok r, st') ->
    exists wa0 wb0 s2,
      _svd_initialize T Wa Wb k (snd (prologue Y bias st)) = (Ok (wa0, wb0), s2)
      /\ LowRankSolution.Wa r = Some wa0 /\ LowRankSolution.Wb r = Some wb0
      /\ load st' wa0 = load s2 wa0 /\ load st' wb0 = load s2 wb0.
Proof.
  intros X Y Wa Wb bias rank n_iters st N D Mo d k r st'
    HX HY Hb HWa AY Hr ED EM Ed Hn Hrun.
  destruct (@target_value_shape st Y bias N Mo HY Hb) as (Yv & HT & HS).
  destruct (@prologue_run st Y bias Yv HT AY) as (Y' & st1 & ext & Hp & -> & AY' & HS' & HL).
  rewrite factorize_matrix_eq, Hr, bind_lift_ok, (bind_ok _ _ _ Hp) in Hrun.
  rewrite HS in HS'.
  rewrite (@branches_iterative T X Y' Wa Wb bias _ k n_iters (st ++ ext) D Mo d) in Hrun;
    auto; try (rewrite ?HX, ?HS'; reflexivity).
  apply iterative_stages in Hrun.
  destruct Hrun as (wa0 & wb0 & s2 & Ya & s3 & wa & wb & s4 & b & e
                    & Hsvd & Hls & Hals & _ & -> & O1 & O2 & _ & _ & _ & _ & G2 & _ & G4).
  replace (Z.to_nat n_iters) with 0%nat in Hals by lia.
  simpl in Hals. inversion Hals; subst wa wb s4.
  exists wa0, wb0, s2. rewrite Hp. simpl.
  split; [exact Hsvd|]. split; [reflexivity|]. split; [reflexivity|].
  assert (L2 : (length s2 <= length s3)%nat) by (destruct G2; assumption).
  split.
  - rewrite (@grows_load (length s3) s3 st' wa0 G4) by (unfold owned in O1; lia).
    apply (@grows_load (length s2) s2 s3 wa0 G2). unfold owned in O1; lia.
  - rewrite (@grows_load (length s3) s3 st' wb0 G4) by (unfold owned in O2; lia).
    apply (@grows_load (length s2) s2 s3 wb0 G2). unfold owned in O2; lia.
Qed.

End NoSweep.

Lemma no_sweep_returns_svd_factors_witness :
  exists r st',
    factorize_matrix Reference.lib Examples.X2 Examples.Y2 Examples.W2 None
      (Some Examples.b2) (RInt 1) 0 Examples.st_bias = (Ok r, st')
    /\ exists wa0 wb0 s2,
        _svd_initialize Reference.lib Examples.W2 None (RInt 1)
          (snd (prologue Examples.Y2 (Some Examples.b2) Examples.st_bias))
        = (Ok (wa0, wb0), s2)
        /\ LowRankSolution.Wa r = Some wa0 /\ LowRankSolution.Wb r = Some wb0
        /\ load st' wa0 = load s2 wa0 /\ load st' wb0 = load s2 wb0.
Proof.
  eexists _, _. split; [vm_compute; reflexivity|].
  apply (@no_sweep_returns_svd_factors Reference.lib Examples.X2 Examples.Y2
           Examples.W2 None (Some Examples.b2) (RInt 1) 0 Examples.st_bias
           2 2 2 2 (RInt 1));
    first [ reflexivity | unfold allocated; simpl; lia | lia
          | vm_compute; reflexivity ].
Defined.

(** ** The last sweep *)

Lemma grows_le n m st st' : (n <= m)%nat -> grows m st st' -> grows n st st'.
Proof.
  intros Hnm [L H]. split; [exact L|]. intros l Hl. apply H. lia.
Qed.

Lemma lstsq_ok_inv T A B st t st' :
  _lstsq T A B st = (Ok t, st') ->
  t = fresh_tensor st (lstsq_solution T (load st A) (load st B))
  /\ st' = st ++ [elems (lstsq_solution T (load st A) (load st B))].
Proof.
  unfold _lstsq, bind, lift, raise, get_value.
  destruct (shape_at (tshape A) 0) as [a0|e]; [|discriminate].
  destruct (shape_at (tshape B) 0) as [b0|e]; [|discriminate].
  destruct (negb (a0 =? b0)%nat); [discriminate|].
  destruct (negb (length (tshape A) =? 2)%nat); [discriminate|].
  destruct (negb (length (tshape B) =? 2)%nat); [discriminate|].
  rewrite fresh_run. intros H. inversion H. split; reflexivity.
Qed.

Section LastSweep.
Variable T : torch_lib.
Import LowRankSolution.

Lemma als_sweeps_S n X Y Ya Wa Wb :
  als_sweeps T (S n) X Y Ya Wa Wb
  = (Xb <- t_matmul X Wa ;;
     Wb' <- _lstsq T Xb Y ;;
     Wa_T <- _lstsq T (t_T Wb') (t_T Ya) ;;
     als_sweeps T n X Y Ya (t_T Wa_T) Wb').
Proof. reflexivity. Qed.

(** [S n] sweeps are [n] sweeps and then one more, from the factors the
[n] left. *)
Lemma als_sweeps_last X Y Ya : forall n Wa Wb st wa wb st',
  als_sweeps T (S n) X Y Ya Wa Wb st = (Ok (wa, wb), st') ->
  exists wa' wb' sa xb sb sc wat,
    als_sweeps T n X Y Ya Wa Wb st = (Ok (wa', wb'), sa)
    /\ grows (length st) st sa
    /\ t_matmul X wa' sa = (Ok xb, sb)
    /\ _lstsq T xb Y sb = (Ok wb, sc)
    /\ _lstsq T (t_T wb) (t_T Ya) sc = (Ok wat, st')
    /\ wa = t_T wat.
Proof.
  induction n as [|n IH]; intros Wa Wb st wa wb st' H; rewrite als_sweeps_S in H.
  - inv_bind H. rename a into xb, s into sb, Hstep into H1.
    inv_bind H. rename a into wb1, s into sc, Hstep into H2.
    inv_bind H. rename a into wat, s into sd, Hstep into H3.
    simpl in H. inversion H; subst.
    exists Wa, Wb, st, xb, sb, sc, wat.
    split; [reflexivity|]. split; [apply grows_refl|]. auto.
  - inv_bind H. rename a into xb, s into sb, Hstep into H1.
    inv_bind H. rename a into wb1, s into sc, Hstep into H2.
    inv_bind H. rename a into wat, s into sd, Hstep into H3.
    destruct (IH _ _ _ _ _ _ H) as (wa' & wb' & sa & xb' & sb' & sc' & wat' & Hn & G & R).
    exists wa', wb', sa, xb', sb', sc', wat'.
    split.
    { rewrite als_sweeps_S.
      rewrite (bind_ok _ _ _ H1), (bind_ok _ _ _ H2), (bind_ok _ _ _ H3).
      exact Hn. }
    split; [|exact R].
    apply t_matmul_inv in H1. destruct H1 as (v1 & _ & _ & ->).
    apply lstsq_ok_inv in H2. destruct H2 as [_ ->].
    apply lstsq_ok_inv in H3. destruct H3 as [_ ->].
    eapply grows_trans; [|eapply grows_le; [|exact G]].
    + rewrite <- !app_assoc. apply grows_app. lia.
    + rewrite !length_app. lia.
Qed.

End LastSweep.

Lemma grows_chain a b c :
  grows (length a) a b -> grows (length b) b c -> grows (length a) a c.
Proof.
  intros G1 G2. eapply grows_trans; [exact G1|].
  eapply grows_le; [|exact G2]. destruct G1; assumption.
Qed.

Lemma grows_snoc st (l : list Q) : grows (length st) st (st ++ [l]).
Proof. apply grows_app. lia. Qed.

Lemma load_snoc st (v : tval) : load (st ++ [elems v]) (fresh_tensor st v) = v.
Proof. apply load_fresh. Qed.

Section LastSweepFactors.
Variable T : torch_lib.
Import LowRankSolution.

(** With [n_iters >= 1], the factors a valid call returns from the
iterative path are those of the last of the [n_iters] sweeps.  The first
[n_iters - 1] sweeps, run from the factors of the SVD initialisation (in the
store the bias subtraction left), give some [Wa']; the returned [Wb] is the
least-squares solution of [X @ Wa'] against the target ([Y] less the
supplied bias), and the returned [Wa] is the transpose of the least-squares
solution of [Wb.T] against [Ya.T], where [Ya] is the least-squares solution
of [X] against the target. *)
Theorem last_sweep_factors :
  forall X Y Wa Wb bias rank n_iters st N D Mo d k r st',
    tshape X = [N; D] -> tshape Y = [N; Mo] -> bias_fits bias Mo ->
    shape_at (tshape Wa) 1 = Ok d ->
    allocated st X -> allocated st Y ->
    resolve_rank X Wa rank = Ok k ->
    num_ge k D = false -> num_ge k Mo = false -> num_ge k d = false ->
    (1 <= n_iters)%Z ->
    factorize_matrix T X Y Wa Wb bias rank n_iters st = (Ok r, st') ->
    exists ob Y' ret1 st1 wa0 wb0 s2 ya s3 wa' wb' sa wat wb Yv h,
      prologue Y bias st = (Ok (ob, Y', ret1), st1)
      /\ _svd_initialize T Wa Wb k st1 = (Ok (wa0, wb0), s2)
      /\ _lstsq T X Y' s2 = (Ok ya, s3)
      /\ als_sweeps T (Z.to_nat (n_iters - 1)) X Y' ya wa0 wb0 s3 = (Ok (wa', wb'), sa)
      /\ LowRankSolution.Wa r = Some (t_T wat) /\ LowRankSolution.Wb r = Some wb
      /\ target_value st Y bias = Ok Yv
      /\ load st' ya = lstsq_solution T (load st X) Yv
      /\ v_matmul (load st X) (load sa wa') = Ok h
      /\ load st' wb = lstsq_solution T h Yv
      /\ load st' wat = lstsq_solution T (load st' (t_T wb)) (load st' (t_T ya)).
Proof.
  intros X Y Wa Wb bias rank n_iters st N D Mo d k r st'
    HX HY Hb HWa AX AY Hr ED EM Ed Hn Hrun.
  destruct (@target_value_shape st Y bias N Mo HY Hb) as (Yv & HT & HS).
  destruct (@prologue_run st Y bias Yv HT AY) as (Y' & st1 & ext & Hp & Est1 & AY' & HS' & HL).
  rewrite factorize_matrix_eq, Hr, bind_lift_ok, (bind_ok _ _ _ Hp) in Hrun.
  rewrite HS in HS'.
  rewrite (@branches_iterative T X Y' Wa Wb bias _ k n_iters st1 D Mo d) in Hrun;
    auto; try (rewrite ?HX, ?HS'; reflexivity).
  apply iterative_stages in Hrun.
  destruct Hrun as (wa0 & wb0 & s2 & Ya & s3 & wa & wb & s4 & b & e
                    & Hsvd & Hls & Hals & _ & -> & _ & _ & _ & _ & _
                    & G1 & G2 & _ & G4).
  destruct (Z.to_nat n_iters) as [|m] eqn:En; [lia|].
  apply als_sweeps_last in Hals.
  destruct Hals as (wa' & wb' & sa & xb & sb & sc & wat & Hfirst & G & Hmm & Hwb & Hwat & ->).
  replace m with (Z.to_nat (n_iters - 1)) in Hfirst by lia.
  pose proof Hls as Hls0.
  apply lstsq_ok_inv in Hls. destruct Hls as [EYa Es3].
  apply t_matmul_inv in Hmm. destruct Hmm as (h & Hh & Exb & Esb).
  apply lstsq_ok_inv in Hwb. destruct Hwb as [Ewb Esc].
  apply lstsq_ok_inv in Hwat. destruct Hwat as [Ewat Es4].
  (* how the store grew *)
  assert (F1 : grows (length st) st st1) by (rewrite Est1; apply grows_app; lia).
  assert (Gab : grows (length sa) sa sb) by (rewrite Esb; apply grows_snoc).
  assert (Gbc : grows (length sb) sb sc) by (rewrite Esc; apply grows_snoc).
  assert (Gc4 : grows (length sc) sc s4) by (rewrite Es4; apply grows_snoc).
  pose proof (grows_chain Gc4 G4) as Kc.
  pose proof (grows_chain Gbc Kc) as Kb.
  pose proof (grows_chain G (grows_chain Gab Kb)) as K3.
  pose proof (grows_chain F1 G1) as F2.
  pose proof (grows_chain (grows_chain F2 G2) G) as Fa.
  pose proof (grows_chain (grows_chain (grows_chain G1 G2) G) Gab) as Hb1.
  (* the values *)
  assert (LX2 : load s2 X = load st X) by (apply (@grows_load _ _ _ X F2); exact AX).
  assert (LY2 : load s2 Y' = Yv).
  { rewrite (@grows_load _ _ _ Y' G1) by exact AY'. exact HL. }
  assert (LXa : load sa X = load st X) by (apply (@grows_load _ _ _ X Fa); exact AX).
  assert (LYb : load sb Y' = Yv).
  { rewrite (@grows_load _ _ _ Y' Hb1) by exact AY'. exact HL. }
  assert (Lxb : load sb xb = h) by (rewrite Esb, Exb; apply load_snoc).
  rewrite LX2, LY2 in EYa, Es3. rewrite Lxb, LYb in Ewb, Esc.
  rewrite LXa in Hh.
  exists bias, Y', (set_bias default bias), st1, wa0, wb0, s2, Ya, s3, wa', wb', sa,
    wat, wb, Yv, h.
  split; [exact Hp|]. split; [exact Hsvd|]. split; [exact Hls0|].
  split; [exact Hfirst|].
  split; [reflexivity|]. split; [reflexivity|]. split; [exact HT|].
  assert (N3 : length s3 = S (length s2)) by (rewrite Es3, length_app; simpl; lia).
  assert (Nc : length sc = S (length sb)) by (rewrite Esc, length_app; simpl; lia).
  assert (N4 : length s4 = S (length sc)) by (rewrite Es4, length_app; simpl; lia).
  assert (N3c : (length s3 <= length sc)%nat).
  { destruct G as [L1 _]. destruct Gab as [L2 _]. destruct Gbc as [L3 _]. lia. }
  split.
  { rewrite (@grows_load _ _ _ Ya K3) by (rewrite EYa; simpl; lia).
    rewrite Es3, EYa. apply load_snoc. }
  split; [exact Hh|].
  split.
  { rewrite (@grows_load _ _ _ wb Kc) by (rewrite Ewb; simpl; lia).
    rewrite Esc, Ewb. apply load_snoc. }
  rewrite (@grows_load _ _ _ wat G4) by (rewrite Ewat; simpl; lia).
  rewrite (@grows_load _ _ _ (t_T wb) Kc) by (rewrite Ewb; simpl; lia).
  rewrite (@grows_load _ _ _ (t_T Ya) Kc) by (rewrite EYa; simpl; lia).
  rewrite Es4. rewrite Ewat at 1. apply load_snoc.
Qed.

End LastSweepFactors.

Lemma last_sweep_factors_witness :
  exists r st',
    factorize_matrix Reference.lib Examples.X2 Examples.Y2 Examples.W2 None
      (Some Examples.b2) (RInt 1) 3 Examples.st_bias = (Ok r, st')
    /\ exists ob Y' ret1 st1 wa0 wb0 s2 ya s3 wa' wb' sa wat wb Yv h,
        prologue Examples.Y2 (Some Examples.b2) Examples.st_bias
        = (Ok (ob, Y', ret1), st1)
        /\ _svd_initialize Reference.lib Examples.W2 None (RInt 1) st1
           = (Ok (wa0, wb0), s2)
        /\ _lstsq Reference.lib Examples.X2 Y' s2 = (Ok ya, s3)
        /\ als_sweeps Reference.lib (Z.to_nat (3 - 1)) Examples.X2 Y' ya wa0 wb0 s3
           = (Ok (wa', wb'), sa)
        /\ LowRankSolution.Wa r = Some (t_T wat) /\ LowRankSolution.Wb r = Some wb
        /\ target_value Examples.st_bias Examples.Y2 (Some Examples.b2) = Ok Yv
        /\ load st' ya
           = lstsq_solution Reference.lib (load Examples.st_bias Examples.X2) Yv
        /\ v_matmul (load Examples.st_bias Examples.X2) (load sa wa') = Ok h
        /\ load st' wb = lstsq_solution Reference.lib h Yv
        /\ load st' wat
           = lstsq_solution Reference.lib (load st' (t_T wb)) (load st' (t_T ya)).
Proof.
  eexists _, _. split; [vm_compute; reflexivity|].
  apply (@last_sweep_factors Reference.lib Examples.X2 Examples.Y2 Examples.W2 None
           (Some Examples.b2) (RInt 1) 3 Examples.st_bias 2 2 2 2 (RInt 1));
    first [ reflexivity | unfold allocated; simpl; lia | lia
          | vm_compute; reflexivity ].
Defined.

(** ** [factorize_conv2d]: the arguments it rejects *)

(** [biasB] without [Wb] is rejected, but not before the activations have
    been unfolded and the output computed: the call raises the error of those
    first statements when one of them fails, and [RuntimeError] otherwise.  It
    never returns a solution. *)
Theorem biasB_without_Wb_raises :
  forall T inputs Wa rank biasA b n_iters kw st,
    fst (factorize_conv2d T inputs Wa None rank biasA (Some b) n_iters kw st)
    = match fst (conv2d_operands T inputs Wa biasA kw st) with
      | Ok _ => Err RuntimeError
      | Err e => Err e
      end.
Proof.
  intros T inputs Wa rank biasA b n_iters kw st.
  unfold factorize_conv2d, conv2d_operands, bind, detach.
  destruct (_activations_conv2d_to_mat T inputs (skipn 2 (tshape Wa)) kw st)
    as [[X_mat|e] s1]; [|reflexivity].
  destruct (_weights_conv2d_to_mat T Wa s1) as [[Wm|e] s2]; [|reflexivity].
  destruct (t_matmul X_mat Wm s2) as [[Y_mat|e] s3]; [|reflexivity].
  destruct biasA as [a|]; simpl.
  - destruct (t_iadd Y_mat a s3) as [[u|e] s4]; reflexivity.
  - reflexivity.
Qed.

(** ** [factorize_conv2d]: stride and dilation *)

Lemma bind_congr {A B} (m m' : M A) (f : A -> M B) st :
  m st = m' st -> bind m f st = bind m' f st.
Proof. unfold bind. intros ->. reflexivity. Qed.

Lemma activations_unit_steps T activations kernel_size kw st :
  passes_guard (stride kw) -> passes_guard (dilation kw) ->
  _activations_conv2d_to_mat T activations kernel_size kw st
  = _activations_conv2d_to_mat T activations kernel_size (with_unit_steps kw) st.
Proof.
  intros (ms & Hs & Ls) (md & Hd & Ld).
  unfold _activations_conv2d_to_mat, with_unit_steps. simpl.
  rewrite Hs, Hd, !bind_lift_ok.
  replace (ms >? 1)%Z with false by (symmetry; rewrite Z.gtb_ltb; apply Z.ltb_ge; lia).
  rewrite bind_lift_ok.
  replace (md >? 1)%Z with false by (symmetry; rewrite Z.gtb_ltb; apply Z.ltb_ge; lia).
  reflexivity.
Qed.

(** Stride and dilation are only looked at by the guards: once they are
    let through (every component at most 1, so 0 and negative values too),
    the call behaves in every respect as with stride 1 and dilation 1. *)
Theorem conv2d_ignores_stride_and_dilation :
  forall T inputs Wa Wb rank biasA biasB n_iters kw st,
    passes_guard (stride kw) -> passes_guard (dilation kw) ->
    factorize_conv2d T inputs Wa Wb rank biasA biasB n_iters kw st
    = factorize_conv2d T inputs Wa Wb rank biasA biasB n_iters (with_unit_steps kw) st.
Proof.
  intros T inputs Wa Wb rank biasA biasB n_iters kw st Hs Hd.
  unfold factorize_conv2d, detach.
  apply bind_congr.
  exact (@activations_unit_steps T inputs (skipn 2 (tshape Wa)) kw st Hs Hd).
Qed.

Lemma conv2d_ignores_stride_and_dilation_witness :
  factorize_conv2d Reference.lib Examples.X2 Examples.W2 None (RInt 1) None None 3
    {| padding := IntP 0; padding_mode := Zeros; stride := TupleP [1; 0]%Z;
       dilation := IntP (-2); groups := 1 |} Examples.st_bias
  = factorize_conv2d Reference.lib Examples.X2 Examples.W2 None (RInt 1) None None 3
      (with_unit_steps
         {| padding := IntP 0; padding_mode := Zeros; stride := TupleP [1; 0]%Z;
            dilation := IntP (-2); groups := 1 |}) Examples.st_bias.
Proof.
  apply (@conv2d_ignores_stride_and_dilation Reference.lib Examples.X2 Examples.W2 None
           (RInt 1) None None 3
           {| padding := IntP 0; padding_mode := Zeros; stride := TupleP [1; 0]%Z;
              dilation := IntP (-2); groups := 1 |} Examples.st_bias);
    eexists; (split; [reflexivity|simpl; lia]).
Defined.

(** ** The activations as a matrix *)

Lemma in_all_indices_of (idx s : list nat) :
  Forall2 lt idx s -> In idx (all_indices s).
Proof.
  induction 1 as [|i d idx s Hi _ IH]; [left; reflexivity|].
  apply in_all_indices_cons. exists i, idx. auto.
Qed.

Lemma infer_cols (q F : nat) :
  (0 < F)%nat -> infer_size (q * F) [(-1)%Z; Z.of_nat F] = Ok [q; F].
Proof.
  intros HF.
  assert (Hne : (Z.of_nat F =? -1)%Z = false)
    by (destruct (Z.eqb_spec (Z.of_nat F) (-1)); [lia|reflexivity]).
  assert (Hlt : (Z.of_nat F <? -1)%Z = false)
    by (destruct (Z.ltb_spec (Z.of_nat F) (-1)); [lia|reflexivity]).
  assert (Hk : known_size [(-1)%Z; Z.of_nat F] = F).
  { simpl. rewrite Hne, Nat2Z.id. lia. }
  replace (q * F)%nat with (q * known_size [(-1)%Z; Z.of_nat F])%nat by (rewrite Hk; lia).
  rewrite infer_size_one.
  - simpl. now rewrite Hne, Nat2Z.id.
  - simpl. now rewrite Hlt.
  - unfold count_infer. simpl. now rewrite Hne.
  - rewrite Hk. exact HF.
Qed.

Lemma nth_map_in_range {A B} (g : A -> B) (l : list A) (i : nat) (d : A) (d' : B) :
  (i < length l)%nat -> nth i (map g l) d' = g (nth i l d).
Proof.
  intros Hi. rewrite nth_indep with (d' := g d) by (now rewrite length_map).
  apply map_nth.
Qed.

Section ActivationsMatrix.
Variable T : torch_lib.

(** The transposition and the reshape that end
[_activations_conv2d_to_mat], on the tensor [F.unfold] returned. *)
Lemma activations_tail (r : tensor) st u B F L :
  view r = mkArr [B; F; L] (seq 0 (length (elems u))) ->
  nth (storage r) st [] = elems u ->
  length (elems u) = (B * F * L)%nat -> (0 < F)%nat ->
  exists m st',
    (rt <- lift (t_transpose 1 2 r) ;;
     fan_in <- lift (shape_at (tshape rt) 2) ;;
     t_reshape T rt [(-1)%Z; Z.of_nat fan_in]) st = (Ok m, st')
    /\ tshape m = [(B * L)%nat; F]
    /\ forall b l f, (b < B)%nat -> (l < L)%nat -> (f < F)%nat ->
         nth ((b * L + l) * F + f) (elems (load st' m)) 0
         = nth ((b * F + f) * L + l) (elems u) 0.
Proof.
  intros Hv Hst Hlen HF.
  set (rt := mkTensor (storage r) (transpose_dims 0%nat 1 2 (view r))).
  assert (Ht : t_transpose 1 2 r = Ok rt).
  { unfold t_transpose, tshape, rt. rewrite Hv. reflexivity. }
  assert (Hs : tshape rt = [B; L; F]).
  { unfold rt, tshape, transpose_dims. rewrite Hv. reflexivity. }
  assert (Hinf : infer_size (numel (tshape rt)) [(-1)%Z; Z.of_nat F] = Ok [(B * L)%nat; F]).
  { rewrite Hs. replace (numel [B; L; F]) with (B * L * F)%nat by (simpl; ring).
    now apply infer_cols. }
  destruct (@t_reshape_run T rt [(-1)%Z; Z.of_nat F] _ st Hinf)
    as (m & st' & Hrun & Hm & _ & Hload).
  exists m, st'. rewrite Ht, bind_lift_ok, Hs.
  change (shape_at [B; L; F] 2) with (@Ok nat F). rewrite bind_lift_ok.
  split; [exact Hrun|]. split; [exact Hm|].
  intros b l f Hb Hl Hf. rewrite Hload. simpl elems.
  unfold load, rt. simpl storage. simpl view. rewrite Hst.
  unfold transpose_dims. rewrite Hv. simpl elems. simpl shape.
  change (swap_nth 0%nat 1 2 [B; F; L]) with [B; L; F].
  unfold gather. rewrite !map_map.
  assert (Hin : In [b; l; f] (all_indices [B; L; F])).
  { apply in_all_indices_of. repeat constructor; assumption. }
  replace ((b * L + l) * F + f)%nat with (ravel [B; L; F] [b; l; f]) by (simpl; ring).
  rewrite nth_map_in_range with (d := [])
    by (rewrite length_all_indices; now apply ravel_lt).
  rewrite nth_ravel by exact Hin.
  change (swap_nth 0%nat 1 2 [b; l; f]) with [b; f; l].
  assert (Hin' : In [b; f; l] (all_indices [B; F; L])).
  { apply in_all_indices_of. repeat constructor; assumption. }
  pose proof (ravel_lt _ _ Hin') as Hlt.
  rewrite seq_nth
    by (rewrite Hlen; replace (B * F * L)%nat with (numel [B; F; L]) by (simpl; ring);
        exact Hlt).
  f_equal. simpl. ring.
Qed.

(** The statements before them: the guards, the padding and the
unfolding. *)
Lemma activations_head a ks kw st u :
  passes_guard (stride kw) -> passes_guard (dilation kw) -> groups kw = 1%Z ->
  unfolded_patches T (load st a) ks kw = Ok u ->
  exists s1,
    _activations_conv2d_to_mat T a ks kw st
    = (rt <- lift (t_transpose 1 2 (fresh_tensor s1 u)) ;;
       fan_in <- lift (shape_at (tshape rt) 2) ;;
       t_reshape T rt [(-1)%Z; Z.of_nat fan_in]) (s1 ++ [elems u]).
Proof.
  intros (ms & Hs & Ls) (md & Hd & Ld) Hg Hu.
  unfold _activations_conv2d_to_mat.
  rewrite Hs, bind_lift_ok.
  replace (ms >? 1)%Z with false by (symmetry; rewrite Z.gtb_ltb; apply Z.ltb_ge; lia).
  rewrite Hd, bind_lift_ok.
  replace (md >? 1)%Z with false by (symmetry; rewrite Z.gtb_ltb; apply Z.ltb_ge; lia).
  rewrite Hg. change (negb (1 =? 1)%Z) with false. cbv iota.
  unfold unfolded_patches in Hu.
  destruct (np_max (padding kw)) as [mp|e]; [|discriminate]. simpl in Hu.
  rewrite bind_lift_ok.
  assert (Hrun : exists a' p' s1,
             (if ((mp >? 0)%Z && negb (is_zeros (padding_mode kw)))%bool
              then a0 <- t_pad T a (padding kw) (padding_mode kw) ;; ret (a0, IntP 0)
              else ret (a, padding kw)) st = (Ok (a', p'), s1)
             /\ t_unfold T a' ks p' s1 = (Ok (fresh_tensor s1 u), s1 ++ [elems u])).
  { destruct ((mp >? 0)%Z && negb (is_zeros (padding_mode kw)))%bool.
    - destruct (pad T (load st a) (padding kw) (padding_mode kw)) as [v'|e] eqn:Ep;
        [|discriminate]. simpl in Hu.
      exists (fresh_tensor st v'), (IntP 0), (st ++ [elems v']). split.
      + unfold t_pad, bind, get_value, lift, ret. rewrite Ep, fresh_run. reflexivity.
      + unfold t_unfold, bind, get_value, lift. rewrite load_snoc, Hu. apply fresh_run.
    - exists a, (padding kw), st. split; [reflexivity|].
      unfold t_unfold, bind, get_value, lift. rewrite Hu. apply fresh_run. }
  destruct Hrun as (a' & p' & s1 & E1 & E2).
  exists s1. rewrite (bind_ok _ _ _ E1), (bind_ok _ _ _ E2). reflexivity.
Qed.

(** On a supported configuration, when the patches [u] that [F.unfold]
gives (after [F.pad], if the padding is not by zeros) have shape
[B, F, L] with [F > 0], [_activations_conv2d_to_mat] returns the matrix of
shape [B * L, F] whose row [b * L + l] is the patch at position [l] of
image [b]: its entry [f] is [u[b, f, l]]. *)
Theorem activations_matrix :
  forall a ks kw st u B F L,
    passes_guard (stride kw) -> passes_guard (dilation kw) -> groups kw = 1%Z ->
    unfolded_patches T (load st a) ks kw = Ok u ->
    shape u = [B; F; L] -> length (elems u) = (B * F * L)%nat -> (0 < F)%nat ->
    exists m st',
      _activations_conv2d_to_mat T a ks kw st = (Ok m, st')
      /\ tshape m = [(B * L)%nat; F]
      /\ forall b l f, (b < B)%nat -> (l < L)%nat -> (f < F)%nat ->
           nth ((b * L + l) * F + f) (elems (load st' m)) 0
           = nth ((b * F + f) * L + l) (elems u) 0.
Proof.
  intros a ks kw st u B F L Hs Hd Hg Hu Hsh Hlen HF.
  destruct (@activations_head a ks kw st u Hs Hd Hg Hu) as (s1 & ->).
  apply activations_tail; auto.
  - unfold fresh_tensor. simpl. now rewrite Hsh.
  - unfold fresh_tensor. simpl. apply nth_middle.
Qed.

End ActivationsMatrix.

Lemma activations_matrix_witness :
  exists m st',
    _activations_conv2d_to_mat Pointwise.lib Pointwise.images [1; 1]%nat default_kwargs
      Pointwise.st_images = (Ok m, st')
    /\ tshape m = [(2 * 2)%nat; 2%nat]
    /\ forall b l f, (b < 2)%nat -> (l < 2)%nat -> (f < 2)%nat ->
         nth ((b * 2 + l) * 2 + f) (elems (load st' m)) 0
         = nth ((b * 2 + f) * 2 + l)
             (elems (mkArr [2; 2; 2]%nat
                       (elems (load Pointwise.st_images Pointwise.images)))) 0.
Proof.
  apply (@activations_matrix Pointwise.lib Pointwise.images [1; 1]%nat default_kwargs
           Pointwise.st_images
           (mkArr [2; 2; 2]%nat (elems (load Pointwise.st_images Pointwise.images)))
           2 2 2);
    first [ reflexivity | lia | eexists; split; [reflexivity|simpl; lia] ].
Defined.

(** ** The weights as a matrix *)

(** The entries of [t.T] for a matrix [t]. *)
Lemma nth_load_T st (t : tensor) (a b i j : nat) :
  tshape t = [a; b] -> length (elems (view t)) = (a * b)%nat ->
  (i < b)%nat -> (j < a)%nat ->
  nth (i * a + j) (elems (load st (t_T t))) 0 = nth (j * b + i) (elems (load st t)) 0.
Proof.
  intros Hs Hlen Hi Hj. unfold load, t_T, transpose_arr. simpl.
  unfold tshape in Hs. rewrite Hs. simpl rev.
  unfold gather. rewrite !map_map.
  assert (Hin : In [i; j] (all_indices [b; a])).
  { apply in_all_indices_of. repeat constructor; assumption. }
  replace (i * a + j)%nat with (ravel [b; a] [i; j]) by (simpl; ring).
  rewrite nth_map_in_range with (d := [])
    by (rewrite length_all_indices; now apply ravel_lt).
  rewrite nth_ravel by exact Hin.
  assert (Hin' : In [j; i] (all_indices [a; b])).
  { apply in_all_indices_of. repeat constructor; assumption. }
  pose proof (ravel_lt _ _ Hin') as Hlt.
  change (rev [i; j]) with [j; i].
  replace (j * b + i)%nat with (ravel [a; b] [j; i]) by (simpl; ring).
  symmetry.
  apply (nth_map_in_range (fun p => nth p (nth (storage t) st []) 0)
           (elems (view t)) 0%nat 0).
  rewrite Hlen. replace (a * b)%nat with (numel [a; b]) by (simpl; ring). exact Hlt.
Qed.

(** For a weight tensor with [o > 0] output channels,
    [_weights_conv2d_to_mat] returns the matrix of shape [fan_in, o], for
    [fan_in] the number of entries of one filter, whose column [c] is the
    filter of output channel [c], flattened: entry [(j, c)] is the entry [j]
    of that filter. *)
Theorem weights_matrix_entries :
  forall T w o rest st,
    tshape w = o :: rest -> (0 < o)%nat ->
    length (elems (view w)) = numel (tshape w) ->
    exists m st',
      _weights_conv2d_to_mat T w st = (Ok m, st')
      /\ tshape m = [numel rest; o]
      /\ forall j c, (j < numel rest)%nat -> (c < o)%nat ->
           nth (j * o + c) (elems (load st' m)) 0
           = nth (c * numel rest + j) (elems (load st w)) 0.
Proof.
  intros T w o rest st Hs Ho Hlen.
  assert (Hinf : infer_size (numel (tshape w)) [Z.of_nat o; (-1)%Z] = Ok [o; numel rest]).
  { rewrite Hs. apply (infer_rows (numel rest) Ho). }
  destruct (@t_reshape_run T w [Z.of_nat o; (-1)%Z] _ st Hinf)
    as (r & st' & Hrun & Hr & Hrl & Hload).
  exists (t_T r), st'. unfold _weights_conv2d_to_mat.
  rewrite Hs. change (shape_at (o :: rest) 0) with (@Ok nat o).
  rewrite bind_lift_ok, (bind_ok _ _ _ Hrun).
  split; [reflexivity|]. split.
  - unfold t_T, tshape, transpose_arr. simpl. unfold tshape in Hr. now rewrite Hr.
  - intros j c Hj Hc.
    rewrite (@nth_load_T st' r o (numel rest) j c Hr); try assumption.
    + now rewrite Hload.
    + rewrite Hrl, Hlen, Hs. reflexivity.
Qed.

Lemma weights_matrix_entries_witness :
  exists m st',
    _weights_conv2d_to_mat Reference.lib KernelExample.K KernelExample.st_kernel
    = (Ok m, st')
    /\ tshape m = [numel [2; 1; 2]%nat; 2%nat]
    /\ forall j c, (j < numel [2; 1; 2]%nat)%nat -> (c < 2)%nat ->
         nth (j * 2 + c) (elems (load st' m)) 0
         = nth (c * numel [2; 1; 2]%nat + j)
             (elems (load KernelExample.st_kernel KernelExample.K)) 0.
Proof.
  apply (@weights_matrix_entries Reference.lib KernelExample.K 2 [2; 1; 2]%nat
           KernelExample.st_kernel);
    first [ reflexivity | lia ].
Defined.

(** ** A matrix as weights *)

Lemma infer_filters (O F kh kw : nat) :
  (0 < O)%nat ->
  infer_size (numel [O; F]) (Z.of_nat O :: (-1)%Z :: map Z.of_nat [kh; kw])
  = if ((0 <? kh * kw) && (F mod (kh * kw) =? 0))%nat
    then Ok [O; (F / (kh * kw))%nat; kh; kw]
    else Err RuntimeError.
Proof.
  intros HO.
  set (spec := Z.of_nat O :: (-1)%Z :: map Z.of_nat [kh; kw]).
  assert (Hne : forall n : nat, (Z.of_nat n =? -1)%Z = false)
    by (intros n; destruct (Z.eqb_spec (Z.of_nat n) (-1)); [lia|reflexivity]).
  assert (Hlt : forall n : nat, (Z.of_nat n <? -1)%Z = false)
    by (intros n; destruct (Z.ltb_spec (Z.of_nat n) (-1)); [lia|reflexivity]).
  assert (Hk : known_size spec = (O * (kh * kw))%nat).
  { unfold spec. simpl. rewrite !Hne, !Nat2Z.id. ring. }
  assert (Hc : count_infer spec = 1%nat).
  { unfold spec, count_infer. simpl. now rewrite !Hne. }
  assert (Hx : existsb (fun z => (z <? -1)%Z) spec = false).
  { unfold spec. simpl. now rewrite !Hlt. }
  assert (Hn : numel [O; F] = (O * F)%nat) by (simpl; ring).
  destruct (Nat.ltb_spec 0 (kh * kw)) as [HK|HK]; simpl andb.
  - destruct (Nat.eqb_spec (F mod (kh * kw)) 0) as [Hm|Hm].
    + assert (HF : F = (F / (kh * kw) * (kh * kw))%nat).
      { rewrite (Nat.div_mod_eq F (kh * kw)) at 1. rewrite Hm. lia. }
      replace (numel [O; F]) with (F / (kh * kw) * known_size spec)%nat
        by (rewrite Hk, Hn; rewrite HF at 2; ring).
      rewrite infer_size_one; auto.
      * unfold spec. simpl. now rewrite !Hne, !Nat2Z.id.
      * rewrite Hk. apply Nat.mul_pos_pos; assumption.
    + unfold infer_size. rewrite Hx, Hc, Hk, Hn.
      assert (Hmod : ((O * F) mod (O * (kh * kw)) <> 0)%nat).
      { rewrite Nat.Div0.mul_mod_distr_l. nia. }
      destruct (Nat.eqb_spec (O * F) (O * (kh * kw))) as [E|_].
      * exfalso. apply Hm. assert (F = (kh * kw)%nat) by nia. subst F.
        apply Nat.Div0.mod_same.
      * destruct (Nat.eqb_spec ((O * F) mod (O * (kh * kw))) 0) as [E|_]; [contradiction|].
        now rewrite andb_false_r.
  - assert (HK0 : (kh * kw = 0)%nat) by lia.
    unfold infer_size. rewrite Hx, Hc, Hk, Hn, HK0, Nat.mul_0_r. simpl.
    destruct (O * F =? 0)%nat; reflexivity.
Qed.

(** [_mat_to_weights_conv2d] on a matrix of shape [F, O] with [O > 0]
    columns and a kernel size [(kh, kw)]: when [kh * kw] is positive and
    divides [F], the result has shape [O, F / (kh * kw), kh, kw] and its
    filter [c] holds column [c] of the matrix, in order; otherwise the
    reshape raises [RuntimeError]. *)
Theorem matrix_to_weights_shape :
  forall T m F O kh kw st,
    tshape m = [F; O] -> (0 < O)%nat ->
    length (elems (view m)) = (F * O)%nat ->
    if ((0 <? kh * kw) && (F mod (kh * kw) =? 0))%nat
    then exists w st',
        _mat_to_weights_conv2d T (Some m) [kh; kw] st = (Ok (Some w), st')
        /\ tshape w = [O; (F / (kh * kw))%nat; kh; kw]
        /\ forall j c, (j < F)%nat -> (c < O)%nat ->
             nth (c * F + j) (elems (load st' w)) 0
             = nth (j * O + c) (elems (load st m)) 0
    else _mat_to_weights_conv2d T (Some m) [kh; kw] st = (Err RuntimeError, st).
Proof.
  intros T m F O kh kw st Hs HO Hlen.
  assert (HT : tshape (t_T m) = [O; F]).
  { unfold t_T, tshape, transpose_arr. simpl. unfold tshape in Hs. now rewrite Hs. }
  pose proof (@infer_filters O F kh kw HO) as Hinf.
  unfold _mat_to_weights_conv2d. rewrite HT.
  change (shape_at [O; F] 0) with (@Ok nat O). rewrite bind_lift_ok.
  destruct ((0 <? kh * kw) && (F mod (kh * kw) =? 0))%nat.
  - rewrite <- HT in Hinf.
    destruct (@t_reshape_run T (t_T m) _ _ st Hinf) as (r & st' & Hrun & Hr & _ & Hload).
    exists r, st'. rewrite (bind_ok _ _ _ Hrun).
    split; [reflexivity|]. split; [exact Hr|].
    intros j c Hj Hc. rewrite Hload. simpl elems.
    apply nth_load_T; assumption.
  - unfold t_reshape. rewrite HT, Hinf. reflexivity.
Qed.

Lemma matrix_to_weights_shape_witness :
  exists w st',
    _mat_to_weights_conv2d Reference.lib (Some Examples.Wa83) [2; 2]%nat Examples.st_rows
    = (Ok (Some w), st')
    /\ tshape w = [3; (8 / (2 * 2))%nat; 2; 2]%nat
    /\ forall j c, (j < 8)%nat -> (c < 3)%nat ->
         nth (c * 8 + j) (elems (load st' w)) 0
         = nth (j * 3 + c) (elems (load Examples.st_rows Examples.Wa83)) 0.
Proof.
  apply (@matrix_to_weights_shape Reference.lib Examples.Wa83 8 3 2 2 Examples.st_rows);
    first [ reflexivity | lia ].
Defined.

(** ** The shapes of the factors *)

Lemma v_matmul_shape a b h n k m :
  v_matmul a b = Ok h -> shape a = [n; k] -> shape b = [k; m] -> shape h = [n; m].
Proof.
  unfold v_matmul. intros H Ha Hb. rewrite Ha, Hb, Nat.eqb_refl in H.
  inversion H. reflexivity.
Qed.

Lemma bshape_rev_same (s : list nat) : bshape_rev s s = Some s.
Proof.
  induction s as [|x s IH]; [reflexivity|]. simpl. now rewrite IH, Nat.eqb_refl.
Qed.

Lemma broadcast_shapes_same (s : list nat) : broadcast_shapes s s = Some s.
Proof.
  unfold broadcast_shapes. rewrite bshape_rev_same. simpl. now rewrite rev_involutive.
Qed.

Lemma v_binop_shape f a b v s :
  v_binop f a b = Ok v -> shape a = s -> shape b = s -> shape v = s.
Proof.
  unfold v_binop. intros H Ha Hb. rewrite Ha, Hb, broadcast_shapes_same in H.
  inversion H. reflexivity.
Qed.

Lemma v_mean0_shape a m n rest :
  v_mean0 a = Ok m -> shape a = n :: rest -> shape m = rest.
Proof.
  unfold v_mean0. intros H Ha. rewrite Ha in H. inversion H. reflexivity.
Qed.

Lemma slice_stop_below (n : nat) (k : Z) :
  (0 <= k)%Z -> (k < Z.of_nat n)%Z -> slice_stop n k = Z.to_nat k.
Proof.
  intros H0 Hk. unfold slice_stop.
  destruct (Z.ltb_spec k 0); lia.
Qed.

Section FactorShapes.
Variable T : torch_lib.
Hypothesis lstsq_shape : lstsq_shaped T.
Hypothesis svd_shape : svd_shaped T.
Import LowRankSolution.

Lemma lstsq_tensor_shape A B st t st' n p q :
  _lstsq T A B st = (Ok t, st') ->
  tshape A = [n; p] -> tshape B = [n; q] -> tshape t = [p; q].
Proof.
  intros H HA HB. apply lstsq_ok_inv in H. destruct H as [-> _].
  unfold fresh_tensor, tshape. simpl.
  exact (lstsq_shape (load st A) (load st B) HA HB).
Qed.

Lemma t_matmul_shape a b st t st' n k m :
  t_matmul a b st = (Ok t, st') ->
  tshape a = [n; k] -> tshape b = [k; m] -> tshape t = [n; m].
Proof.
  intros H Ha Hb. apply t_matmul_inv in H. destruct H as (v & Hv & -> & _).
  unfold fresh_tensor, tshape. simpl. eapply v_matmul_shape; eauto.
Qed.

Lemma t_T_shape t a b : tshape t = [a; b] -> tshape (t_T t) = [b; a].
Proof.
  unfold t_T, tshape, transpose_arr. simpl. intros ->. reflexivity.
Qed.

(** The factors the SVD initialisation returns have [k] as inner
dimension. *)
Lemma svd_initialize_shapes Wa Wb k st wa0 wb0 s2 D d Mo :
  _svd_initialize T Wa Wb (RInt k) st = (Ok (wa0, wb0), s2) ->
  operator_fits Wa Wb D d Mo ->
  (0 <= k)%Z -> (k < Z.of_nat D)%Z -> (k < Z.of_nat Mo)%Z ->
  tshape wa0 = [D; Z.to_nat k] /\ tshape wb0 = [Z.to_nat k; Mo].
Proof.
  unfold _svd_initialize. intros H [HWa HWb] H0 HD HM.
  inv_bind H. rename a into W, s into s0, Hstep into HW.
  assert (HsW : tshape W = [D; Mo]).
  { destruct Wb as [wb|].
    - eapply t_matmul_shape; eauto.
    - inversion HW; subst. exact HWa. }
  inv_bind H. destruct a as [[U sv] Vt]. rename Hstep into Hsvd, s into s1.
  unfold t_svd in Hsvd. unfold bind at 1 in Hsvd. unfold get_value in Hsvd.
  inv_bind Hsvd. destruct a as [[vU vs] vVt].
  apply lift_ok_inv in Hstep. destruct Hstep as [Hk ->].
  unfold bind, ret in Hsvd. rewrite !fresh_run in Hsvd. inversion Hsvd; subst U sv Vt s1.
  clear Hsvd.
  destruct (svd_shape (load s0 W) HsW Hk) as (HU & Hs & HVt).
  change (as_index (RInt k)) with (@Ok Z k) in H. rewrite bind_lift_ok in H.
  inv_bind H. apply lift_ok_inv in Hstep. destruct Hstep as [Ewa ->]. rename a into wa.
  inv_bind H. apply lift_ok_inv in Hstep. destruct Hstep as [Ewb ->]. rename a into wb.
  inv_bind H. inv_bind H. inv_bind H. inv_bind H. inv_bind H.
  inversion H; subst wa0 wb0.
  unfold t_slice in Ewa, Ewb. simpl in Ewa, Ewb.
  rewrite HU in Ewa. rewrite HVt in Ewb. simpl in Ewa, Ewb.
  inversion Ewa. inversion Ewb. unfold tshape, slice_axis. simpl.
  rewrite !slice_stop_below by lia. split; reflexivity.
Qed.

Lemma als_sweeps_shapes X Y Ya N D Mo kn :
  tshape X = [N; D] -> tshape Y = [N; Mo] -> tshape Ya = [D; Mo] ->
  forall n Wa Wb st wa wb st',
    tshape Wa = [D; kn] -> tshape Wb = [kn; Mo] ->
    als_sweeps T n X Y Ya Wa Wb st = (Ok (wa, wb), st') ->
    tshape wa = [D; kn] /\ tshape wb = [kn; Mo].
Proof.
  intros HX HY HYa. induction n as [|n IH]; intros Wa Wb st wa wb st' HWa HWb H.
  - simpl in H. inversion H; subst. auto.
  - rewrite als_sweeps_S in H.
    inv_bind H. rename a into xb, Hstep into H1.
    inv_bind H. rename a into wb1, Hstep into H2.
    inv_bind H. rename a into wat, Hstep into H3.
    assert (Hxb : tshape xb = [N; kn]) by (eapply t_matmul_shape; eauto).
    assert (Hwb1 : tshape wb1 = [kn; Mo]) by (eapply lstsq_tensor_shape; eauto).
    assert (Hwat : tshape wat = [kn; D]).
    { eapply lstsq_tensor_shape; [exact H3| |]; apply t_T_shape; eassumption. }
    apply (IH _ _ _ _ _ _ (t_T_shape _ Hwat) Hwb1 H).
Qed.

Lemma epilogue_bias_shape X Y ob ret1 k Wa Wb st r st' N D Mo kn :
  epilogue X Y ob ret1 k Wa Wb st = (Ok r, st') ->
  tshape X = [N; D] -> tshape Y = [N; Mo] ->
  tshape Wa = [D; kn] -> tshape Wb = [kn; Mo] ->
  exists b, bias r = Some b /\ tshape b = [Mo].
Proof.
  unfold epilogue. intros H HX HY HWa HWb.
  inv_bind H. rename a into XWa, Hstep into H1.
  inv_bind H. rename a into Y_hat, Hstep into H2.
  inv_bind H. rename a into resid, Hstep into H3.
  inv_bind H. rename a into b, Hstep into H4.
  inv_bind H. inv_bind H. inv_bind H. inversion H; subst r.
  exists b. split; [reflexivity|].
  assert (HXWa : tshape XWa = [N; kn]) by (eapply t_matmul_shape; eauto).
  assert (HYh : tshape Y_hat = [N; Mo]) by (eapply t_matmul_shape; eauto).
  apply t_binop_inv in H3. destruct H3 as (v & Hv & -> & _).
  apply t_mean0_inv in H4. destruct H4 as (m & Hm & -> & _).
  unfold fresh_tensor, tshape. simpl.
  eapply v_mean0_shape; [exact Hm|]. simpl.
  eapply v_binop_shape; [exact Hv|exact HY|exact HYh].
Qed.

(** When the kernels return tensors of the shapes torch documents, the
solution a valid call returns from the iterative path, for a resolved rank
[k >= 0], is made of a [Wa] of shape [D, k], a [Wb] of shape [k, M] and a
bias of shape [M], whatever the number of sweeps. *)
Theorem factor_shapes :
  forall X Y Wa Wb bias rank n_iters st N D Mo d k r st',
    tshape X = [N; D] -> tshape Y = [N; Mo] -> bias_fits bias Mo ->
    operator_fits Wa Wb D d Mo ->
    allocated st Y ->
    resolve_rank X Wa rank = Ok (RInt k) ->
    (0 <= k)%Z ->
    num_ge (RInt k) D = false -> num_ge (RInt k) Mo = false ->
    num_ge (RInt k) d = false ->
    factorize_matrix T X Y Wa Wb bias rank n_iters st = (Ok r, st') ->
    exists wa wb b,
      LowRankSolution.Wa r = Some wa /\ LowRankSolution.Wb r = Some wb
      /\ LowRankSolution.bias r = Some b
      /\ LowRankSolution.rank r = RInt k
      /\ tshape wa = [D; Z.to_nat k] /\ tshape wb = [Z.to_nat k; Mo]
      /\ tshape b = [Mo].
Proof.
  intros X Y Wa Wb bias rank n_iters st N D Mo d k r st'
    HX HY Hb Hop AY Hr H0 ED EM Ed Hrun.
  destruct (@target_value_shape st Y bias N Mo HY Hb) as (Yv & HT & HS).
  destruct (@prologue_run st Y bias Yv HT AY) as (Y' & st1 & ext & Hp & Est1 & AY' & HS' & HL).
  rewrite factorize_matrix_eq, Hr, bind_lift_ok, (bind_ok _ _ _ Hp) in Hrun.
  rewrite HS in HS'.
  assert (HWa : tshape Wa = [D; d]) by (destruct Hop; assumption).
  rewrite (@branches_iterative T X Y' Wa Wb bias _ (RInt k) n_iters st1 D Mo d) in Hrun;
    auto; try (rewrite ?HX, ?HS', ?HWa; reflexivity).
  apply iterative_stages in Hrun.
  destruct Hrun as (wa0 & wb0 & s2 & Ya & s3 & wa & wb & s4 & b & e
                    & Hsvd & Hls & Hals & Hep & -> & _).
  simpl in ED, EM. apply Z.leb_gt in ED. apply Z.leb_gt in EM.
  destruct (@svd_initialize_shapes Wa Wb k st1 wa0 wb0 s2 D d Mo Hsvd Hop H0 ED EM)
    as [Hwa0 Hwb0].
  assert (HYa : tshape Ya = [D; Mo]) by (eapply lstsq_tensor_shape; eauto).
  destruct (@als_sweeps_shapes X Y' Ya N D Mo (Z.to_nat k) HX HS' HYa
              (Z.to_nat n_iters) wa0 wb0 s3 wa wb s4 Hwa0 Hwb0 Hals) as [Hwa Hwb].
  destruct (@epilogue_bias_shape X Y' bias _ (RInt k) wa wb s4 _ st' N D Mo (Z.to_nat k)
              Hep HX HS' Hwa Hwb) as (b' & Eb & Hb').
  simpl in Eb. inversion Eb; subst b'.
  exists wa, wb, b. auto 10.
Qed.

End FactorShapes.

Lemma reference_lstsq_shaped : lstsq_shaped Reference.lib.
Proof.
  intros A B n p q HA HB. simpl. unfold Reference.lstsq_orth.
  rewrite HA, HB. reflexivity.
Qed.

Lemma reference_svd_shaped : svd_shaped Reference.lib.
Proof.
  intros W m n U s Vt HW H. simpl in H. unfold Reference.svd_diag in H.
  rewrite HW in H. inversion H. repeat split.
Qed.

Lemma factor_shapes_witness :
  exists r st',
    factorize_matrix Reference.lib Examples.X2 Examples.Y2 Examples.W2 None
      (Some Examples.b2) (RInt 1) 3 Examples.st_bias = (Ok r, st')
    /\ exists wa wb b,
        LowRankSolution.Wa r = Some wa /\ LowRankSolution.Wb r = Some wb
        /\ LowRankSolution.bias r = Some b
        /\ LowRankSolution.rank r = RInt 1
        /\ tshape wa = [2%nat; Z.to_nat 1] /\ tshape wb = [Z.to_nat 1; 2%nat]
        /\ tshape b = [2%nat].
Proof.
  eexists _, _. split; [vm_compute; reflexivity|].
  eapply (@factor_shapes Reference.lib reference_lstsq_shaped reference_svd_shaped
           Examples.X2 Examples.Y2 Examples.W2 None (Some Examples.b2) (RInt 1) 3
           Examples.st_bias 2 2 2 2 1);
    first [ reflexivity | split; reflexivity | unfold allocated; simpl; lia | lia
          | vm_compute; reflexivity ].
Defined.

(** ** The bias of a factorized convolution *)

Lemma mono_conv_bias_post n r : mono (conv_bias_post n r).
Proof.
  intros st st' Hl [H|(b & Hb & Ho)]; [left; exact H|right].
  exists b. split; [exact Hb|]. unfold owned in *. lia.
Qed.

Section ConvBias.
Variable T : torch_lib.
Variable n : nat.
Import LowRankSolution.

Lemma hoare_bind_ret {A B} (P : store -> Prop) (a : A) (f : A -> M B)
  (R : B -> store -> Prop) :
  hoare n P (f a) R -> hoare n P (bind (ret a) f) R.
Proof. intros H st Hn Hp. exact (H st Hn Hp). Qed.

Lemma hoare_branches_bias X Y Wa Wb k n_iters :
  hoare n (fun _ => True) (branches T X Y Wa Wb None default k n_iters)
    (conv_bias_post n).
Proof.
  unfold branches.
  apply hoare_bind_lift. intros D HD.
  eapply hoare_bind with (Q := fun _ _ => True).
  { destruct (num_ge k D).
    - apply hoare_ret. auto.
    - apply hoare_bind_lift. intros Mo HMo. apply hoare_ret. auto. }
  intros [|].
  - apply hoare_bind_alloc; [apply allocating_lstsq|apply mono_const|]. intros wa.
    apply hoare_ret. intros st _. left. repeat split.
  - apply hoare_bind_lift. intros d Hd.
    destruct (num_ge k d).
    + apply hoare_ret. intros st _. left. repeat split.
    + eapply hoare_weaken;
        [apply hoare_iterative with (P := fun _ => True); apply mono_const|auto|].
      intros r st (_ & wa & wb & b & e & Er & _ & _ & Hb). right. exists b.
      rewrite Er. auto.
Qed.

Lemma hoare_factorize_matrix_bias X Y Wa Wb rank n_iters :
  hoare n (fun _ => True) (factorize_matrix T X Y Wa Wb None rank n_iters)
    (conv_bias_post n).
Proof.
  rewrite factorize_matrix_eq. apply hoare_bind_lift. intros k Hk.
  simpl prologue. apply hoare_bind_ret. apply hoare_branches_bias.
Qed.

Lemma hoare_iadd_owned (Y_mat : tensor) (bias : option tensor) :
  hoare n (fun st => True /\ owned n st Y_mat)
    match bias with
    | Some b => t_iadd Y_mat b
    | None => ret tt
    end
    (fun _ _ => True).
Proof.
  destruct bias as [b|].
  - eapply hoare_weaken;
      [apply hoare_inplace with (P := fun st => True /\ owned n st Y_mat)| |].
    + intros st [_ [H _]]. exact H.
    + hmono.
    + auto.
    + auto.
  - apply hoare_ret. auto.
Qed.

Lemma hoare_conv2d_bias inputs Wa Wb rank biasA biasB n_iters kw :
  hoare n (fun _ => True)
    (factorize_conv2d T inputs Wa Wb rank biasA biasB n_iters kw)
    (conv_bias_post n).
Proof.
  unfold factorize_conv2d, detach.
  eapply hoare_bind; [apply hoare_activations; apply mono_const|]. intros X_mat. simpl.
  eapply hoare_pre with (P' := fun _ => True); [|auto].
  eapply hoare_bind; [apply hoare_weights_to_mat; apply mono_const|]. intros Wa_m. simpl.
  eapply hoare_pre with (P' := fun _ => True); [|auto].
  apply hoare_bind_alloc; [apply allocating_matmul|apply mono_const|]. intros Y_mat.
  eapply hoare_bind; [apply hoare_iadd_owned|]. intros u. simpl.
  eapply hoare_bind with (Q := fun _ _ => True).
  { destruct Wb as [wb|].
    - eapply hoare_bind; [apply hoare_weights_to_mat; apply mono_const|].
      intros Wb_m. simpl.
      eapply hoare_pre with (P' := fun _ => True); [|auto].
      apply hoare_bind_alloc; [apply allocating_matmul|apply mono_const|]. intros Y_mat'.
      eapply hoare_bind; [apply hoare_iadd_owned|]. intros u'. simpl.
      apply hoare_ret. auto.
    - destruct biasB; [apply hoare_raise|apply hoare_ret; auto]. }
  intros [Wb_m Y_mat']. simpl.
  eapply hoare_bind; [apply hoare_factorize_matrix_bias|]. intros r0. simpl.
  eapply hoare_bind;
    [apply hoare_mat_to_weights with (P := conv_bias_post n r0);
     apply mono_conv_bias_post|].
  intros a. simpl.
  eapply hoare_pre with (P' := conv_bias_post n r0); [|intros st [H _]; exact H].
  eapply hoare_bind;
    [apply hoare_mat_to_weights with (P := conv_bias_post n r0);
     apply mono_conv_bias_post|].
  intros b. simpl.
  apply hoare_ret. intros st [H _]. exact H.
Qed.

End ConvBias.

(** The solution [factorize_conv2d] returns never carries [biasA] or
    [biasB].  From the degenerate branches it has no bias at all, even when
    the convolution had one (with the sentinel rank and the default [nmse]);
    from the iterative path its bias is a tensor on a storage the call
    allocated. *)
Theorem conv2d_solution_bias :
  forall T inputs Wa Wb rank biasA biasB n_iters kw st r st',
    factorize_conv2d T inputs Wa Wb rank biasA biasB n_iters kw st = (Ok r, st') ->
    (LowRankSolution.rank r = sentinel /\ LowRankSolution.bias r = None
     /\ LowRankSolution.nmse r = 0)
    \/ (exists b, LowRankSolution.bias r = Some b /\ owned (length st) st' b).
Proof.
  intros T inputs Wa Wb rank biasA biasB n_iters kw st r st' Hrun.
  destruct (@hoare_run _ (length st) _ _ _ st _ _
              (@hoare_conv2d_bias T (length st) inputs Wa Wb rank biasA biasB n_iters kw)
              (le_n _) I Hrun) as [_ H].
  exact H.
Qed.

Lemma conv2d_solution_bias_witness :
  exists r st',
    factorize_conv2d Pointwise.lib ConvExample.frames ConvExample.kernel None (RInt 1)
      None None 3 default_kwargs ConvExample.st_conv = (Ok r, st')
    /\ ((LowRankSolution.rank r = sentinel /\ LowRankSolution.bias r = None
         /\ LowRankSolution.nmse r = 0)
        \/ (exists b, LowRankSolution.bias r = Some b
                      /\ owned (length ConvExample.st_conv) st' b)).
Proof.
  eexists _, _. split; [vm_compute; reflexivity|].
  eapply (@conv2d_solution_bias Pointwise.lib ConvExample.frames ConvExample.kernel None
            (RInt 1) None None 3 default_kwargs ConvExample.st_conv).
  vm_compute. reflexivity.
Defined.

(** ** The shapes of a factorized convolution *)

Lemma weights_to_mat_shape T w o rest st m st' :
  _weights_conv2d_to_mat T w st = (Ok m, st') ->
  tshape w = o :: rest -> (0 < o)%nat -> tshape m = [numel rest; o].
Proof.
  intros H Hs Ho.
  assert (Hinf : infer_size (numel (tshape w)) [Z.of_nat o; (-1)%Z] = Ok [o; numel rest]).
  { rewrite Hs. apply (infer_rows (numel rest) Ho). }
  destruct (@t_reshape_run T w [Z.of_nat o; (-1)%Z] _ st Hinf)
    as (r & st1 & Hrun & Hr & _).
  unfold _weights_conv2d_to_mat in H. rewrite Hs in H.
  change (shape_at (o :: rest) 0) with (@Ok nat o) in H.
  rewrite bind_lift_ok, (bind_ok _ _ _ Hrun) in H. inversion H; subst.
  unfold t_T, tshape, transpose_arr. simpl. unfold tshape in Hr. now rewrite Hr.
Qed.

Lemma mat_to_weights_shape T m F O kh kw q st w st' :
  _mat_to_weights_conv2d T (Some m) [kh; kw] st = (Ok w, st') ->
  tshape m = [F; O] -> (0 < O)%nat -> (0 < kh * kw)%nat -> F = (q * (kh * kw))%nat ->
  exists w', w = Some w' /\ tshape w' = [O; q; kh; kw].
Proof.
  intros H Hs HO HK HF.
  assert (HT : tshape (t_T m) = [O; F]).
  { unfold t_T, tshape, transpose_arr. simpl. unfold tshape in Hs. now rewrite Hs. }
  pose proof (@infer_filters O F kh kw HO) as Hinf.
  assert (Hc : ((0 <? kh * kw) && (F mod (kh * kw) =? 0))%nat = true).
  { apply andb_true_iff. split; [now apply Nat.ltb_lt|].
    apply Nat.eqb_eq. rewrite HF. apply Nat.Div0.mod_mul. }
  rewrite Hc in Hinf. rewrite <- HT in Hinf.
  destruct (@t_reshape_run T (t_T m) _ _ st Hinf) as (r & st1 & Hrun & Hr & _).
  unfold _mat_to_weights_conv2d in H. rewrite HT in H.
  change (shape_at [O; F] 0) with (@Ok nat O) in H.
  rewrite bind_lift_ok in H. rewrite (bind_ok _ _ _ Hrun) in H.
  inversion H; subst. exists r. split; [reflexivity|].
  rewrite Hr. f_equal. f_equal. now rewrite Nat.div_mul by lia.
Qed.

Section ConvShapes.
Variable T : torch_lib.
Hypothesis lstsq_shape : lstsq_shaped T.
Hypothesis svd_shape : svd_shaped T.
Import LowRankSolution.

(** The shapes of what the iterative path returns. *)
Lemma iterative_shapes X Y Wa Wb ob ret1 k n_iters st r st' N D d Mo :
  iterative T X Y Wa Wb ob ret1 (RInt k) n_iters st = (Ok r, st') ->
  tshape X = [N; D] -> tshape Y = [N; Mo] -> operator_fits Wa Wb D d Mo ->
  (0 <= k)%Z -> (k < Z.of_nat D)%Z -> (k < Z.of_nat Mo)%Z ->
  exists wa wb b e,
    r = mk (Some wa) (Some wb) (Some b) (RInt k) e
    /\ tshape wa = [D; Z.to_nat k] /\ tshape wb = [Z.to_nat k; Mo]
    /\ tshape b = [Mo].
Proof.
  intros Hrun HX HY Hop H0 HD HM.
  apply iterative_stages in Hrun.
  destruct Hrun as (wa0 & wb0 & s2 & Ya & s3 & wa & wb & s4 & b & e
                    & Hsvd & Hls & Hals & Hep & -> & _).
  destruct (@svd_initialize_shapes T svd_shape Wa Wb k st wa0 wb0 s2 D d Mo
              Hsvd Hop H0 HD HM) as [Hwa0 Hwb0].
  assert (HYa : tshape Ya = [D; Mo])
    by (eapply (@lstsq_tensor_shape T lstsq_shape); eauto).
  destruct (@als_sweeps_shapes T lstsq_shape X Y Ya N D Mo (Z.to_nat k) HX HY HYa
              (Z.to_nat n_iters) wa0 wb0 s3 wa wb s4 Hwa0 Hwb0 Hals) as [Hwa Hwb].
  destruct (@epilogue_bias_shape X Y ob ret1 (RInt k) wa wb s4 _ st' N D Mo (Z.to_nat k)
              Hep HX HY Hwa Hwb) as (b' & Eb & Hb').
  simpl in Eb. inversion Eb; subst b'.
  exists wa, wb, b, e. auto.
Qed.

(** When the kernels return tensors of the shapes torch documents: a call
of [factorize_conv2d] on a supported configuration, for a convolution of [i]
input channels, kernel [kh x kw] and [Mo] output channels, that returns from
the iterative path with a resolved rank [k >= 1], returns a [Wa] of shape
[k, i, kh, kw], a pointwise [Wb] of shape [Mo, k, 1, 1], a bias of shape
[Mo], and the rank [k]. *)
Theorem conv2d_factor_shapes :
  forall inputs Wa Wb rank biasA biasB n_iters kw st u B L i kh kw' d Mo k r st',
    passes_guard (stride kw) -> passes_guard (dilation kw) -> groups kw = 1%Z ->
    conv_fits Wa Wb i kh kw' d Mo ->
    (0 < kh)%nat -> (0 < kw')%nat -> (0 < d)%nat ->
    unfolded_patches T (load st inputs) [kh; kw'] kw = Ok u ->
    shape u = [B; (i * kh * kw')%nat; L] ->
    length (elems u) = (B * (i * kh * kw') * L)%nat -> (0 < i)%nat ->
    (forall Xm Wm,
        tshape Xm = [(B * L)%nat; (i * kh * kw')%nat] ->
        tshape Wm = [(i * kh * kw')%nat; d] ->
        resolve_rank Xm Wm rank = Ok (RInt k)) ->
    (1 <= k)%Z ->
    (k < Z.of_nat (i * kh * kw'))%Z -> (k < Z.of_nat Mo)%Z -> (k < Z.of_nat d)%Z ->
    factorize_conv2d T inputs Wa Wb rank biasA biasB n_iters kw st = (Ok r, st') ->
    exists wa wb b,
      LowRankSolution.Wa r = Some wa /\ LowRankSolution.Wb r = Some wb
      /\ LowRankSolution.bias r = Some b
      /\ LowRankSolution.rank r = RInt k
      /\ tshape wa = [Z.to_nat k; i; kh; kw']
      /\ tshape wb = [Mo; Z.to_nat k; 1%nat; 1%nat]
      /\ tshape b = [Mo].
Proof.
  intros inputs Wa Wb rank biasA biasB n_iters kw st u B L i kh kw' d Mo k r st'
    Hs Hd Hg [HWa HWb] Hkh Hkw Hd0 Hu Hsh Hlen Hi Hres Hk1 HkD HkM Hkd Hrun.
  set (F := (i * kh * kw')%nat) in *.
  assert (HF : (0 < F)%nat) by (unfold F; repeat apply Nat.mul_pos_pos; assumption).
  unfold factorize_conv2d, detach in Hrun. rewrite HWa in Hrun.
  change (skipn 2 [d; i; kh; kw']) with [kh; kw'] in Hrun.
  (* the activations *)
  inv_bind Hrun. rename a into X_mat, s into s1, Hstep into HXm.
  assert (HsX : tshape X_mat = [(B * L)%nat; F]).
  { destruct (@activations_head T inputs [kh; kw'] kw st u Hs Hd Hg Hu) as (s0 & E).
    rewrite E in HXm.
    destruct (@activations_tail T (fresh_tensor s0 u) (s0 ++ [elems u]) u B F L)
      as (m & st2 & Htail & Hm & _); auto.
    - unfold fresh_tensor. simpl. now rewrite Hsh.
    - unfold fresh_tensor. simpl. apply nth_middle.
    - rewrite Htail in HXm. inversion HXm; subst. exact Hm. }
  (* the weights *)
  inv_bind Hrun. rename a into Wa_m, s into s2, Hstep into HWm.
  assert (HsW : tshape Wa_m = [F; d]).
  { rewrite (@weights_to_mat_shape T Wa d [i; kh; kw'] s1 Wa_m s2 HWm HWa Hd0).
    f_equal. unfold F. simpl. ring. }
  inv_bind Hrun. rename a into Y_mat, s into s3, Hstep into HYm.
  assert (HsY : tshape Y_mat = [(B * L)%nat; d]) by (eapply t_matmul_shape; eauto).
  inv_bind Hrun. clear Hstep.
  inv_bind Hrun. destruct a0 as [Wb_m Y_mat']. rename Hstep into HWb_m.
  assert (Hop : operator_fits Wa_m Wb_m F d Mo /\ tshape Y_mat' = [(B * L)%nat; Mo]).
  { destruct Wb as [wb|].
    - inv_bind HWb_m. rename a0 into wbm, Hstep into Hwbm.
      inv_bind HWb_m. rename a0 into Y2, Hstep into HY2.
      inv_bind HWb_m. inversion HWb_m; subst.
      assert (HMo : (0 < Mo)%nat) by lia.
      assert (Hswb : tshape wbm = [d; Mo]).
      { rewrite (@weights_to_mat_shape T wb Mo [d; 1; 1]%nat _ wbm _ Hwbm HWb HMo).
        f_equal. simpl. ring. }
      split; [split; assumption|]. eapply t_matmul_shape; eauto.
    - destruct biasB; [discriminate|]. inversion HWb_m; subst.
      split; [split; [assumption|reflexivity]|assumption]. }
  destruct Hop as [Hop HsY'].
  (* the factorization *)
  inv_bind Hrun. rename a0 into r0, Hstep into Hfm.
  rewrite factorize_matrix_eq, (Hres X_mat Wa_m HsX HsW), bind_lift_ok in Hfm.
  simpl prologue in Hfm. unfold bind at 1 in Hfm. unfold ret at 1 in Hfm.
  rewrite (@branches_iterative T X_mat Y_mat' Wa_m Wb_m None _ (RInt k) n_iters _ F Mo d)
    in Hfm; try (rewrite ?HsX, ?HsY', ?HsW; reflexivity);
    try (simpl; apply Z.leb_gt; lia).
  destruct (@iterative_shapes X_mat Y_mat' Wa_m Wb_m None _ k n_iters _ r0 _
              (B * L)%nat F d Mo Hfm HsX HsY' Hop)
    as (wa & wb & b & e & -> & Hwa & Hwb & Hb); try lia.
  (* back to weights *)
  simpl in Hrun.
  inv_bind Hrun. rename a0 into wa', Hstep into Hwa'.
  inv_bind Hrun. rename a0 into wb', Hstep into Hwb'.
  inversion Hrun; subst r. simpl.
  assert (HK : (0 < kh * kw')%nat) by (apply Nat.mul_pos_pos; assumption).
  assert (HFq : F = (i * (kh * kw'))%nat) by (unfold F; ring).
  assert (Hkn : (0 < Z.to_nat k)%nat) by lia.
  destruct (@mat_to_weights_shape T wa F (Z.to_nat k) kh kw' i _ wa' _ Hwa' Hwa Hkn HK HFq)
    as (wa1 & -> & Hwa1).
  assert (HMo : (0 < Mo)%nat) by lia.
  assert (H11 : (0 < 1 * 1)%nat) by lia.
  assert (Hk11 : Z.to_nat k = (Z.to_nat k * (1 * 1))%nat) by lia.
  destruct (@mat_to_weights_shape T wb (Z.to_nat k) Mo 1 1 (Z.to_nat k) _ wb' _ Hwb' Hwb
              HMo H11 Hk11)
    as (wb1 & -> & Hwb1).
  exists wa1, wb1, b. auto 10.
Qed.

End ConvShapes.

Lemma pointwise_lstsq_shaped : lstsq_shaped Pointwise.lib.
Proof. exact reference_lstsq_shaped. Qed.

Lemma pointwise_svd_shaped : svd_shaped Pointwise.lib.
Proof. exact reference_svd_shaped. Qed.

Lemma conv2d_factor_shapes_witness :
  exists r st',
    factorize_conv2d Pointwise.lib ConvExample.frames ConvExample.kernel None (RInt 1)
      None None 3 default_kwargs ConvExample.st_conv = (Ok r, st')
    /\ exists wa wb b,
        LowRankSolution.Wa r = Some wa /\ LowRankSolution.Wb r = Some wb
        /\ LowRankSolution.bias r = Some b
        /\ LowRankSolution.rank r = RInt 1
        /\ tshape wa = [Z.to_nat 1; 2; 1; 1]%nat
        /\ tshape wb = [2; Z.to_nat 1; 1; 1]%nat
        /\ tshape b = [2%nat].
Proof.
  eexists _, _. split; [vm_compute; reflexivity|].
  eapply (@conv2d_factor_shapes Pointwise.lib pointwise_lstsq_shaped pointwise_svd_shaped
            ConvExample.frames ConvExample.kernel None (RInt 1) None None 3
            default_kwargs ConvExample.st_conv
            (mkArr [2; 2; 2]%nat (elems (load ConvExample.st_conv ConvExample.frames)))
            2 2 2 1 1 2 2 1);
    first [ vm_compute; reflexivity | lia | split; vm_compute; reflexivity
          | eexists; split; [reflexivity|simpl; lia]
          | intros; reflexivity ].
Defined.

(** ** Indices under broadcasting *)

Lemma in_all_indices_inv (s : list nat) : forall idx,
  In idx (all_indices s) -> Forall2 lt idx s.
Proof.
  induction s as [|d s IH]; intros idx H.
  - destruct H as [<-|[]]. constructor.
  - apply in_all_indices_cons in H. destruct H as (i & idx' & -> & Hi & Hin).
    constructor; auto.
Qed.

Lemma clamp_id (idx s : list nat) : Forall2 lt idx s -> clamp s idx = idx.
Proof.
  induction 1 as [|i d idx s Hi _ IH]; [reflexivity|]. simpl. rewrite IH.
  destruct (Nat.eqb_spec d 1); [|reflexivity]. f_equal. lia.
Qed.

Lemma bidx_id (idx s : list nat) : In idx (all_indices s) -> bidx s idx = idx.
Proof.
  intros H. apply in_all_indices_inv in H. unfold bidx.
  rewrite (Forall2_length H), Nat.sub_diag. simpl. now apply clamp_id.
Qed.

Lemma nth_map_seq {A} (g : nat -> A) (n p : nat) (d : A) :
  (p < n)%nat -> nth p (map g (seq 0 n)) d = g p.
Proof.
  intros Hp. rewrite nth_map_in_range with (d := 0%nat) by (now rewrite length_seq).
  now rewrite seq_nth.
Qed.

(* ================================================================== *)
(** * cifar100.py *)

(** ** Sample keys *)

Lemma uint_of_zeros (k : nat) (s : String.string) :
  DecimalString.NilEmpty.uint_of_string (String.append (Cifar100.zeros k) s)
  = option_map (fun d => Nat.iter k Decimal.D0 d)
               (DecimalString.NilEmpty.uint_of_string s).
Proof.
  induction k as [|k IH]; simpl.
  - now destruct (DecimalString.NilEmpty.uint_of_string s).
  - rewrite IH. now destruct (DecimalString.NilEmpty.uint_of_string s).
Qed.

Lemma of_uint_zeros (k : nat) (d : Decimal.uint) :
  Nat.of_uint (Nat.iter k Decimal.D0 d) = Nat.of_uint d.
Proof.
  induction k as [|k IH]; [reflexivity|]. simpl Nat.iter. rewrite <- IH. reflexivity.
Qed.

Lemma key_number_format (idx : nat) :
  Cifar100.key_number (Cifar100.format_05d idx) = Some idx.
Proof.
  unfold Cifar100.key_number, Cifar100.format_05d.
  rewrite uint_of_zeros, DecimalString.NilEmpty.usu. simpl.
  now rewrite of_uint_zeros, DecimalNat.Unsigned.of_to.
Qed.

Lemma format_05d_injective : Injective Cifar100.format_05d.
Proof.
  intros i j H. apply (f_equal Cifar100.key_number) in H.
  rewrite !key_number_format in H. now inversion H.
Qed.

Lemma length_append (s1 s2 : String.string) :
  String.length (String.append s1 s2) = (String.length s1 + String.length s2)%nat.
Proof. induction s1 as [|c s1 IH]; simpl; [reflexivity|now rewrite IH]. Qed.

Lemma length_zeros (k : nat) : String.length (Cifar100.zeros k) = k.
Proof. induction k as [|k IH]; simpl; [reflexivity|now rewrite IH]. Qed.

(** The key [f'{idx:05d}'] of a sample spells its index: read back as a
    decimal number it gives [idx].  It has at least five characters, and
    different indices have different keys. *)
Theorem sample_key_spells_index :
  forall idx,
    Cifar100.key_number (Cifar100.format_05d idx) = Some idx
    /\ (5 <= String.length (Cifar100.format_05d idx))%nat
    /\ forall idx', Cifar100.format_05d idx' = Cifar100.format_05d idx -> idx' = idx.
Proof.
  intros idx. split; [apply key_number_format|]. split.
  - unfold Cifar100.format_05d. rewrite length_append, length_zeros. lia.
  - intros idx' H. now apply format_05d_injective.
Qed.

(** ** The samples *)

Lemma each_sample_from_nth {A B} : forall (images : list A) (classes : list B) idx i,
  nth_error (Cifar100.each_sample_from idx images classes) i
  = match nth_error images i, nth_error classes i with
    | Some img, Some cls =>
        Some [ ("__key__"%string, Cifar100.VStr (Cifar100.format_05d (idx + i)));
               ("jpg"%string, Cifar100.VImg img);
               ("cls"%string, Cifar100.VCls cls) ]
    | _, _ => None
    end.
Proof.
  induction images as [|img images IH]; intros [|cls classes] idx [|i]; simpl;
    try reflexivity.
  - now destruct (nth_error images i).
  - now rewrite Nat.add_0_r.
  - rewrite IH. now rewrite Nat.add_succ_r.
Qed.

Lemma each_sample_from_length {A B} : forall (images : list A) (classes : list B) idx,
  length (Cifar100.each_sample_from idx images classes)
  = Nat.min (length images) (length classes).
Proof.
  induction images as [|img images IH]; intros [|cls classes] idx; simpl; auto.
Qed.

(** [each_sample] yields one dict per position of the shorter of the two
    arrays, in order; the dict at position [i] has exactly the entries
    ['__key__'], ['jpg'] and ['cls'], holding the key of [i], the image at
    [i] and the class at [i]. *)
Theorem each_sample_yields :
  forall (A B : Type) (images : list A) (classes : list B),
    length (Cifar100.each_sample images classes)
    = Nat.min (length images) (length classes)
    /\ forall i,
        nth_error (Cifar100.each_sample images classes) i
        = match nth_error images i, nth_error classes i with
          | Some img, Some cls =>
              Some [ ("__key__"%string, Cifar100.VStr (Cifar100.format_05d i));
                     ("jpg"%string, Cifar100.VImg img);
                     ("cls"%string, Cifar100.VCls cls) ]
          | _, _ => None
          end.
Proof.
  intros A B images classes. split.
  - apply each_sample_from_length.
  - intros i. unfold Cifar100.each_sample. now rewrite each_sample_from_nth.
Qed.

Lemma each_sample_from_keys {A B} : forall (images : list A) (classes : list B) idx,
  map Cifar100.sample_key (Cifar100.each_sample_from idx images classes)
  = map (fun i => Some (Cifar100.format_05d i))
        (seq idx (Nat.min (length images) (length classes))).
Proof.
  induction images as [|img images IH]; intros [|cls classes] idx; simpl;
    try reflexivity.
  f_equal. apply IH.
Qed.

Lemma each_sample_from_pairs {A B} : forall (images : list A) (classes : list B) idx,
  map Cifar100.sample_pair (Cifar100.each_sample_from idx images classes)
  = map Some (combine images classes).
Proof.
  induction images as [|img images IH]; intros [|cls classes] idx; simpl;
    try reflexivity.
  f_equal. apply IH.
Qed.

(** No two samples that [each_sample] yields have the same key, however
    many samples there are. *)
Theorem sample_keys_distinct :
  forall (A B : Type) (images : list A) (classes : list B),
    NoDup (map Cifar100.sample_key (Cifar100.each_sample images classes)).
Proof.
  intros A B images classes. unfold Cifar100.each_sample.
  rewrite each_sample_from_keys.
  apply Injective_map_NoDup; [|apply seq_NoDup].
  intros i j H. inversion H. now apply format_05d_injective.
Qed.

(** ** Shuffling *)

Lemma take_in_range {A} (a : list A) (d : A) : forall indices,
  Forall (fun i => (i < length a)%nat) indices ->
  Cifar100.take a indices = Ok (map (fun i => nth i a d) indices).
Proof.
  induction 1 as [|i indices Hi _ IH]; simpl; [reflexivity|].
  rewrite (nth_error_nth' a d Hi), IH. reflexivity.
Qed.

Lemma combine_as_map {A B} (a : list A) (b : list B) (da : A) (db : B) :
  length a = length b ->
  combine a b = map (fun i => (nth i a da, nth i b db)) (seq 0 (length a)).
Proof.
  revert b. induction a as [|x a IH]; intros [|y b] Hlen; try discriminate;
    [reflexivity|].
  simpl. f_equal. rewrite <- seq_shift, map_map. apply IH. now injection Hlen.
Qed.

(** When [len(dataset)] is the number of images and of targets, [shuffle]
    returns, for the permutation [indices] of [range(len(dataset))] that was
    drawn, as many images and classes as the dataset has, the image at each
    position paired with its own class: the pairs are a permutation of those
    of the dataset. *)
Theorem shuffle_keeps_pairs :
  forall (A B : Type) (indices : list nat) (ds : Cifar100.dataset A B),
    Permutation indices (seq 0 (Cifar100.len ds)) ->
    length (Cifar100.data ds) = Cifar100.len ds ->
    length (Cifar100.targets ds) = Cifar100.len ds ->
    exists images classes,
      Cifar100.shuffle indices ds = Ok (images, classes)
      /\ length images = Cifar100.len ds /\ length classes = Cifar100.len ds
      /\ Permutation (combine images classes)
                     (combine (Cifar100.data ds) (Cifar100.targets ds)).
Proof.
  intros A B indices [data targets n] Hperm Hd Ht. simpl in *.
  destruct data as [|x data].
  { simpl in Hd. subst n. apply Permutation_sym, Permutation_nil in Hperm. subst indices.
    destruct targets; [|discriminate].
    exists [], []. repeat split; constructor. }
  destruct targets as [|y targets]; [subst n; discriminate|].
  set (D := x :: data) in *. set (C := y :: targets) in *.
  assert (Hin : Forall (fun i => (i < n)%nat) indices).
  { apply Forall_forall. intros i Hi.
    apply (Permutation_in _ Hperm), in_seq in Hi. lia. }
  exists (map (fun i => nth i D x) indices), (map (fun i => nth i C y) indices).
  unfold Cifar100.shuffle. simpl Cifar100.data. simpl Cifar100.targets.
  rewrite (take_in_range D x) by (now rewrite Hd).
  rewrite (take_in_range C y) by (now rewrite Ht).
  split; [reflexivity|].
  assert (Hlen : length indices = n).
  { rewrite (Permutation_length Hperm). apply length_seq. }
  rewrite !length_map. split; [exact Hlen|]. split; [exact Hlen|].
  rewrite (combine_as_map D C x y) by congruence.
  rewrite Hd.
  replace (combine (map (fun i => nth i D x) indices) (map (fun i => nth i C y) indices))
    with (map (fun i => (nth i D x, nth i C y)) indices).
  - now apply Permutation_map.
  - clear. induction indices as [|i l IH]; simpl; [reflexivity|f_equal; exact IH].
Qed.

Lemma shuffle_keeps_pairs_witness :
  exists images classes,
    Cifar100.shuffle [2; 0; 1]%nat
      {| Cifar100.data := [10; 11; 12]%nat; Cifar100.targets := [true; false; true];
         Cifar100.len := 3 |}
    = Ok (images, classes)
    /\ length images = 3%nat /\ length classes = 3%nat
    /\ Permutation (combine images classes)
                   (combine [10; 11; 12]%nat [true; false; true]).
Proof.
  apply (@shuffle_keeps_pairs nat bool [2; 0; 1]%nat
           {| Cifar100.data := [10; 11; 12]%nat; Cifar100.targets := [true; false; true];
              Cifar100.len := 3 |}).
  - simpl. apply (Permutation_cons_app [0; 1]%nat [] 2%nat).
    simpl. apply Permutation_refl.
  - reflexivity.
  - reflexivity.
Defined.

(** ** The samples of a shuffled dataset *)

(** What [main] hands to the writer, [each_sample] on what [shuffle] returned:
    one sample per element of the dataset, whose (image, class) pairs are a
    permutation of the pairs of the dataset. *)
Theorem shuffled_samples :
  forall (A B : Type) (indices : list nat) (ds : Cifar100.dataset A B) images classes,
    Permutation indices (seq 0 (Cifar100.len ds)) ->
    length (Cifar100.data ds) = Cifar100.len ds ->
    length (Cifar100.targets ds) = Cifar100.len ds ->
    Cifar100.shuffle indices ds = Ok (images, classes) ->
    length (Cifar100.each_sample images classes) = Cifar100.len ds
    /\ Permutation (map Cifar100.sample_pair (Cifar100.each_sample images classes))
                   (map Some (combine (Cifar100.data ds) (Cifar100.targets ds))).
Proof.
  intros A B indices ds images classes Hperm Hd Ht Hrun.
  assert (Hlen : length indices = Cifar100.len ds).
  { rewrite (Permutation_length Hperm). apply length_seq. }
  assert (Htake : forall (X : Type) (a : list X) l,
             Cifar100.take a indices = Ok l ->
             length l = length indices
             /\ forall d, l = map (fun i => nth i a d) indices).
  { intros X a. clear. induction indices as [|i idx IH]; simpl; intros l H.
    - inversion H. split; [reflexivity|]. intros d. reflexivity.
    - destruct (nth_error a i) as [x|] eqn:E; [|discriminate].
      destruct (Cifar100.take a idx) as [l'|e]; [|discriminate]. simpl in H.
      inversion H; subst. destruct (IH l' eq_refl) as [Hl Hm].
      split; [simpl; now rewrite Hl|]. intros d. simpl. rewrite <- (Hm d). f_equal.
      symmetry. now apply nth_error_nth. }
  unfold Cifar100.shuffle in Hrun.
  destruct (Cifar100.take (Cifar100.data ds) indices) as [im|e] eqn:Ei; [|discriminate].
  destruct (Cifar100.take (Cifar100.targets ds) indices) as [cl|e] eqn:Ec; [|discriminate].
  simpl in Hrun. inversion Hrun; subst im cl.
  destruct (Htake A _ _ Ei) as [Li Mi]. destruct (Htake B _ _ Ec) as [Lc Mc].
  unfold Cifar100.each_sample. split.
  - rewrite each_sample_from_length, Li, Lc, Hlen. apply Nat.min_id.
  - rewrite each_sample_from_pairs. apply Permutation_map.
    destruct (Cifar100.data ds) as [|x data] eqn:ED.
    { simpl in Hd. rewrite <- Hd in Hlen. destruct indices; [|discriminate].
      simpl in Ei. inversion Ei. simpl. constructor. }
    destruct (Cifar100.targets ds) as [|y targets] eqn:ET;
      [rewrite <- Ht in Hd; discriminate|].
    rewrite (Mi x), (Mc y).
    rewrite (combine_as_map (x :: data) (y :: targets) x y) by congruence.
    rewrite Hd.
    replace (combine (map (fun i => nth i (x :: data) x) indices)
                     (map (fun i => nth i (y :: targets) y) indices))
      with (map (fun i => (nth i (x :: data) x, nth i (y :: targets) y)) indices).
    + now apply Permutation_map.
    + clear. induction indices as [|i l IH]; simpl; [reflexivity|f_equal; exact IH].
Qed.

Lemma shuffled_samples_witness :
  length (Cifar100.each_sample [12; 10; 11]%nat [true; true; false]) = 3%nat
  /\ Permutation
       (map Cifar100.sample_pair
            (Cifar100.each_sample [12; 10; 11]%nat [true; true; false]))
       (map Some (combine [10; 11; 12]%nat [true; false; true])).
Proof.
  apply (@shuffled_samples nat bool [2; 0; 1]%nat
           {| Cifar100.data := [10; 11; 12]%nat; Cifar100.targets := [true; false; true];
              Cifar100.len := 3 |} [12; 10; 11]%nat [true; true; false]).
  - simpl. apply (Permutation_cons_app [0; 1]%nat [] 2%nat).
    simpl. apply Permutation_refl.
  - reflexivity.
  - reflexivity.
  - reflexivity.
Defined.

(* ================================================================== *)
(** * More on [factorize_matrix] *)

(** ** A bias of the wrong shape *)

(** When the rank resolves, a bias whose shape cannot be broadcast against
    the shape of [Y] makes [factorize_matrix] raise [RuntimeError] at once,
    whatever branch the rank would have selected, with nothing allocated. *)
Theorem bias_not_broadcastable_raises :
  forall T X Y Wa Wb b rank n_iters st k,
    resolve_rank X Wa rank = Ok k ->
    broadcast_shapes (tshape Y) (tshape b) = None ->
    factorize_matrix T X Y Wa Wb (Some b) rank n_iters st = (Err RuntimeError, st).
Proof.
  intros T X Y Wa Wb b rank n_iters st k Hr Hb.
  rewrite factorize_matrix_eq, Hr, bind_lift_ok.
  unfold prologue, detach, t_sub, t_binop, bind, get_value, lift, v_binop.
  simpl shape. rewrite Hb. reflexivity.
Qed.

Lemma bias_not_broadcastable_raises_witness :
  factorize_matrix Reference.lib Examples.X2 Examples.Y2 Examples.W2 None
    (Some (Reference.contiguous 3 [3]%nat)) (RInt 1) 3 Examples.st_bias
  = (Err RuntimeError, Examples.st_bias).
Proof.
  apply (@bias_not_broadcastable_raises Reference.lib Examples.X2 Examples.Y2 Examples.W2
           None (Reference.contiguous 3 [3]%nat) (RInt 1) 3 Examples.st_bias (RInt 1));
    reflexivity.
Defined.

(** ** The values of the SVD initialisation *)

(** *** Writing through a view *)

Lemma scatter_cons p P (v : Q) vals old :
  scatter (p :: P) (v :: vals) old = scatter P vals (set_nth p v old).
Proof. reflexivity. Qed.

Lemma nth_scatter_notin : forall P vals old p (d : Q),
  ~ In p P -> nth p (scatter P vals old) d = nth p old d.
Proof.
  induction P as [|a P IH]; intros [|v vals] old p d Hp; try reflexivity.
  rewrite scatter_cons, IH by (intros H; apply Hp; now right).
  apply nth_set_nth_other. intros ->. apply Hp. now left.
Qed.

Lemma nth_scatter_at : forall P vals old q (d : Q),
  NoDup P -> length vals = length P -> (q < length P)%nat ->
  Forall (fun p => (p < length old)%nat) P ->
  nth (nth q P 0%nat) (scatter P vals old) d = nth q vals d.
Proof.
  induction P as [|a P IH]; intros [|v vals] old q d Hnd Hlen Hq Hin;
    simpl in Hlen, Hq; try lia; try discriminate.
  inversion Hnd; subst. inversion Hin; subst. rewrite scatter_cons.
  destruct q as [|q]; simpl nth.
  - rewrite nth_scatter_notin by assumption. now apply nth_set_nth_same.
  - apply IH; try assumption; try lia.
    eapply Forall_impl; [|eassumption]. intros p Hp. now rewrite length_set_nth.
Qed.

(** After [vals] has been written through the view [t], no two positions
    of which coincide, [t] reads [vals]. *)
Lemma load_write_view_nth t vals st q :
  NoDup (elems (view t)) -> length vals = length (elems (view t)) ->
  (storage t < length st)%nat ->
  Forall (fun p => (p < length (nth (storage t) st []))%nat) (elems (view t)) ->
  (q < length vals)%nat ->
  nth q (elems (load (write_view t vals st) t)) 0 = nth q vals 0.
Proof.
  intros Hnd Hlen Hst Hin Hq. unfold load, write_view. simpl.
  rewrite nth_set_nth_same by exact Hst.
  rewrite nth_map_in_range with (d := 0%nat) by lia.
  apply nth_scatter_at; try assumption. lia.
Qed.

(** *** Indices *)

Lemma NoDup_all_indices (s : list nat) : NoDup (all_indices s).
Proof.
  apply (NoDup_map_inv (ravel s)). rewrite ravel_all_indices. apply seq_NoDup.
Qed.

Lemma in_all_indices_2 (a b i j : nat) :
  In [i; j] (all_indices [a; b]) <-> (i < a)%nat /\ (j < b)%nat.
Proof.
  split.
  - intros H. apply in_all_indices_inv in H. inversion H; subst.
    inversion H5; subst. auto.
  - intros [Hi Hj]. apply in_all_indices_of. repeat constructor; assumption.
Qed.

Lemma all_indices_2_inv (a b : nat) idx :
  In idx (all_indices [a; b]) -> exists i j, idx = [i; j] /\ (i < a)%nat /\ (j < b)%nat.
Proof.
  intros H. apply in_all_indices_inv in H.
  inversion H as [|i a' idx1 s1 Hi H1]; subst.
  inversion H1 as [|j b' idx2 s2 Hj H2]; subst.
  inversion H2; subst. exists i, j. auto.
Qed.

(** The positions of the block of the first [k] columns (and all rows) of a
    contiguous [m x r] matrix. *)
Lemma column_block_positions (m r k : nat) :
  (k <= r)%nat ->
  gather 0%nat [m; r] (seq 0 (m * r)) (all_indices [m; k])
  = map (fun idx => ravel [m; r] idx) (all_indices [m; k]).
Proof.
  intros Hk. unfold gather. apply map_ext_in. intros idx Hin.
  apply all_indices_2_inv in Hin. destruct Hin as (i & j & -> & Hi & Hj).
  apply seq_nth. simpl. nia.
Qed.

Lemma column_block_NoDup (m r k : nat) :
  (k <= r)%nat -> NoDup (map (fun idx => ravel [m; r] idx) (all_indices [m; k])).
Proof.
  intros Hk. apply Injective_map_NoDup_in; [|apply NoDup_all_indices].
  intros x y Hx Hy H.
  apply all_indices_2_inv in Hx. destruct Hx as (i & j & -> & Hi & Hj).
  apply all_indices_2_inv in Hy. destruct Hy as (i' & j' & -> & Hi' & Hj').
  simpl in H.
  assert (i = i') by nia. subst i'. assert (j = j') by nia. now subst.
Qed.

Lemma column_block_in_range (m r k : nat) :
  (k <= r)%nat ->
  Forall (fun p => (p < m * r)%nat) (map (fun idx => ravel [m; r] idx) (all_indices [m; k])).
Proof.
  intros Hk. apply Forall_forall. intros p Hp. apply in_map_iff in Hp.
  destruct Hp as (idx & <- & Hin).
  apply all_indices_2_inv in Hin. destruct Hin as (i & j & -> & Hi & Hj).
  simpl. nia.
Qed.

(** The positions of the block of the first [k] rows of a contiguous
    array. *)
Lemma row_block_positions (r k : nat) (rest : list nat) :
  (k <= r)%nat ->
  gather 0%nat (r :: rest) (seq 0 (numel (r :: rest))) (all_indices (k :: rest))
  = seq 0 (numel (k :: rest)).
Proof.
  intros Hk. rewrite <- (ravel_all_indices (k :: rest)). unfold gather.
  apply map_ext_in. intros idx Hin.
  pose proof (ravel_lt _ _ Hin) as Hlt.
  assert (E : ravel (r :: rest) idx = ravel (k :: rest) idx) by (destruct idx; reflexivity).
  rewrite E. apply seq_nth. simpl in *. nia.
Qed.

Lemma bidx_vector (k i j : nat) : (j < k)%nat -> bidx [k] [i; j] = [j].
Proof.
  intros Hj. unfold bidx. simpl.
  destruct (Nat.eqb_spec k 1); [|reflexivity]. f_equal. lia.
Qed.

Lemma bidx_column (k j c : nat) : (j < k)%nat -> bidx [k; 1%nat] [j; c] = [j; 0%nat].
Proof.
  intros Hj. unfold bidx. simpl.
  destruct (Nat.eqb_spec k 1); [|reflexivity]. f_equal. lia.
Qed.

Lemma broadcast_matrix_column (k n : nat) :
  broadcast_shapes [k; n] [k; 1%nat] = Some [k; n].
Proof.
  unfold broadcast_shapes. simpl. rewrite Nat.eqb_refl.
  destruct (Nat.eqb_spec n 1) as [->|Hn]; [reflexivity|].
  destruct (Nat.eqb_spec n 1); [contradiction|reflexivity].
Qed.

(** The entries of a product with broadcasting, at a matrix position. *)
Lemma nth_broadcast_2 f (a b : tval) (m k i j : nat) :
  (i < m)%nat -> (j < k)%nat ->
  nth (i * k + j) (broadcast_elems f a b [m; k]) 0
  = f (elem_at a (bidx (shape a) [i; j])) (elem_at b (bidx (shape b) [i; j])).
Proof.
  intros Hi Hj. unfold broadcast_elems.
  assert (Hin : In [i; j] (all_indices [m; k])) by (apply in_all_indices_2; auto).
  replace (i * k + j)%nat with (ravel [m; k] [i; j]) by (simpl; ring).
  rewrite nth_map_in_range with (d := [])
    by (rewrite length_all_indices; now apply ravel_lt).
  now rewrite nth_ravel.
Qed.

Section SvdValues.
Variable T : torch_lib.

(** The three tensors [t_svd] allocates. *)
Lemma t_svd_run W st vU vs vVt :
  svd T (load st W) = Ok (vU, vs, vVt) ->
  t_svd T W st
  = (Ok (fresh_tensor st vU,
         fresh_tensor (st ++ [elems vU]) vs,
         fresh_tensor ((st ++ [elems vU]) ++ [elems vs]) vVt),
     ((st ++ [elems vU]) ++ [elems vs]) ++ [elems vVt]).
Proof.
  intros H. unfold t_svd, bind, get_value, lift, ret. rewrite H, !fresh_run. reflexivity.
Qed.

(** The operator, as a tensor. *)
Lemma operator_run Wa Wb st W :
  operator_value st Wa Wb = Ok W ->
  exists Wt st0,
    match Wb with
    | None => ret Wa
    | Some Wb => t_matmul Wa Wb
    end st = (Ok Wt, st0)
    /\ load st0 Wt = W.
Proof.
  intros H. destruct Wb as [wb|]; simpl in H.
  - exists (fresh_tensor st W), (st ++ [elems W]). split; [|apply load_snoc].
    unfold t_matmul, bind, get_value, lift. rewrite H. apply fresh_run.
  - exists Wa, st. split; [reflexivity|]. now inversion H.
Qed.

(** [_svd_initialize] returns views on the first [k] columns of [U] and on
the first [k] rows of [Vt], after it has multiplied them in place, column
[j] of the one and row [j] of the other, by [sqrt(s[j])]. *)
Theorem svd_initialize_scales_factors :
  forall Wa Wb k st W vU vs vVt m r n,
    operator_value st Wa Wb = Ok W ->
    svd T W = Ok (vU, vs, vVt) ->
    svd_result (vU, vs, vVt) m r n ->
    (0 <= k <= Z.of_nat r)%Z ->
    exists wa0 wb0 s2,
      _svd_initialize T Wa Wb (RInt k) st = (Ok (wa0, wb0), s2)
      /\ tshape wa0 = [m; Z.to_nat k] /\ tshape wb0 = [Z.to_nat k; n]
      /\ (forall i j, (i < m)%nat -> (j < Z.to_nat k)%nat ->
            nth (i * Z.to_nat k + j) (elems (load s2 wa0)) 0
            = nth (i * r + j) (elems vU) 0 * sqrt T (nth j (elems vs) 0))
      /\ (forall j c, (j < Z.to_nat k)%nat -> (c < n)%nat ->
            nth (j * n + c) (elems (load s2 wb0)) 0
            = nth (j * n + c) (elems vVt) 0 * sqrt T (nth j (elems vs) 0)).
Proof.
  intros Wa Wb k st W vU vs vVt m r n HW Hsvd (HsU & HlU & Hss & Hls & HsV & HlV) Hk.
  set (kn := Z.to_nat k).
  assert (Hkn : (kn <= r)%nat) by (unfold kn; lia).
  assert (Hstop : slice_stop r k = kn).
  { unfold slice_stop, kn. destruct (Z.ltb_spec k 0); lia. }
  destruct (@operator_run Wa Wb st W HW) as (Wt & st0 & HWt & HlW).
  rewrite <- HlW in Hsvd.
  pose proof (@t_svd_run Wt st0 vU vs vVt Hsvd) as Hrun_svd.
  set (p := length st0).
  set (st1 := ((st0 ++ [elems vU]) ++ [elems vs]) ++ [elems vVt]) in *.
  (* the three slices *)
  set (wa := mkTensor p (mkArr [m; kn] (map (fun idx => ravel [m; r] idx)
                                           (all_indices [m; kn])))).
  set (wb := mkTensor (S (S p)) (mkArr [kn; n] (seq 0 (numel [kn; n])))).
  set (sk := mkTensor (S p) (mkArr [kn] (seq 0 (numel [kn])))).
  assert (Ewa : t_slice 1 k (fresh_tensor st0 vU) = Ok wa).
  { unfold t_slice, fresh_tensor, tshape, slice_axis. simpl. rewrite HsU, HlU. simpl.
    rewrite Hstop. unfold wa. fold p. do 3 f_equal.
    now apply column_block_positions. }
  assert (Ewb : t_slice 0 k (fresh_tensor ((st0 ++ [elems vU]) ++ [elems vs]) vVt) = Ok wb).
  { unfold t_slice, fresh_tensor, tshape, slice_axis. simpl. rewrite HsV, HlV. simpl.
    rewrite Hstop. unfold wb.
    replace (length ((st0 ++ [elems vU]) ++ [elems vs])) with (S (S p))
      by (rewrite !length_app; simpl; unfold p; lia).
    do 3 f_equal.
    replace (seq 0 (r * n)) with (seq 0 (numel [r; n])) by (simpl; f_equal; ring).
    now apply row_block_positions. }
  assert (Esk : t_slice 0 k (fresh_tensor (st0 ++ [elems vU]) vs) = Ok sk).
  { unfold t_slice, fresh_tensor, tshape, slice_axis. simpl. rewrite Hss, Hls. simpl.
    rewrite Hstop. unfold sk.
    replace (length (st0 ++ [elems vU])) with (S p)
      by (rewrite !length_app; simpl; unfold p; lia).
    do 3 f_equal.
    replace (seq 0 r) with (seq 0 (numel [r])) by (simpl; f_equal; lia).
    now apply row_block_positions. }
  (* what the storages hold *)
  assert (HpU : nth p st1 [] = elems vU).
  { unfold st1, p. rewrite <- !app_assoc. apply nth_middle. }
  assert (Hps : nth (S p) st1 [] = elems vs).
  { unfold st1, p. rewrite app_nth1 by (rewrite !length_app; simpl; lia).
    replace (S (length st0)) with (length (st0 ++ [elems vU]))
      by (rewrite length_app; simpl; lia).
    apply nth_middle. }
  assert (HpV : nth (S (S p)) st1 [] = elems vVt).
  { unfold st1, p.
    replace (S (S (length st0))) with (length ((st0 ++ [elems vU]) ++ [elems vs]))
      by (rewrite !length_app; simpl; lia).
    apply nth_middle. }
  assert (Hl1 : length st1 = S (S (S p))).
  { unfold st1, p. rewrite !length_app. simpl. lia. }
  (* the square roots *)
  set (vsq := mkArr [kn] (map (sqrt T)
                            (map (fun q => nth q (elems vs) 0) (seq 0 (numel [kn]))))).
  assert (Hlsk : load st1 sk
                 = mkArr [kn] (map (fun q => nth q (elems vs) 0) (seq 0 (numel [kn])))).
  { unfold load, sk. simpl storage. simpl view. now rewrite Hps. }
  set (sq := fresh_tensor st1 vsq).
  set (st2 := st1 ++ [elems vsq]).
  assert (Hsq : t_sqrt T sk st1 = (Ok sq, st2)).
  { unfold t_sqrt, bind, get_value. rewrite Hlsk. apply fresh_run. }
  assert (Hl2 : length st2 = S (length st1)).
  { unfold st2. rewrite length_app. simpl. lia. }
  (* [Wa *= s_sqrt] *)
  set (A := load st2 wa). set (Bq := load st2 sq).
  set (vals_a := broadcast_elems Qmult A Bq [m; kn]).
  set (st3 := write_view wa vals_a st2).
  assert (Hia : t_imul wa sq st2 = (Ok tt, st3)).
  { unfold t_imul, t_inplace, v_binop_inplace. fold A Bq.
    change (shape A) with [m; kn]. change (shape Bq) with [kn].
    rewrite broadcast_matrix_vector.
    destruct (list_eq_dec Nat.eq_dec [m; kn] [m; kn]); [reflexivity|contradiction]. }
  assert (Hl3 : length st3 = length st2) by apply length_write_view.
  (* the column of square roots *)
  assert (Hinf : infer_size (numel (tshape sq)) [(-1)%Z; 1%Z] = Ok [kn; 1%nat]).
  { change (numel (tshape sq)) with (kn * 1)%nat. apply (infer_cols kn). lia. }
  destruct (@t_reshape_run T sq [(-1)%Z; 1%Z] _ st3 Hinf)
    as (col & st4 & Hcol & Hscol & _ & Hlcol).
  destruct (@hoare_run _ (length st3) _ _ _ st3 _ _
              (@hoare_reshape T (length st3) (fun _ => True) sq [(-1)%Z; 1%Z]
                 (@mono_const True))
              (le_n _) I Hcol) as [G34 _].
  assert (Hl4 : (length st3 <= length st4)%nat) by (destruct G34; assumption).
  (* [Wb *= col] *)
  set (Bv := load st4 wb). set (Cc := load st4 col).
  set (vals_b := broadcast_elems Qmult Bv Cc [kn; n]).
  set (st5 := write_view wb vals_b st4).
  assert (HsC : shape Cc = [kn; 1%nat]) by exact Hscol.
  assert (Hib : t_imul wb col st4 = (Ok tt, st5)).
  { unfold t_imul, t_inplace, v_binop_inplace. fold Bv Cc.
    change (shape Bv) with [kn; n]. rewrite HsC, broadcast_matrix_column.
    destruct (list_eq_dec Nat.eq_dec [kn; n] [kn; n]); [reflexivity|contradiction]. }
  exists wa, wb, st5. split.
  { unfold _svd_initialize. rewrite (bind_ok _ _ _ HWt), (bind_ok _ _ _ Hrun_svd).
    change (as_index (RInt k)) with (@Ok Z k). rewrite bind_lift_ok.
    rewrite Ewa, bind_lift_ok, Ewb, bind_lift_ok, Esk, bind_lift_ok.
    rewrite (bind_ok _ _ _ Hsq), (bind_ok _ _ _ Hia), (bind_ok _ _ _ Hcol),
      (bind_ok _ _ _ Hib).
    reflexivity. }
  split; [reflexivity|]. split; [reflexivity|].
  (* what is read before the writes *)
  assert (Hp2 : forall l, (l < length st1)%nat -> nth l st2 [] = nth l st1 []).
  { intros l Hl. unfold st2. now apply app_nth1. }
  assert (HA : forall i j, (i < m)%nat -> (j < kn)%nat ->
             elem_at A [i; j] = nth (i * r + j) (elems vU) 0).
  { intros i j Hi Hj.
    assert (EA : A = mkArr [m; kn]
                       (map (fun idx => nth (ravel [m; r] idx) (elems vU) 0)
                            (all_indices [m; kn]))).
    { unfold A, load, wa, tshape. cbn [storage view shape elems].
      rewrite Hp2, HpU by lia. now rewrite map_map. }
    rewrite EA. unfold elem_at. cbn [shape elems].
    assert (Hin : In [i; j] (all_indices [m; kn])) by (apply in_all_indices_2; auto).
    rewrite nth_map_in_range with (d := [])
      by (rewrite length_all_indices; now apply ravel_lt).
    rewrite nth_ravel by exact Hin. f_equal. simpl. ring. }
  assert (HBq : Bq = vsq) by apply load_snoc.
  assert (Hvsq : forall j, (j < kn)%nat ->
             nth j (elems vsq) 0 = sqrt T (nth j (elems vs) 0)).
  { intros j Hj. unfold vsq. simpl elems.
    rewrite nth_map_in_range with (d := 0)
      by (rewrite length_map, length_seq; simpl; lia).
    apply (f_equal (sqrt T)).
    apply (nth_map_seq (fun q => nth q (elems vs) 0)). simpl. lia. }
  assert (HB : forall j, (j < kn)%nat ->
             elem_at Bq [j] = sqrt T (nth j (elems vs) 0)).
  { intros j Hj. rewrite HBq. unfold elem_at.
    replace (ravel (shape vsq) [j]) with j by (simpl; lia). now apply Hvsq. }
  assert (Hp4 : forall l, (l < length st1)%nat -> l <> p -> nth l st4 [] = nth l st1 []).
  { intros l Hl Hne. destruct G34 as [_ G]. rewrite G by lia.
    unfold st3, write_view. simpl storage. rewrite nth_set_nth_other by auto.
    now apply Hp2. }
  assert (HBv : forall j c, (j < kn)%nat -> (c < n)%nat ->
             elem_at Bv [j; c] = nth (j * n + c) (elems vVt) 0).
  { intros j c Hj Hc.
    assert (EB : Bv = mkArr [kn; n]
                       (map (fun q => nth q (elems vVt) 0) (seq 0 (numel [kn; n])))).
    { unfold Bv, load, wb, tshape. cbn [storage view shape elems].
      now rewrite Hp4, HpV by lia. }
    rewrite EB. unfold elem_at. cbn [shape elems].
    replace (ravel [kn; n] [j; c]) with (j * n + c)%nat by (simpl; ring).
    apply (nth_map_seq (fun q => nth q (elems vVt) 0)). simpl. nia. }
  assert (HC : forall j, (j < kn)%nat ->
             elem_at Cc [j; 0%nat] = sqrt T (nth j (elems vs) 0)).
  { intros j Hj.
    assert (E : load st3 sq = vsq).
    { unfold st3. rewrite load_write_other by (simpl; lia). exact HBq. }
    assert (EC : Cc = mkArr [kn; 1%nat] (elems vsq)).
    { unfold Cc. rewrite Hlcol, E. reflexivity. }
    rewrite EC. unfold elem_at. cbn [shape elems].
    replace (ravel [kn; 1%nat] [j; 0%nat]) with j by (simpl; lia).
    now apply Hvsq. }
  split.
  - intros i j Hi Hj.
    unfold st5. rewrite load_write_other by (simpl; lia).
    rewrite (@grows_load _ _ _ wa G34) by (simpl; lia).
    unfold st3. rewrite load_write_view_nth.
    + unfold vals_a. rewrite nth_broadcast_2 by assumption.
      change (shape A) with [m; kn]. change (shape Bq) with [kn].
      rewrite bidx_id by (apply in_all_indices_2; auto).
      rewrite bidx_vector by assumption.
      now rewrite HA, HB.
    + simpl. now apply column_block_NoDup.
    + unfold vals_a, broadcast_elems, wa. cbn [view elems]. now rewrite !length_map.
    + simpl. lia.
    + simpl storage. simpl view. simpl elems. rewrite Hp2, HpU, HlU by lia.
      now apply column_block_in_range.
    + unfold vals_a, broadcast_elems. rewrite length_map, length_all_indices.
      simpl. nia.
  - intros j c Hj Hc.
    unfold st5. rewrite load_write_view_nth.
    + unfold vals_b. rewrite nth_broadcast_2 by assumption.
      change (shape Bv) with [kn; n]. rewrite HsC.
      rewrite bidx_id by (apply in_all_indices_2; auto).
      rewrite bidx_column by assumption.
      now rewrite HBv, HC.
    + simpl. apply seq_NoDup.
    + unfold vals_b, broadcast_elems, wb. cbn [view elems].
      now rewrite length_map, length_all_indices, length_seq.
    + simpl. lia.
    + simpl storage. simpl view. simpl elems. rewrite Hp4, HpV, HlV by lia.
      apply Forall_forall. intros q Hq. apply in_seq in Hq. nia.
    + unfold vals_b, broadcast_elems. rewrite length_map, length_all_indices.
      simpl. nia.
Qed.

End SvdValues.

Lemma svd_initialize_scales_factors_witness :
  exists wa0 wb0 s2,
    _svd_initialize Reference.lib Examples.W2 None (RInt 1) Examples.st_bias
    = (Ok (wa0, wb0), s2)
    /\ tshape wa0 = [2%nat; Z.to_nat 1] /\ tshape wb0 = [Z.to_nat 1; 2%nat]
    /\ (forall i j, (i < 2)%nat -> (j < Z.to_nat 1)%nat ->
          nth (i * Z.to_nat 1 + j) (elems (load s2 wa0)) 0
          = nth (i * 2 + j) (elems (Reference.identity 2 2)) 0
            * sqrt Reference.lib (nth j (elems (mkArr [2%nat] [1; 0])) 0))
    /\ (forall j c, (j < Z.to_nat 1)%nat -> (c < 2)%nat ->
          nth (j * 2 + c) (elems (load s2 wb0)) 0
          = nth (j * 2 + c) (elems (Reference.identity 2 2)) 0
            * sqrt Reference.lib (nth j (elems (mkArr [2%nat] [1; 0])) 0)).
Proof.
  apply (@svd_initialize_scales_factors Reference.lib Examples.W2 None 1 Examples.st_bias
           (load Examples.st_bias Examples.W2)
           (Reference.identity 2 2) (mkArr [2%nat] [1; 0]) (Reference.identity 2 2)
           2 2 2).
  - reflexivity.
  - vm_compute. reflexivity.
  - repeat split.
  - lia.
Defined.

(* ================================================================== *)
(** * More on [factorize_conv2d] *)

(** ** A convolution that is already factorized enough *)

Lemma weights_to_mat_inv T w o rest st m st1 :
  _weights_conv2d_to_mat T w st = (Ok m, st1) ->
  tshape w = o :: rest -> (0 < o)%nat -> allocated st w ->
  exists ra,
    m = t_T ra /\ tshape ra = [o; numel rest]
    /\ length (elems (view ra)) = length (elems (view w))
    /\ load st1 ra = mkArr [o; numel rest] (elems (load st w))
    /\ allocated st1 ra /\ grows (length st) st st1.
Proof.
  intros H Hs Ho Hw.
  assert (Hinf : infer_size (numel (tshape w)) [Z.of_nat o; (-1)%Z] = Ok [o; numel rest]).
  { rewrite Hs. apply (infer_rows (numel rest) Ho). }
  destruct (@t_reshape_run T w [Z.of_nat o; (-1)%Z] _ st Hinf)
    as (r & st2 & Hrun & Hr & Hrl & Hload).
  unfold _weights_conv2d_to_mat in H. rewrite Hs in H.
  change (shape_at (o :: rest) 0) with (@Ok nat o) in H.
  rewrite bind_lift_ok, (bind_ok _ _ _ Hrun) in H. inversion H; subst m st2.
  destruct (@hoare_run _ (length st) _ _ _ st _ _
              (@hoare_reshape T (length st) (fun _ => True) w [Z.of_nat o; (-1)%Z]
                 (@mono_const True))
              (le_n _) I Hrun) as [G [_ Hor]].
  exists r. repeat (split; [assumption || reflexivity|]). split; [|exact G].
  unfold allocated, owned in *. destruct G as [L _]. destruct Hor as [E|E]; lia.
Qed.

Lemma mat_to_weights_inv T ra o ks s st w st1 :
  _mat_to_weights_conv2d T (Some (t_T ra)) ks st = (Ok w, st1) ->
  length (elems (view ra)) = numel (tshape ra) ->
  shape_at (tshape ra) 0 = Ok o ->
  infer_size (numel (tshape ra)) (Z.of_nat o :: (-1)%Z :: map Z.of_nat ks) = Ok s ->
  allocated st ra ->
  exists w',
    w = Some w' /\ tshape w' = s /\ load st1 w' = mkArr s (elems (load st ra))
    /\ allocated st1 w' /\ grows (length st) st st1.
Proof.
  intros H Hlen Ho Hinf Ha.
  unfold _mat_to_weights_conv2d in H. rewrite (t_T_involutive _ Hlen), Ho in H.
  rewrite bind_lift_ok in H.
  destruct (@t_reshape_run T ra _ _ st Hinf) as (r & st2 & Hrun & Hr & _ & Hload).
  rewrite (bind_ok _ _ _ Hrun) in H. inversion H; subst w st2.
  destruct (@hoare_run _ (length st) _ _ _ st _ _
              (@hoare_reshape T (length st) (fun _ => True) ra _ (@mono_const True))
              (le_n _) I Hrun) as [G [_ Hor]].
  exists r. repeat (split; [assumption || reflexivity|]). split; [|exact G].
  unfold allocated, owned in *. destruct G as [L _]. destruct Hor as [E|E]; lia.
Qed.

Lemma step_alloc (m : M tensor) st t st' :
  allocating m -> m st = (Ok t, st') ->
  grows (length st) st st' /\ owned (length st) st' t.
Proof.
  intros Hm H.
  destruct (@hoare_run _ (length st) _ _ _ st _ _
              (@hoare_alloc (length st) (fun _ => True) m Hm (@mono_const True))
              (le_n _) I H) as [G [_ Ho]].
  auto.
Qed.

Lemma step_iadd n (t : tensor) (bias : option tensor) st (u : unit) st' :
  match bias with
  | Some b => t_iadd t b
  | None => ret tt
  end st = (Ok u, st') ->
  (n <= length st)%nat -> owned n st t ->
  grows n st st'.
Proof.
  intros H Hn Ho.
  destruct (@hoare_run _ n _ _ _ st _ _ (@hoare_iadd_owned n t bias) Hn (conj I Ho) H)
    as [G _].
  exact G.
Qed.

Section ConvKeeps.
Variable T : torch_lib.
Import LowRankSolution.

(** A factorized convolution ([Wa] of shape [d, i, kh, kw] followed by a
pointwise [Wb] of shape [Mo, d, 1, 1]) asked for a rank that is not below
its current rank [d] comes back as it was: when the call returns, the
solution holds a [Wa] and a [Wb] with the shapes and the values of the
tensors supplied, the sentinel rank and no bias. *)
Theorem conv2d_keeps_factorized_weights :
  forall inputs Wa Wb rank biasA biasB n_iters kw st u B L i kh kw' d Mo k r st',
    passes_guard (stride kw) -> passes_guard (dilation kw) -> groups kw = 1%Z ->
    tshape Wa = [d; i; kh; kw'] -> tshape Wb = [Mo; d; 1%nat; 1%nat] ->
    length (elems (view Wa)) = numel (tshape Wa) ->
    length (elems (view Wb)) = numel (tshape Wb) ->
    allocated st Wa -> allocated st Wb ->
    (0 < i)%nat -> (0 < kh)%nat -> (0 < kw')%nat -> (0 < d)%nat -> (0 < Mo)%nat ->
    unfolded_patches T (load st inputs) [kh; kw'] kw = Ok u ->
    shape u = [B; (i * kh * kw')%nat; L] ->
    length (elems u) = (B * (i * kh * kw') * L)%nat ->
    (forall Xm Wm,
        tshape Xm = [(B * L)%nat; (i * kh * kw')%nat] ->
        tshape Wm = [(i * kh * kw')%nat; d] ->
        resolve_rank Xm Wm rank = Ok k) ->
    num_ge k (i * kh * kw') = false -> num_ge k Mo = false -> num_ge k d = true ->
    factorize_conv2d T inputs Wa (Some Wb) rank biasA biasB n_iters kw st = (Ok r, st') ->
    exists wa wb,
      LowRankSolution.Wa r = Some wa /\ LowRankSolution.Wb r = Some wb
      /\ tshape wa = tshape Wa /\ load st' wa = load st Wa
      /\ tshape wb = tshape Wb /\ load st' wb = load st Wb
      /\ LowRankSolution.rank r = sentinel /\ LowRankSolution.bias r = None.
Proof.
  intros inputs Wa Wb rank biasA biasB n_iters kw st u B L i kh kw' d Mo k r st'
    Hs Hd Hg HWa HWb HlWa HlWb AWa AWb Hi Hkh Hkw Hd0 HMo Hu Hsh Hlen Hres
    ED EM Ed Hrun.
  set (F := (i * kh * kw')%nat) in *.
  assert (HF : (0 < F)%nat) by (unfold F; repeat apply Nat.mul_pos_pos; assumption).
  unfold factorize_conv2d, detach in Hrun. rewrite HWa in Hrun.
  change (skipn 2 [d; i; kh; kw']) with [kh; kw'] in Hrun.
  (* the activations *)
  apply bind_ok_inv in Hrun. destruct Hrun as (X_mat & s1 & HXm & Hrun).
  assert (HsX : tshape X_mat = [(B * L)%nat; F]).
  { destruct (@activations_head T inputs [kh; kw'] kw st u Hs Hd Hg Hu) as (s0 & E).
    rewrite E in HXm.
    destruct (@activations_tail T (fresh_tensor s0 u) (s0 ++ [elems u]) u B F L)
      as (m & st2 & Htail & Hm & _); auto.
    - unfold fresh_tensor. simpl. now rewrite Hsh.
    - unfold fresh_tensor. simpl. apply nth_middle.
    - rewrite Htail in HXm. inversion HXm; subst. exact Hm. }
  destruct (@hoare_run _ (length st) _ _ _ st _ _
              (@hoare_activations T (length st) (fun _ => True) inputs [kh; kw'] kw
                 (@mono_const True))
              (le_n _) I HXm) as [G1 _].
  (* the two weights as matrices *)
  apply bind_ok_inv in Hrun. destruct Hrun as (Wa_m & s2 & HWm & Hrun).
  assert (AWa1 : allocated s1 Wa) by (unfold allocated in *; destruct G1; lia).
  destruct (@weights_to_mat_inv T Wa d [i; kh; kw'] s1 Wa_m s2 HWm HWa Hd0 AWa1)
    as (ra & -> & Hra & Hlra & Lra & Ara & G2).
  apply bind_ok_inv in Hrun. destruct Hrun as (Y_mat & s3 & HYm & Hrun).
  destruct (@step_alloc _ s2 Y_mat s3 (allocating_matmul X_mat (t_T ra)) HYm) as [G3 OY].
  apply bind_ok_inv in Hrun. destruct Hrun as (uA & s4 & HbA & Hrun).
  assert (G4 : grows (length s2) s3 s4).
  { eapply step_iadd; [exact HbA| |exact OY]. destruct G3; assumption. }
  apply bind_ok_inv in Hrun. destruct Hrun as ([Wb_m Y_mat'] & s5 & HWb_m & Hrun).
  apply bind_ok_inv in HWb_m. destruct HWb_m as (wbm & s5a & Hwbm & HWb_m).
  apply bind_ok_inv in HWb_m. destruct HWb_m as (Y2 & s5b & HY2 & HWb_m).
  apply bind_ok_inv in HWb_m. destruct HWb_m as (uB & s5c & HbB & HWb_m).
  unfold ret in HWb_m. injection HWb_m as EWb EY Es5. subst Wb_m Y_mat' s5c.
  assert (L12 : (length st <= length s1 <= length s2)%nat)
    by (destruct G1, G2; lia).
  assert (L24 : (length s2 <= length s3 <= length s4)%nat)
    by (destruct G3, G4; lia).
  assert (AWb4 : allocated s4 Wb) by (unfold allocated in *; lia).
  destruct (@weights_to_mat_inv T Wb Mo [d; 1; 1]%nat s4 wbm s5a Hwbm HWb HMo AWb4)
    as (rb & -> & Hrb & Hlrb & Lrb & Arb & G5a).
  destruct (@step_alloc _ s5a Y2 s5b (allocating_matmul Y_mat (t_T rb)) HY2) as [G5b OY2].
  assert (G5c : grows (length s5a) s5b s5).
  { eapply step_iadd; [exact HbB| |exact OY2]. destruct G5b; assumption. }
  assert (L45 : (length s4 <= length s5a <= length s5b)%nat /\ (length s5b <= length s5)%nat)
    by (destruct G5a, G5b, G5c; lia).
  (* the factorization keeps them *)
  assert (HsWm : tshape (t_T ra) = [F; d]).
  { rewrite (t_T_shape _ Hra). f_equal. unfold F. simpl. ring. }
  assert (HsWbm : tshape (t_T rb) = [d; Mo]).
  { rewrite (t_T_shape _ Hrb). f_equal. simpl. ring. }
  assert (HsY : tshape Y_mat = [(B * L)%nat; d]) by (eapply t_matmul_shape; eauto).
  assert (HsY2 : tshape Y2 = [(B * L)%nat; Mo]) by (eapply t_matmul_shape; eauto).
  apply bind_ok_inv in Hrun. destruct Hrun as (r0 & s6 & Hfm & Hrun).
  rewrite factorize_matrix_eq, (Hres X_mat (t_T ra) HsX HsWm), bind_lift_ok in Hfm.
  simpl prologue in Hfm. unfold bind at 1 in Hfm. unfold ret at 1 in Hfm.
  rewrite (@branches_keep T X_mat Y2 (t_T ra) (Some (t_T rb)) None _ k n_iters s5 F Mo d)
    in Hfm; try assumption; try (rewrite ?HsX, ?HsY2, ?HsWm; reflexivity).
  injection Hfm as Er0 Es6. subst r0 s6. simpl in Hrun.
  (* back to weights *)
  apply bind_ok_inv in Hrun. destruct Hrun as (wa' & s7 & Hwa' & Hrun).
  apply bind_ok_inv in Hrun. destruct Hrun as (wb' & s8 & Hwb' & Hrun).
  unfold ret in Hrun. injection Hrun as Er Es. subst r s8. simpl in Hwb'.
  assert (Ara5 : allocated s5 ra) by (unfold allocated in *; lia).
  assert (Hwf_ra : length (elems (view ra)) = numel (tshape ra)).
  { rewrite Hlra, HlWa, HWa, Hra. simpl. ring. }
  assert (Hinf_a : infer_size (numel (tshape ra))
                     (Z.of_nat d :: (-1)%Z :: map Z.of_nat [kh; kw'])
                   = Ok [d; i; kh; kw']).
  { rewrite Hra. now apply infer_kernel. }
  destruct (@mat_to_weights_inv T ra d [kh; kw'] _ s5 wa' s7 Hwa' Hwf_ra
              ltac:(rewrite Hra; reflexivity) Hinf_a Ara5)
    as (wa1 & -> & Hswa & Lwa & Awa & G7).
  assert (Arb7 : allocated s7 rb) by (unfold allocated in *; destruct G7; lia).
  assert (Hwf_rb : length (elems (view rb)) = numel (tshape rb)).
  { rewrite Hlrb, HlWb, HWb, Hrb. simpl. ring. }
  assert (Hinf_b : infer_size (numel (tshape rb))
                     (Z.of_nat Mo :: (-1)%Z :: map Z.of_nat [1; 1]%nat)
                   = Ok [Mo; d; 1; 1]%nat).
  { rewrite Hrb. apply infer_kernel; lia. }
  destruct (@mat_to_weights_inv T rb Mo [1; 1]%nat _ s7 wb' st' Hwb' Hwf_rb
              ltac:(rewrite Hrb; reflexivity) Hinf_b Arb7)
    as (wb1 & -> & Hswb & Lwb & Awb & G8).
  exists wa1, wb1. simpl.
  split; [reflexivity|]. split; [reflexivity|].
  (* the values travelled unchanged *)
  assert (K25 : grows (length s2) s2 s5).
  { eapply grows_trans; [exact G3|]. eapply grows_trans; [exact G4|].
    eapply grows_le; [|eapply grows_trans;
                        [exact G5a|eapply grows_le;
                                     [|eapply grows_trans; [exact G5b|exact G5c]]]]; lia. }
  assert (K04 : grows (length st) st s4).
  { eapply grows_trans; [exact G1|].
    eapply grows_le; [|eapply grows_trans;
                        [exact G2|eapply grows_le;
                                     [|eapply grows_trans; [exact G3|exact G4]]]]; lia. }
  assert (K5a7 : grows (length s5a) s5a s7).
  { eapply grows_trans; [exact G5b|]. eapply grows_trans; [exact G5c|].
    eapply grows_le; [|exact G7]. lia. }
  split; [now rewrite Hswa, HWa|]. split.
  { rewrite (@grows_load _ _ _ wa1 G8) by exact Awa.
    rewrite Lwa. rewrite (@grows_load _ _ _ ra K25) by exact Ara.
    rewrite Lra. cbn [elems].
    rewrite (@grows_load _ _ _ Wa G1) by exact AWa.
    unfold load. cbn [elems]. now rewrite HWa. }
  split; [now rewrite Hswb, HWb|]. split.
  { rewrite Lwb. rewrite (@grows_load _ _ _ rb K5a7) by exact Arb.
    rewrite Lrb. cbn [elems].
    rewrite (@grows_load _ _ _ Wb K04) by exact AWb.
    unfold load. cbn [elems]. now rewrite HWb. }
  split; reflexivity.
Qed.

End ConvKeeps.

Lemma conv2d_keeps_factorized_weights_witness :
  exists r st',
    factorize_conv2d Pointwise.lib ConvExample.frames ConvExample.first
      (Some ConvExample.second) (RInt 1) None None 3 default_kwargs
      ConvExample.st_factored = (Ok r, st')
    /\ exists wa wb,
        LowRankSolution.Wa r = Some wa /\ LowRankSolution.Wb r = Some wb
        /\ tshape wa = tshape ConvExample.first
        /\ load st' wa = load ConvExample.st_factored ConvExample.first
        /\ tshape wb = tshape ConvExample.second
        /\ load st' wb = load ConvExample.st_factored ConvExample.second
        /\ LowRankSolution.rank r = sentinel /\ LowRankSolution.bias r = None.
Proof.
  eexists _, _. split; [vm_compute; reflexivity|].
  eapply (@conv2d_keeps_factorized_weights Pointwise.lib
            ConvExample.frames ConvExample.first ConvExample.second (RInt 1) None None 3
            default_kwargs ConvExample.st_factored
            (mkArr [2; 2; 2]%nat
               (elems (load ConvExample.st_factored ConvExample.frames)))
            2 2 2 1 1 1 2 (RInt 1));
    first [ vm_compute; reflexivity | lia | unfold allocated; simpl; lia
          | eexists; split; [reflexivity|simpl; lia]
          | intros; reflexivity ].
Defined.
